(* ===== verification/_CoqProject ===== *)
-Q . S2P
Prelude.v
Domain.v
Rpc.v
Transceiver.v
Router.v
PeerConnection.v
Room.v
RoomSteps.v
Handlers.v
TaskQueue.v
Client.v
Session.v
App.v
