(* ===== verification/Prelude.v ===== *)
(** * A verification library for node-sfu (jacovinus/node-sfu)

    node-sfu is a Selective Forwarding Unit: a signalling server
    ([src/room/room.ts]) that keeps one WebRTC peer connection per
    participant of a room, and a browser SDK ([packages/client/src])
    that drives join / publish / subscribe over a data channel named
    ["sfu"].  Messages on that channel are JSON records
    [{type, payload}] ([packages/core/src/typings/rpc.ts]); the server
    dispatches them with [this[type](...payload)].

    ** Parts of the program and where they are modelled

    - [Prelude] (this file): the shared vocabulary of the development:
      the JavaScript value model ([jval]) with its string coercion, the
      array helpers the code relies on ([String.prototype.split],
      destructuring of arrays with [undefined] past the end), the
      notation scope [sfu_scope], the hint database [sfu] and tactics.
    - [Domain]: the data the components exchange: [Kind], the
      transceiver [Direction] (rtpTransceiver.ts), [SubscriberType],
      [MediaInfo] and [RTCSessionDescription], with their JSON encodings.
    - [Rpc]: the closed message taxonomy of rpc.ts as one inductive
      type and its wire record [to_rpc]; rpc.ts declares types only,
      so the shape-checking decoder [of_rpc] that the client applies
      to what it receives is the spec's closed dispatch table (4.1),
      marked as modelled from the spec.
    - [Transceiver]: [RTCRtpTransceiver.addTrack] (de-duplication of
      receiver tracks by rid, else ssrc, and the [onTrack] event) and
      [sendRtp] (its two guards).
    - [Router]: the track registry the room calls ([addTrack],
      [getTrack], [trackInfos]); its source ([src/room/router.ts]) is not
      part of the staged sources, so it is modelled from the spec and
      marked so in the manifest.  The room sees it only through the
      [TrackRegistry] interface.
    - [Room]: the server, in a Section over any [TrackRegistry]: the
      record [Room] (the registry, [peers], the [onRtp] subscriptions
      of each registered route's track, the suspended [sendOffer]
      calls), every member of the class
      ([join], [handleAnswer], [handleCandidate], [requestPublish],
      [getTracks], [subscribe], [sendOffer], [sendRPC]), the callbacks
      the handlers register ([receiveTrack] for [onTrack],
      [forwardRtp] for [onRtp]), werift's [set_sender_params] (the
      transport's part of a negotiation) and the dynamic dispatch
      [this[type](...payload)] ([member], [dispatch]).  Operations are
      written in the monad [js] of this file: state passing, a log of
      rejected promises, and [None] for a synchronous [TypeError].
      [sendOffer] is split at its [await]: the handler installs the
      offer and suspends; [completeOffer] is the continuation.
    - [RoomSteps]: a Hoare logic ([triple], [pres]) over [js] with one
      rule per primitive, the room invariant [room_inv] and its
      preservation by every handler; the event loop as a step relation
      [step] (a join, a channel message, the resumption of any
      suspended [sendOffer], a track received by a transceiver, the
      transport setting a transceiver's sender parameters), its
      reachable states, and the two-negotiation race of room.ts.  The
      rules carry [peer_stable] facts (kept when transceivers are only
      added or replaced with the same direction), and [triple_map_post]
      reports what a [map] callback established of each result.
    - [Handlers]: the closed form of the server's handlers on each
      branch (success, unknown peer, non-array argument, unknown
      track), computed by chaining one run lemma per primitive
      ([need_pc_run], [addTransceiver_run], ...), and the forwarding of
      RTP ([forwardRtp]) that [subscribe] sets up.
    - [TaskQueue]: the SDK's [PromiseQueue] (FIFO, one job at a time),
      modelled from the spec because [util] is not staged, with a log
      of starts and completions and its invariant; an abstract FIFO
      ([spec_step]) that the queue refines ([queue_refines_fifo]), and
      the worker's run loop [drain] with its termination.  The SDK's
      [util] is not staged, so these are facts of the spec's queue.
    - [Client]: [Module Main] (main.ts: [join], [publish] with its
      simulcast encodings, [subscribe] and the [mid -> MediaInfo]
      table, [ontrack], [handleLeave]) and [Module ClientSDK] (sdk.ts:
      the SDK's [sfu] is an [SFU] of [domain/sfu], not staged; [Main]
      stands for it in [publish], [subscribe], [ontrack] and
      [handleLeave], whose signatures match, but not in [join];
      every call that sends a request, split at its [await] like
      [sendOffer]; [subscribe] goes through [subscribeQueue]); the
      client's event loop [cstep] with ghost state (the submitted jobs
      and the queue's log), and [client_run] over subscribe calls and
      replies.
    - [Session]: the client side of the HTTP bootstrap:
      [ClientSDK.create] / [join] with the [onAnswer] and
      [onIceCandidate] options and the data channel ([Module
      Bootstrap], the requests of [HttpConnection] as [HttpReq]), with
      the SDK's [sfu.join] modelled from the spec ([sfu_join]).
    - [App]: the demo (examples/client-demo/src/App.tsx): [init] as a
      phase machine split at its [await]s, the room link in the URL
      fragment ([URLSearchParams] from the WHATWG standard), the
      [onPublish] / [onTrack] / [onremovetrack] handlers, the rendering
      labels, the video refs and the effect on [streams] ([commit]),
      and the buttons; [App.deliver] connects the SDK's events to it.

    ** Theorems (groups)

    - Room invariant ([RoomSteps.reachable_inv]): in every reachable
      server state the registered routes name [recvonly] transceivers
      of their publishers, the [onRtp] targets [sendonly] transceivers,
      the suspended offers existing peers, and transceiver subscribers
      are their owners; liveness
      ([resume_all_offers]): every suspended offer can be completed,
      each sending one message; message typing
      ([server_messages_typed]): the room invariant also says that
      every peer has its local description and that every message the
      server has sent is a [handleOffer] carrying it or a
      [handleTracks], a type the client's decoder rejects.
    - Handlers: [requestPublish], [subscribe], [getTracks],
      [handleCandidate] and [handleAnswer] in closed form with their
      error branches; [subscribe] for any batch of ids
      ([subscribe_batch]: one [sendonly] transceiver per known id in
      the order of the ids, one rejected promise per unknown id, by
      induction over the routes in [forEach_route_run]); the forwarding
      of a subscribed track's RTP once the transport has set the sender's parameters; registry
      consistency ([publish_track_listed]): a published track, once
      it arrives, is listed by every other peer's [getTracks], proved
      against the registry laws ([reg_addTrack_visible]).
    - Dispatch ([Room]): on the server, the [TypeError] of every rpc.ts
      kind room.ts does not implement (the demo's first request,
      [publish], among them) and of the SDK's [subscribe] payload.
    - Serialization: the SDK's subscribe requests follow submission
      order with at most one in flight ([Client.subscribe_serialized])
      and the queue drains when every job is answered
      ([client_queue_drains]); the
      server has no such serialization: a reachable state has two
      negotiations in flight for one peer and the first offer is never
      sent ([server_two_negotiations_in_flight],
      [server_first_offer_lost]).
    - Client and demo behaviour: the subscriber type policy, the
      simulcast layers of [publish], the mids [Main.subscribe] binds,
      the bindings [handleLeave] keeps, [changeQuality] racing a
      subscribe, the room link round trip, the rendering's error
      condition (a track on an unbound mid makes it throw) and the
      video array's bounds, the demo subscribing to its own track.
    - Transceiver: idempotence of [addTrack] on keyed tracks, the
      duplicate announcements of unkeyed tracks, the guards of
      [sendRtp]; Router: the [TrackRegistry] laws.

    ** Bounds, fuel, assumptions

    [Router.getTrack] of an absent track returns [undefined] (room.ts
    reads [route.track] only inside [subscribe]'s [async] callback);
    spec 4.3 says it fails with [TrackNotFound], and a throwing
    [getTrack] would abort [subscribe] before its [sendOffer].

    The only fuel is that of [PromiseQueue.drain], the worker's loop:
    [drain_completes] shows that as many iterations as there are jobs
    are enough and that more change nothing.  All other recursion is
    structural, and the liveness theorem is proved by induction on the
    number of suspended offers.  Identifiers generated by [uuid.v4] are
    inputs of the [join] step.  What the werift library does inside
    [setLocalDescription] / [setRemoteDescription] (SDP, ICE, DTLS) is
    not modelled: an offer lists the media lines it negotiates, and the
    sender parameters a negotiation gives a transceiver are an explicit
    event ([set_sender_params]).  Numbers of the protocol are integers
    ([Z]); no arithmetic of the code depends on a machine width.

    ** Not modelled

    The React rendering beyond the labels, refs and the effect (styles,
    DOM), RTP packet contents, the MCU mixer internals, the browser's
    percent-encoding of URL fragments, and the sources that are not
    staged beyond what the spec says of them (Router, PromiseQueue,
    DataChannelConnection, HttpConnection, the SDK's [SFU], Events,
    werift's peer connection); the server's HTTP endpoints, which the
    spec leaves out of scope.  The SDK's wiring after [join]
    (sdk.ts: [new DataChannelConnection], the subscription of later ICE
    candidates to the channel, [sfuEndpoint.listen]) hands the channel
    to [SFUEndpoint], which is not staged, so how the client replays a
    server push such as [handleOffer] is known only through [Main]'s
    handlers; [console.log] calls and the STUN configuration of the
    peer connections have no effect the model observes.  *)

From Stdlib Require Export String Ascii.
From stdpp Require Export base list strings gmap pretty.

Declare Scope sfu_scope.
Delimit Scope sfu_scope with sfu.
Open Scope string_scope.
Open Scope list_scope.

#[local] Set Warnings "-register-all".

(** ** JavaScript values

    What [JSON.parse] can produce, plus [undefined] (a missing
    argument of a spread call, a missing array element). *)
Inductive jval :=
| JUndef
| JNull
| JBool (b : bool)
| JNum (n : Z)
| JStr (s : string)
| JArr (l : list jval)
| JObj (fields : list (string * jval)).

(** [a[i]] on an argument list: [undefined] past the end. *)
Definition js_arg (args : list jval) (i : nat) : jval :=
  default JUndef (args !! i).

Notation "args @@ i" := (js_arg args i) (at level 20) : sfu_scope.
Open Scope sfu_scope.

(** Property read [o.f] on a parsed object (first binding wins, as
    [JSON.parse] keeps the last duplicate; the encoders of this
    development never produce duplicates). *)
Definition js_get (v : jval) (f : string) : jval :=
  match v with
  | JObj fs =>
      match List.find (fun p => String.eqb (fst p) f) fs with
      | Some (_, x) => x
      | None => JUndef
      end
  | _ => JUndef
  end.

(** [String(v)]: the property key [o[v]] reads.  Array elements
    that are [null] or [undefined] print as the empty string. *)
Fixpoint js_key (v : jval) : string :=
  match v with
  | JUndef => "undefined"
  | JNull => "null"
  | JBool b => if b then "true" else "false"
  | JNum n => pretty n
  | JStr s => s
  | JArr l =>
      String.concat ","
        ((fix go (l : list jval) : list string :=
            match l with
            | [] => []
            | (JUndef | JNull) :: r => "" :: go r
            | x :: r => js_key x :: go r
            end) l)
  | JObj _ => "[object Object]"
  end.

(** Shape checks of parsed JSON values. *)
Definition str_of_json (v : jval) : option string :=
  match v with JStr s => Some s | _ => None end.

Definition bool_of_json (v : jval) : option bool :=
  match v with JBool b => Some b | _ => None end.

Definition num_of_json (v : jval) : option Z :=
  match v with JNum n => Some n | _ => None end.

(** An array whose every element passes the decoder [f]. *)
Definition list_of_json {A} (f : jval -> option A) (v : jval) : option (list A) :=
  match v with JArr l => mapM f l | _ => None end.

(** ** [String.prototype.split] with a one-character separator *)
Fixpoint js_split (c : ascii) (s : string) : list string :=
  match s with
  | EmptyString => [EmptyString]
  | String a r =>
      let parts := js_split c r in
      if Ascii.eqb a c then EmptyString :: parts
      else match parts with
           | p :: ps => String a p :: ps
           | [] => [String a EmptyString]
           end
  end.

(** A string does not contain the character [c]. *)
Fixpoint no_char (c : ascii) (s : string) : bool :=
  match s with
  | EmptyString => true
  | String a r => negb (Ascii.eqb a c) && no_char c r
  end.

(** ** JavaScript control flow over a state [S]

    A computation returns the new state, the names of the [async]
    functions whose promise was rejected on the way (unawaited calls:
    the caller goes on), and [Some v] when it returned [v] or [None]
    when it threw a [TypeError] synchronously (the caller stops; what
    was mutated before the throw stays mutated). *)
Definition js (S A : Type) : Type := S -> S * list string * option A.

Definition js_ret {S A} (x : A) : js S A := fun s => (s, [], Some x).
Definition js_bind {S A B} (m : js S A) (f : A -> js S B) : js S B := fun s =>
  match m s with
  | (s1, e1, Some x) => let '(s2, e2, r) := f x s1 in (s2, e1 ++ e2, r)
  | (s1, e1, None) => (s1, e1, None)
  end.

Notation "x <- m ;; k" := (js_bind m (fun x => k))
  (at level 20, m at level 99, k at level 200) : sfu_scope.
Notation "' p <- m ;; k" := (js_bind m (fun x => match x with p => k end))
  (at level 20, p pattern, m at level 99, k at level 200) : sfu_scope.
Notation "m >>> k" := (js_bind m (fun _ => k))
  (at level 100, k at level 200, right associativity) : sfu_scope.

Definition js_throw {S A} : js S A := fun s => (s, [], None).
Definition js_get_state {S} : js S S := fun s => (s, [], Some s).
Definition js_put {S} (s' : S) : js S unit := fun _ => (s', [], Some tt).

(** An [async] function called without [await]: a throw before its
    first [await] rejects its promise instead of propagating. *)
Definition js_async {S} (name : string) (m : js S unit) : js S unit := fun s =>
  match m s with
  | (s1, e1, Some _) => (s1, e1, Some tt)
  | (s1, e1, None) => (s1, e1 ++ [name], Some tt)
  end.

(** Using a value that must be present ([undefined] otherwise). *)
Definition js_need {S A} (o : option A) : js S A :=
  match o with Some x => js_ret x | None => js_throw end.

(** [xs.map(f)] and [xs.forEach(f)], left to right. *)
Fixpoint js_map {S A B} (f : A -> js S B) (l : list A) : js S (list B) :=
  match l with
  | [] => js_ret []
  | x :: r => y <- f x;; ys <- js_map f r;; js_ret (y :: ys)
  end.

Fixpoint js_forEach {S A} (f : A -> js S unit) (l : list A) : js S unit :=
  match l with
  | [] => js_ret tt
  | x :: r => f x >>> js_forEach f r
  end.

(** The receiver of [xs.map]: an array. *)
Definition array_of_json (v : jval) : option (list jval) :=
  match v with JArr l => Some l | _ => None end.

(** ** Automation shared by the components *)
Create HintDb sfu discriminated.
Create Rewrite HintDb sfu_rw.

Ltac inv_clear H := inversion H; subst; clear H.

(** Split a hypothesis [b1 && b2 = true] and boolean string tests. *)
Ltac sfu_bool :=
  repeat match goal with
  | H : (_ && _)%bool = true |- _ => apply andb_true_iff in H as [? ?]
  | H : String.eqb _ _ = true |- _ => apply String.eqb_eq in H; subst
  | H : negb _ = true |- _ => apply negb_true_iff in H
  end.

(** ** Generic lemmas *)

Lemma js_split_no_char c s :
  no_char c s = true -> js_split c s = [s].
Proof.
  induction s as [|a r IH]; simpl; [done|].
  intros H. sfu_bool. rewrite IH by done. by rewrite H.
Qed.

Lemma js_split_app c p s :
  no_char c p = true ->
  js_split c (String.append p (String c s)) =
  match js_split c s with
  | q :: qs => p :: q :: qs
  | [] => [p]
  end.
Proof.
  induction p as [|a r IH]; simpl; intros H.
  - rewrite Ascii.eqb_refl. by destruct (js_split c s).
  - sfu_bool. rewrite IH by done. rewrite H. by destruct (js_split c s).
Qed.

Lemma js_split_nonempty c s : js_split c s <> [].
Proof.
  induction s as [|a r IH]; simpl; [done|].
  destruct (Ascii.eqb a c); [done|]. by destruct (js_split c r).
Qed.

(** Decoding an encoded array gives the list back. *)
Lemma mapM_roundtrip {A} (f : jval -> option A) (g : A -> jval) (l : list A) :
  (forall x, f (g x) = Some x) -> mapM f (List.map g l) = Some l.
Proof. intros Hfg. induction l as [|x l IH]; simpl; [done|]. by rewrite Hfg, IH. Qed.

Lemma list_of_json_roundtrip {A} (f : jval -> option A) (g : A -> jval) (l : list A) :
  (forall x, f (g x) = Some x) -> list_of_json f (JArr (List.map g l)) = Some l.
Proof. intros Hfg. unfold list_of_json. by apply mapM_roundtrip. Qed.

Lemma js_bind_ret_l {S A B} (x : A) (f : A -> js S B) s :
  js_bind (js_ret x) f s = f x s.
Proof. unfold js_bind, js_ret. simpl. destruct (f x s) as [[? ?] ?]. done. Qed.

Lemma js_bind_ok {S A B} (m : js S A) (f : A -> js S B) s s1 e1 x :
  m s = (s1, e1, Some x) ->
  js_bind m f s = let '(s2, e2, r) := f x s1 in (s2, e1 ++ e2, r).
Proof. intros H. unfold js_bind. by rewrite H. Qed.

Lemma js_bind_assoc {S A B C} (m : js S A) (f : A -> js S B) (g : B -> js S C) s :
  js_bind (js_bind m f) g s = js_bind m (fun x => js_bind (f x) g) s.
Proof.
  unfold js_bind. destruct (m s) as [[s1 e1] [x|]]; [|done].
  destruct (f x s1) as [[s2 e2] [y|]]; [|done].
  destruct (g y s2) as [[s3 e3] r]. by rewrite app_assoc.
Qed.

Lemma js_bind_throw {S A B} (m : js S A) (f : A -> js S B) s s1 e1 :
  m s = (s1, e1, None) -> js_bind m f s = (s1, e1, None).
Proof. intros H. unfold js_bind. by rewrite H. Qed.

(** [alter] on a present key is an [insert] of the altered value. *)
Lemma alter_Some_insert {K V} `{Countable K} (f : V -> V) (m : gmap K V) k v :
  m !! k = Some v -> alter f k m = <[k := f v]> m.
Proof.
  intros Hk. apply map_eq. intros j. destruct (decide (k = j)) as [->|Hne].
  - by rewrite lookup_alter_eq, lookup_insert_eq, Hk.
  - by rewrite lookup_alter_ne, lookup_insert_ne.
Qed.

#[export] Hint Resolve js_split_nonempty : sfu.
#[export] Hint Rewrite js_split_no_char js_split_app using done : sfu_rw.
