(* ===== verification/Domain.v ===== *)
(** * Domain: the data exchanged between the components

    [Kind] and [Direction] are the werift enumerations the room and the
    transceiver use ([Directions] is declared in
    [src/werift/rtc/media/rtpTransceiver.ts]); [SubscriberType],
    [MediaInfo] and [RTCSessionDescription] come from modules the
    staged sources import but do not contain, and follow the spec
    (section 3, section 6).  Each type has its JSON encoding (what
    [JSON.stringify] puts on the data channel) and a decoder that checks
    the shape, with a round-trip lemma. *)

From S2P Require Import Prelude.

(** ** Media kind ["audio" | "video"] *)
Inductive Kind := Audio | Video.

#[export] Instance Kind_eq_dec : EqDecision Kind.
Proof. solve_decision. Defined.

#[export] Instance Kind_countable : Countable Kind.
Proof.
  refine (inj_countable' (fun k => match k with Audio => true | Video => false end)
            (fun b => if b then Audio else Video) _).
  by intros [].
Defined.

Definition kind_str (k : Kind) : string :=
  match k with Audio => "audio" | Video => "video" end.

Definition kind_of_str (s : string) : option Kind :=
  if String.eqb s "audio" then Some Audio
  else if String.eqb s "video" then Some Video
  else None.

(** ** Transceiver direction (rtpTransceiver.ts, [Directions]) *)
Inductive Direction := Sendonly | Sendrecv | Recvonly | Inactive.

#[export] Instance Direction_eq_dec : EqDecision Direction.
Proof. solve_decision. Defined.

(** The array [Directions] in declaration order. *)
Definition Directions : list Direction := [Sendonly; Sendrecv; Recvonly; Inactive].

Definition direction_str (d : Direction) : string :=
  match d with
  | Sendonly => "sendonly" | Sendrecv => "sendrecv"
  | Recvonly => "recvonly" | Inactive => "inactive"
  end.

(** ** Subscriber type ["low" | "high" | "single" | "auto"] *)
Inductive SubscriberType := Low | High | Single | Auto.

#[export] Instance SubscriberType_eq_dec : EqDecision SubscriberType.
Proof. solve_decision. Defined.

Definition subscriber_type_str (t : SubscriberType) : string :=
  match t with Low => "low" | High => "high" | Single => "single" | Auto => "auto" end.

Definition subscriber_type_of_str (s : string) : option SubscriberType :=
  if String.eqb s "low" then Some Low
  else if String.eqb s "high" then Some High
  else if String.eqb s "single" then Some Single
  else if String.eqb s "auto" then Some Auto
  else None.

(** ** MediaInfo: a published track as the protocol names it *)
Record MediaInfo := mkMediaInfo {
  mediaId : string;
  publisherId : string;
  kind : Kind;
  simulcast : bool;
}.

#[export] Instance MediaInfo_eq_dec : EqDecision MediaInfo.
Proof. solve_decision. Defined.

Definition mediaInfo_to_json (m : MediaInfo) : jval :=
  JObj [("mediaId", JStr (mediaId m)); ("publisherId", JStr (publisherId m));
        ("kind", JStr (kind_str (kind m))); ("simulcast", JBool (simulcast m))].

Definition mediaInfo_of_json (v : jval) : option MediaInfo :=
  match str_of_json (js_get v "mediaId"), str_of_json (js_get v "publisherId"),
        str_of_json (js_get v "kind"), bool_of_json (js_get v "simulcast") with
  | Some m, Some p, Some k, Some b =>
      (fun k => mkMediaInfo m p k b) <$> kind_of_str k
  | _, _, _, _ => None
  end.

(** ** RTCSessionDescription [{type, sdp}] *)
Inductive SdpType := Offer | Answer.

#[export] Instance SdpType_eq_dec : EqDecision SdpType.
Proof. solve_decision. Defined.

Definition sdp_type_str (t : SdpType) : string :=
  match t with Offer => "offer" | Answer => "answer" end.

Definition sdp_type_of_str (s : string) : option SdpType :=
  if String.eqb s "offer" then Some Offer
  else if String.eqb s "answer" then Some Answer
  else None.

Record SessionDescription := mkSdp { sd_type : SdpType; sd_sdp : string }.

#[export] Instance SessionDescription_eq_dec : EqDecision SessionDescription.
Proof. solve_decision. Defined.

Definition sdp_to_json (d : SessionDescription) : jval :=
  JObj [("type", JStr (sdp_type_str (sd_type d))); ("sdp", JStr (sd_sdp d))].

Definition sdp_of_json (v : jval) : option SessionDescription :=
  match str_of_json (js_get v "type"), str_of_json (js_get v "sdp") with
  | Some t, Some s => (fun t => mkSdp t s) <$> sdp_type_of_str t
  | _, _ => None
  end.

(** ** Round trips of the encodings *)

Lemma kind_of_str_str k : kind_of_str (kind_str k) = Some k.
Proof. by destruct k. Qed.

Lemma subscriber_type_of_str_str t : subscriber_type_of_str (subscriber_type_str t) = Some t.
Proof. by destruct t. Qed.

Lemma sdp_type_of_str_str t : sdp_type_of_str (sdp_type_str t) = Some t.
Proof. by destruct t. Qed.

Lemma mediaInfo_json_roundtrip m : mediaInfo_of_json (mediaInfo_to_json m) = Some m.
Proof.
  destruct m as [m p k b]. unfold mediaInfo_of_json. simpl.
  by rewrite kind_of_str_str.
Qed.

Lemma sdp_json_roundtrip d : sdp_of_json (sdp_to_json d) = Some d.
Proof. destruct d as [t s]. unfold sdp_of_json. simpl. by rewrite sdp_type_of_str_str. Qed.

#[export] Hint Rewrite kind_of_str_str subscriber_type_of_str_str sdp_type_of_str_str
  mediaInfo_json_roundtrip sdp_json_roundtrip : sfu_rw.
