(* ===== verification/Rpc.v ===== *)
(** * Rpc: the signalling protocol of [packages/core/src/typings/rpc.ts]

    Every interface [X extends RPC] of rpc.ts is one constructor of
    [Msg], with the payload tuple of the interface as its arguments.
    [to_rpc] is what the sender puts on the channel (the [RPC] record
    [{type, payload}]); [of_rpc] checks a received record against the
    closed set of interfaces (the type literal, then the arity and shape
    of the payload) and is [None] for anything else: a protocol error.
    rpc.ts declares the types only and contains no decoder: [of_rpc] is
    the closed dispatch table spec 4.1 and 9 ask for, modelled from the
    spec and derived from the type declarations. *)

From S2P Require Import Prelude Domain.

(** [RTCIceCandidateJSON] (werift): the candidate line and its m-line. *)
Record IceCandidate := mkCandidate { candidate : string; sdpMLineIndex : Z }.

#[export] Instance IceCandidate_eq_dec : EqDecision IceCandidate.
Proof. solve_decision. Defined.

(** [RequestPublish], [RequestSubscribe], [MidPair], [MixIdPair]. *)
Record RequestPublish := mkRequestPublish { rp_kind : Kind; rp_simulcast : bool }.
Record RequestSubscribe := mkRequestSubscribe { rs_info : MediaInfo; rs_type : SubscriberType }.
Record MidPair := mkMidPair { mp_mediaId : string; mp_mid : string }.
Record MixIdPair := mkMixIdPair { mx_mid : string; mx_mixId : string }.

(** The wire record [interface RPC { type: string; payload: any[] }]. *)
Record RPC := mkRPC { rpc_type : string; payload : list jval }.

Inductive Msg :=
| HandleAnswer (peerId : string) (answer : SessionDescription)
| HandleAnswerDone
| HandleCandidate (peerId : string) (c : IceCandidate)
| Publish (peerId : string) (reqs : list RequestPublish)
| UnPublish (info : MediaInfo)
| HandlePublish (info : MediaInfo)
| HandleUnPublish (info : MediaInfo) (offer : SessionDescription)
| HandleUnPublishDone (answer : SessionDescription)
| GetMedias (peerId : string)
| HandleMedias (infos : list MediaInfo)
| Subscribe (peerId : string) (reqs : list RequestSubscribe)
| HandleSubscribe (offer : SessionDescription) (pairs : list MidPair)
| ListenMixedAudio (peerId : string) (infos : list MediaInfo)
| HandleListenMixedAudio (offer : SessionDescription) (pair : MixIdPair)
| AddMixedAudioTrack (mixerId : string) (info : MediaInfo)
| RemoveMixedAudioTrack (mixerId : string) (info : MediaInfo)
| Leave (peerId : string)
| HandleJoin (peerId : string)
| HandleLeave (infos : list MediaInfo) (offer : SessionDescription)
| HandleOffer (offer : SessionDescription) (rest : list jval)
| ChangeQuality (peerId : string) (info : MediaInfo) (type : SubscriberType).

(** ** Encoders of the payload records *)

Definition candidate_to_json (c : IceCandidate) : jval :=
  JObj [("candidate", JStr (candidate c)); ("sdpMLineIndex", JNum (sdpMLineIndex c))].

Definition requestPublish_to_json (r : RequestPublish) : jval :=
  JObj [("kind", JStr (kind_str (rp_kind r))); ("simulcast", JBool (rp_simulcast r))].

Definition requestSubscribe_to_json (r : RequestSubscribe) : jval :=
  JObj [("info", mediaInfo_to_json (rs_info r));
        ("type", JStr (subscriber_type_str (rs_type r)))].

Definition midPair_to_json (p : MidPair) : jval :=
  JObj [("mediaId", JStr (mp_mediaId p)); ("mid", JStr (mp_mid p))].

Definition mixIdPair_to_json (p : MixIdPair) : jval :=
  JObj [("mid", JStr (mx_mid p)); ("mixId", JStr (mx_mixId p))].

Definition arr {A} (f : A -> jval) (l : list A) : jval := JArr (List.map f l).

(** The [type] literal of each interface. *)
Definition msg_type (m : Msg) : string :=
  match m with
  | HandleAnswer _ _ => "handleAnswer" | HandleAnswerDone => "handleAnswerDone"
  | HandleCandidate _ _ => "handleCandidate" | Publish _ _ => "publish"
  | UnPublish _ => "unPublish" | HandlePublish _ => "handlePublish"
  | HandleUnPublish _ _ => "handleUnPublish"
  | HandleUnPublishDone _ => "handleUnPublishDone"
  | GetMedias _ => "getMedias" | HandleMedias _ => "handleMedias"
  | Subscribe _ _ => "subscribe" | HandleSubscribe _ _ => "handleSubscribe"
  | ListenMixedAudio _ _ => "listenMixedAudio"
  | HandleListenMixedAudio _ _ => "handleListenMixedAudio"
  | AddMixedAudioTrack _ _ => "addMixedAudioTrack"
  | RemoveMixedAudioTrack _ _ => "removeMixedAudioTrack"
  | Leave _ => "leave" | HandleJoin _ => "handleJoin"
  | HandleLeave _ _ => "handleLeave" | HandleOffer _ _ => "handleOffer"
  | ChangeQuality _ _ _ => "changeQuality"
  end.

(** The payload tuple of each interface. *)
Definition msg_payload (m : Msg) : list jval :=
  match m with
  | HandleAnswer p d => [JStr p; sdp_to_json d]
  | HandleAnswerDone => []
  | HandleCandidate p c => [JStr p; candidate_to_json c]
  | Publish p rs => [JStr p; arr requestPublish_to_json rs]
  | UnPublish i => [mediaInfo_to_json i]
  | HandlePublish i => [mediaInfo_to_json i]
  | HandleUnPublish i d => [mediaInfo_to_json i; sdp_to_json d]
  | HandleUnPublishDone d => [sdp_to_json d]
  | GetMedias p => [JStr p]
  | HandleMedias ms => [arr mediaInfo_to_json ms]
  | Subscribe p rs => [JStr p; arr requestSubscribe_to_json rs]
  | HandleSubscribe d ps => [sdp_to_json d; arr midPair_to_json ps]
  | ListenMixedAudio p ms => [JStr p; arr mediaInfo_to_json ms]
  | HandleListenMixedAudio d x => [sdp_to_json d; mixIdPair_to_json x]
  | AddMixedAudioTrack x i => [JStr x; mediaInfo_to_json i]
  | RemoveMixedAudioTrack x i => [JStr x; mediaInfo_to_json i]
  | Leave p => [JStr p]
  | HandleJoin p => [JStr p]
  | HandleLeave ms d => [arr mediaInfo_to_json ms; sdp_to_json d]
  | HandleOffer d rest => sdp_to_json d :: rest
  | ChangeQuality p i t => [JStr p; mediaInfo_to_json i; JStr (subscriber_type_str t)]
  end.

Definition to_rpc (m : Msg) : RPC := mkRPC (msg_type m) (msg_payload m).

(** ** Decoders: the payload shape of each interface *)

Definition candidate_of_json (v : jval) : option IceCandidate :=
  c ← str_of_json (js_get v "candidate");
  n ← num_of_json (js_get v "sdpMLineIndex");
  Some (mkCandidate c n).

Definition requestPublish_of_json (v : jval) : option RequestPublish :=
  k ← str_of_json (js_get v "kind") ≫= kind_of_str;
  b ← bool_of_json (js_get v "simulcast");
  Some (mkRequestPublish k b).

Definition requestSubscribe_of_json (v : jval) : option RequestSubscribe :=
  i ← mediaInfo_of_json (js_get v "info");
  t ← str_of_json (js_get v "type") ≫= subscriber_type_of_str;
  Some (mkRequestSubscribe i t).

Definition midPair_of_json (v : jval) : option MidPair :=
  m ← str_of_json (js_get v "mediaId");
  d ← str_of_json (js_get v "mid");
  Some (mkMidPair m d).

Definition mixIdPair_of_json (v : jval) : option MixIdPair :=
  m ← str_of_json (js_get v "mid");
  x ← str_of_json (js_get v "mixId");
  Some (mkMixIdPair m x).

(** One decoder per interface, keyed by its [type] literal: the closed
    dispatch table.  A payload of the wrong length or shape is [None]. *)
Definition decoders : list (string * (list jval -> option Msg)) := [
  ("handleAnswer", fun a => match a with
    | [p; d] => p ← str_of_json p; d ← sdp_of_json d; Some (HandleAnswer p d)
    | _ => None end);
  ("handleAnswerDone", fun a => match a with [] => Some HandleAnswerDone | _ => None end);
  ("handleCandidate", fun a => match a with
    | [p; c] => p ← str_of_json p; c ← candidate_of_json c; Some (HandleCandidate p c)
    | _ => None end);
  ("publish", fun a => match a with
    | [p; r] => p ← str_of_json p; r ← list_of_json requestPublish_of_json r;
                Some (Publish p r)
    | _ => None end);
  ("unPublish", fun a => match a with
    | [i] => UnPublish <$> mediaInfo_of_json i | _ => None end);
  ("handlePublish", fun a => match a with
    | [i] => HandlePublish <$> mediaInfo_of_json i | _ => None end);
  ("handleUnPublish", fun a => match a with
    | [i; d] => i ← mediaInfo_of_json i; d ← sdp_of_json d; Some (HandleUnPublish i d)
    | _ => None end);
  ("handleUnPublishDone", fun a => match a with
    | [d] => HandleUnPublishDone <$> sdp_of_json d | _ => None end);
  ("getMedias", fun a => match a with
    | [p] => GetMedias <$> str_of_json p | _ => None end);
  ("handleMedias", fun a => match a with
    | [l] => HandleMedias <$> list_of_json mediaInfo_of_json l | _ => None end);
  ("subscribe", fun a => match a with
    | [p; r] => p ← str_of_json p; r ← list_of_json requestSubscribe_of_json r;
                Some (Subscribe p r)
    | _ => None end);
  ("handleSubscribe", fun a => match a with
    | [d; l] => d ← sdp_of_json d; l ← list_of_json midPair_of_json l;
                Some (HandleSubscribe d l)
    | _ => None end);
  ("listenMixedAudio", fun a => match a with
    | [p; l] => p ← str_of_json p; l ← list_of_json mediaInfo_of_json l;
                Some (ListenMixedAudio p l)
    | _ => None end);
  ("handleListenMixedAudio", fun a => match a with
    | [d; x] => d ← sdp_of_json d; x ← mixIdPair_of_json x;
                Some (HandleListenMixedAudio d x)
    | _ => None end);
  ("addMixedAudioTrack", fun a => match a with
    | [x; i] => x ← str_of_json x; i ← mediaInfo_of_json i; Some (AddMixedAudioTrack x i)
    | _ => None end);
  ("removeMixedAudioTrack", fun a => match a with
    | [x; i] => x ← str_of_json x; i ← mediaInfo_of_json i;
                Some (RemoveMixedAudioTrack x i)
    | _ => None end);
  ("leave", fun a => match a with [p] => Leave <$> str_of_json p | _ => None end);
  ("handleJoin", fun a => match a with [p] => HandleJoin <$> str_of_json p | _ => None end);
  ("handleLeave", fun a => match a with
    | [l; d] => l ← list_of_json mediaInfo_of_json l; d ← sdp_of_json d;
                Some (HandleLeave l d)
    | _ => None end);
  ("handleOffer", fun a => match a with
    | d :: rest => d ← sdp_of_json d; Some (HandleOffer d rest)
    | [] => None end);
  ("changeQuality", fun a => match a with
    | [p; i; t] => p ← str_of_json p; i ← mediaInfo_of_json i;
                   t ← str_of_json t ≫= subscriber_type_of_str;
                   Some (ChangeQuality p i t)
    | _ => None end)
].

Definition of_rpc (r : RPC) : option Msg :=
  d ← snd <$> List.find (fun e => String.eqb (fst e) (rpc_type r)) decoders;
  d (payload r).


(** ** Round trip of the protocol *)

Lemma candidate_json_roundtrip c : candidate_of_json (candidate_to_json c) = Some c.
Proof. by destruct c. Qed.

Lemma requestPublish_json_roundtrip r :
  requestPublish_of_json (requestPublish_to_json r) = Some r.
Proof. destruct r as [k b]. unfold requestPublish_of_json. simpl. by rewrite kind_of_str_str. Qed.

Lemma requestSubscribe_json_roundtrip r :
  requestSubscribe_of_json (requestSubscribe_to_json r) = Some r.
Proof.
  destruct r as [i t]. unfold requestSubscribe_of_json. simpl.
  by rewrite mediaInfo_json_roundtrip, subscriber_type_of_str_str.
Qed.

Lemma midPair_json_roundtrip p : midPair_of_json (midPair_to_json p) = Some p.
Proof. by destruct p. Qed.

Lemma mixIdPair_json_roundtrip p : mixIdPair_of_json (mixIdPair_to_json p) = Some p.
Proof. by destruct p. Qed.

Lemma arr_roundtrip {A} (f : jval -> option A) (g : A -> jval) l :
  (forall x, f (g x) = Some x) -> list_of_json f (arr g l) = Some l.
Proof. apply list_of_json_roundtrip. Qed.

#[export] Hint Rewrite candidate_json_roundtrip requestPublish_json_roundtrip
  requestSubscribe_json_roundtrip midPair_json_roundtrip mixIdPair_json_roundtrip : sfu_rw.
#[export] Hint Resolve mediaInfo_json_roundtrip requestPublish_json_roundtrip
  requestSubscribe_json_roundtrip midPair_json_roundtrip : sfu.

(** The [subscribe] request round-trips (the client's request policy
    relies on it). *)
Lemma of_rpc_subscribe (p : string) (qs : list RequestSubscribe) :
  of_rpc (to_rpc (Subscribe p qs)) = Some (Subscribe p qs).
Proof. cbn -[list_of_json arr]. by rewrite arr_roundtrip by auto with sfu. Qed.

(** ** Witnesses *)

