(* ===== verification/Transceiver.v ===== *)
(** * Transceiver: [RTCRtpTransceiver] of
    [src/werift/rtc/media/rtpTransceiver.ts]

    The state of a transceiver is the record [RTCRtpTransceiver]: its
    kind, direction, negotiated [mid], the sender parameters (set once
    negotiation is complete) and the receiver's track list.  [addTrack]
    returns the new state and the track it announced on [onTrack]
    ([None] when the track was already known; the subscribers of
    [onTrack] are a field of the record and run in the room); [sendRtp] returns what it
    handed to the sender ([None] when a guard returned early).

    The [find] callback of [addTrack] uses JavaScript truthiness: a
    [rid] counts only when it is a non-empty string, an [ssrc] only when
    it is a non-zero number; a track with neither is never matched. *)

From S2P Require Import Prelude Domain.

(** [RtpTrack] as far as [addTrack] reads it. *)
Record RtpTrack := mkRtpTrack {
  track_id : string;
  track_kind : Kind;
  rid : option string;
  ssrc : option Z;
}.

#[export] Instance RtpTrack_eq_dec : EqDecision RtpTrack.
Proof. solve_decision. Defined.

#[export] Instance RtpTrack_countable : Countable RtpTrack.
Proof.
  by apply (inj_countable' (fun t => (track_id t, track_kind t, rid t, ssrc t))
              (fun '(i, k, r, s) => mkRtpTrack i k r s)); intros [].
Defined.

(** [RTCRtpParameters] handed to [sender.sendRtp]. *)
Record RTCRtpParameters := mkParams { codecs : list string; muxId : string }.

(** An RTP packet: forwarded unchanged. *)
Record RtpPacket := mkRtp { pt : Z; sequenceNumber : Z; rtp_ssrc : Z }.

Module RTCRtpTransceiver.

Record t := mk {
  uuid : string;
  kind : Kind;
  direction : Direction;
  mid : option string;
  senderParams : option RTCRtpParameters;
  (** [onTrack = new Event<RtpTrack>()]: the subscribers, by the peer
      id the room's callback closes over. *)
  onTrack : list string;
  receiver_tracks : list RtpTrack;
}.

(** Truthiness of [t.rid] and [t.ssrc]. *)
Definition truthy_str (o : option string) : bool :=
  match o with Some s => negb (String.eqb s "") | None => false end.

Definition truthy_num (o : option Z) : bool :=
  match o with Some n => negb (Z.eqb n 0) | None => false end.

(** The callback of [this.receiver.tracks.find]:
    [if (t.rid) return t.rid === track.rid;
     if (t.ssrc) return t.ssrc === track.ssrc;] (otherwise [undefined]). *)
Definition matches (t track : RtpTrack) : bool :=
  if truthy_str (rid t) then bool_decide (rid t = rid track)
  else if truthy_num (ssrc t) then bool_decide (ssrc t = ssrc track)
  else false.

Definition with_tracks (tr : t) (l : list RtpTrack) : t :=
  mk (uuid tr) (kind tr) (direction tr) (mid tr) (senderParams tr) (onTrack tr) l.

(** [addTrack(track)]: push and fire [onTrack] unless a known track
    matches. *)
Definition addTrack (tr : t) (track : RtpTrack) : t * option RtpTrack :=
  match List.find (fun x => matches x track) (receiver_tracks tr) with
  | Some _ => (tr, None)
  | None => (with_tracks tr (receiver_tracks tr ++ [track]), Some track)
  end.

(** [sendRtp(rtp)]: the two early returns, then [sender.sendRtp]. *)
Definition sendRtp (tr : t) (rtp : RtpPacket) : option (RtpPacket * RTCRtpParameters) :=
  match direction tr with
  | Inactive => None
  | _ => match senderParams tr with
         | None => None
         | Some p => Some (rtp, p)
         end
  end.

(** ** Invariant: no receiver track is matched by a later one *)
Fixpoint tracks_distinct (l : list RtpTrack) : Prop :=
  match l with
  | [] => True
  | x :: r => (forall y, In y r -> matches x y = false) /\ tracks_distinct r
  end.

(** A track that carries a key (a truthy [rid] or [ssrc]). *)
Definition keyed (track : RtpTrack) : bool := truthy_str (rid track) || truthy_num (ssrc track).

(** ** Lemmas *)

Lemma matches_self track : keyed track = true -> matches track track = true.
Proof.
  unfold keyed, matches. intros H.
  destruct (truthy_str (rid track)); [by rewrite bool_decide_true|].
  simpl in H. rewrite H. by rewrite bool_decide_true.
Qed.

Lemma find_none_forall (l : list RtpTrack) track :
  List.find (fun x => matches x track) l = None <->
  forall x, In x l -> matches x track = false.
Proof.
  split.
  - intros H x Hx. destruct (matches x track) eqn:E; [|done].
    destruct (List.find_none _ _ H x Hx). congruence.
  - intros H. induction l as [|y l IH]; simpl; [done|].
    rewrite H by (by left). apply IH. intros x Hx. apply H. by right.
Qed.

Lemma tracks_distinct_app l track :
  tracks_distinct l -> (forall x, In x l -> matches x track = false) ->
  tracks_distinct (l ++ [track]).
Proof.
  induction l as [|x l IH]; simpl; intros Hd Hm; [done|].
  destruct Hd as [Hx Hd]. split.
  - intros y [Hy|Hy]%in_app_or; [by apply Hx|]. destruct Hy as [<-|[]]. apply Hm. by left.
  - apply IH; [done|]. intros z Hz. apply Hm. by right.
Qed.

(** [addTrack] touches only the receiver's tracks. *)
Lemma addTrack_onTrack (tr : t) (track : RtpTrack) :
  onTrack (fst (addTrack tr track)) = onTrack tr.
Proof. unfold addTrack. by destruct (List.find _ _). Qed.

#[export] Hint Resolve matches_self tracks_distinct_app : sfu.

(** ** Properties *)

(** C26: [addTrack] keeps the receiver's tracks pairwise distinct. *)
Theorem addTrack_preserves_distinct (tr : t) (track : RtpTrack) :
  tracks_distinct (receiver_tracks tr) ->
  tracks_distinct (receiver_tracks (fst (addTrack tr track))).
Proof.
  unfold addTrack. destruct (List.find _ _) eqn:E; simpl; [done|].
  intros Hd. apply tracks_distinct_app; [done|]. by apply find_none_forall.
Qed.

Lemma addTrack_direction (tr : t) (track : RtpTrack) :
  direction (fst (addTrack tr track)) = direction tr.
Proof. unfold addTrack. by destruct (List.find _ _). Qed.

(** [onTrack] fires exactly when the track is pushed. *)
Lemma addTrack_event (tr : t) (track : RtpTrack) :
  (snd (addTrack tr track) = Some track /\
   receiver_tracks (fst (addTrack tr track)) = receiver_tracks tr ++ [track] /\
   forall x, In x (receiver_tracks tr) -> matches x track = false)
  \/
  (snd (addTrack tr track) = None /\ fst (addTrack tr track) = tr /\
   exists x, In x (receiver_tracks tr) /\ matches x track = true).
Proof.
  unfold addTrack. destruct (List.find _ _) as [x|] eqn:E.
  - right. apply List.find_some in E as [? ?]. eauto.
  - left. simpl. split_and!; [done..|]. by apply find_none_forall.
Qed.

(** C19: a track announced with a truthy rid or ssrc is announced once:
    a second [addTrack] of it changes nothing and fires no event. *)
Theorem addTrack_idempotent (tr : t) (track : RtpTrack) :
  keyed track = true ->
  addTrack (fst (addTrack tr track)) track = (fst (addTrack tr track), None).
Proof.
  intros Hk. destruct (addTrack_event tr track) as [(_ & Htr & _)|(_ & -> & x & Hx & Hm)].
  - unfold addTrack at 1. rewrite Htr.
    destruct (List.find _ (receiver_tracks tr ++ [track])) eqn:E; [done|].
    exfalso. eapply find_none_forall in E; [|apply in_or_app; right; by left].
    rewrite matches_self in E; done.
  - unfold addTrack. destruct (List.find _ _) eqn:E; [done|].
    eapply find_none_forall in E; [|exact Hx]. congruence.
Qed.

(** C28: A track without rid or ssrc is never recognised: each
    [addTrack] of it pushes it again and fires [onTrack] again. *)
Theorem addTrack_unkeyed_duplicates (tr : t) (track : RtpTrack) :
  rid track = None -> ssrc track = None ->
  (forall x, In x (receiver_tracks tr) -> keyed x = false) ->
  snd (addTrack (fst (addTrack tr track)) track) = Some track.
Proof.
  intros Hr Hs Hk. unfold addTrack at 2.
  assert (Hf : forall l, (forall x, In x l -> keyed x = false) ->
            List.find (fun x => matches x track) l = None).
  { intros l Hl. apply find_none_forall. intros x Hx. specialize (Hl x Hx).
    unfold keyed in Hl. apply orb_false_iff in Hl as [H1 H2].
    unfold matches. by rewrite H1, H2. }
  rewrite Hf by done. simpl. unfold addTrack. rewrite Hf.
  - done.
  - intros x [Hx|[<-|[]]]%in_app_or; [by apply Hk|]. unfold keyed. by rewrite Hr, Hs.
Qed.

(** C27: [sendRtp] hands the packet to the sender exactly when the
    transceiver is not inactive and has sender parameters, with those
    parameters. *)
Theorem sendRtp_spec (tr : t) (rtp : RtpPacket) p :
  sendRtp tr rtp = Some (rtp, p) <->
  direction tr <> Inactive /\ senderParams tr = Some p.
Proof.
  unfold sendRtp. destruct (direction tr), (senderParams tr); naive_solver.
Qed.

(** ** Witnesses *)

Definition example_transceiver : t := mk "0" Video Recvonly None None [] [].
Definition example_track : RtpTrack := mkRtpTrack "t1" Video (Some "high") (Some 42%Z).
Definition example_unkeyed : RtpTrack := mkRtpTrack "t2" Audio None None.

Lemma addTrack_idempotent_witness :
  keyed example_track = true /\
  addTrack (fst (addTrack example_transceiver example_track)) example_track =
  (fst (addTrack example_transceiver example_track), None).
Proof. split; [reflexivity|]. apply addTrack_idempotent. reflexivity. Defined.

Lemma addTrack_preserves_distinct_witness :
  tracks_distinct (receiver_tracks example_transceiver) /\
  tracks_distinct (receiver_tracks (fst (addTrack example_transceiver example_track))).
Proof. split; [exact I|]. apply addTrack_preserves_distinct. exact I. Defined.

Lemma addTrack_unkeyed_duplicates_witness :
  snd (addTrack (fst (addTrack example_transceiver example_unkeyed)) example_unkeyed)
  = Some example_unkeyed.
Proof.
  apply addTrack_unkeyed_duplicates; [reflexivity|reflexivity|].
  intros x []. Defined.

End RTCRtpTransceiver.
