(* ===== verification/Router.v ===== *)
(** * Router: the track registry of a room

    [src/room/room.ts] imports [Router] from [./router], a file that is
    not among the staged sources; what the room uses of it is
    [addTrack(peerId, track, transceiver)], [getTrack(peerId, id)] and
    [trackInfos].  This file states that use as an interface, the class
    [TrackRegistry] with its laws [TrackRegistryLaws], and implements it
    from the spec (section 4.3) with a finite map keyed by
    (publisher id, track id).  The room is proved against the laws
    only.  A track info carries the id ["<peerId>_<trackId>"] that the
    room's [subscribe] splits again on ["_"]. *)

From S2P Require Import Prelude Domain Transceiver.

(** A registered track: its publisher, the track, and the position of
    the publisher's transceiver that received it. *)
Record Route := mkRoute {
  route_peerId : string;
  route_track : RtpTrack;
  route_transceiver : nat;
}.

#[export] Instance Route_eq_dec : EqDecision Route.
Proof. solve_decision. Defined.

#[export] Instance Route_countable : Countable Route.
Proof.
  by apply (inj_countable' (fun rt => (route_peerId rt, route_track rt, route_transceiver rt))
              (fun '(p, t, n) => mkRoute p t n)); intros [].
Defined.

(** The entries of [trackInfos] sent to clients. *)
Record TrackInfo := mkTrackInfo { ti_id : string; ti_kind : Kind }.

#[export] Instance TrackInfo_eq_dec : EqDecision TrackInfo.
Proof. solve_decision. Defined.

Definition underscore : ascii := "_"%char.

Definition trackInfo_of_route (rt : Route) : TrackInfo :=
  mkTrackInfo (String.append (route_peerId rt)
                 (String underscore (track_id (route_track rt))))
              (track_kind (route_track rt)).

Definition trackInfo_to_json (ti : TrackInfo) : jval :=
  JObj [("id", JStr (ti_id ti)); ("kind", JStr (kind_str (ti_kind ti)))].

(** ** The interface the room relies on *)
Class TrackRegistry (R : Type) := {
  reg_empty : R;
  reg_addTrack : string -> RtpTrack -> nat -> R -> R;
  reg_getTrack : option string -> option string -> R -> option Route;
  reg_trackInfos : R -> list TrackInfo;
}.

Class TrackRegistryLaws (R : Type) `{!TrackRegistry R} := {
  reg_wf : R -> Prop;
  reg_wf_empty : reg_wf reg_empty;
  reg_wf_addTrack p t n r : reg_wf r -> reg_wf (reg_addTrack p t n r);
  reg_getTrack_empty q i : reg_getTrack q i reg_empty = None;
  reg_getTrack_addTrack p t n r q i :
    reg_getTrack q i (reg_addTrack p t n r) =
    if decide (q = Some p /\ i = Some (track_id t)) then Some (mkRoute p t n)
    else reg_getTrack q i r;
  reg_getTrack_key r q i rt :
    reg_wf r -> reg_getTrack q i r = Some rt ->
    q = Some (route_peerId rt) /\ i = Some (track_id (route_track rt));
  reg_trackInfos_spec r info :
    reg_wf r ->
    info ∈ reg_trackInfos r <->
    exists rt, reg_getTrack (Some (route_peerId rt)) (Some (track_id (route_track rt))) r
               = Some rt /\ info = trackInfo_of_route rt;
}.

(** ** What the laws give a client of the registry *)
Section RegistryFacts.
Context `{TrackRegistryLaws R}.

(** Registry consistency: right after [addTrack], [trackInfos] lists
    the new track and [getTrack] finds it, and every track listed
    before is still listed unless the new one replaced it (same
    publisher and track id). *)
Lemma reg_addTrack_visible p tr n (r : R) :
  reg_wf r ->
  reg_getTrack (Some p) (Some (track_id tr)) (reg_addTrack p tr n r) = Some (mkRoute p tr n) /\
  trackInfo_of_route (mkRoute p tr n) ∈ reg_trackInfos (reg_addTrack p tr n r) /\
  (forall info, info ∈ reg_trackInfos r ->
     info ∈ reg_trackInfos (reg_addTrack p tr n r) \/
     exists rt, info = trackInfo_of_route rt /\ route_peerId rt = p /\
                track_id (route_track rt) = track_id tr).
Proof.
  intros Hwf. assert (Hwf' := reg_wf_addTrack p tr n r Hwf).
  assert (Hg : reg_getTrack (Some p) (Some (track_id tr)) (reg_addTrack p tr n r)
               = Some (mkRoute p tr n)).
  { rewrite reg_getTrack_addTrack. by rewrite decide_True. }
  split_and!; [done | apply reg_trackInfos_spec; [done | by exists (mkRoute p tr n)] |].
  intros info Hin. apply reg_trackInfos_spec in Hin as [rt [Hl ->]]; [|done].
  destruct (decide (route_peerId rt = p /\ track_id (route_track rt) = track_id tr))
    as [Hk|Hk]; [right; naive_solver|left].
  apply reg_trackInfos_spec; [done|]. exists rt. split; [|done].
  rewrite reg_getTrack_addTrack, decide_False; [done|]. naive_solver.
Qed.

End RegistryFacts.

(** ** The registry modelled from the spec *)
Module Router.

Record t := mk { tracks : gmap (string * string) Route }.

Definition empty : t := mk ∅.

(** [addTrack(peerId, track, transceiver)]: register the publisher's
    ownership of the track (a later registration of the same key
    replaces the earlier one). *)
Definition addTrack (peerId : string) (track : RtpTrack) (transceiver : nat) (r : t) : t :=
  mk (<[(peerId, track_id track) := mkRoute peerId track transceiver]> (tracks r)).

(** [getTrack(peerId, id)]: [undefined] when absent, or when an
    argument is [undefined]. *)
Definition getTrack (peerId id : option string) (r : t) : option Route :=
  match peerId, id with
  | Some p, Some i => tracks r !! (p, i)
  | _, _ => None
  end.

(** [trackInfos]: a snapshot of every registered track. *)
Definition trackInfos (r : t) : list TrackInfo :=
  (fun kv => trackInfo_of_route kv.2) <$> map_to_list (tracks r).

Definition wf (r : t) : Prop :=
  map_Forall (fun k rt => k = (route_peerId rt, track_id (route_track rt))) (tracks r).

#[export] Instance registry : TrackRegistry t := {|
  reg_empty := empty;
  reg_addTrack := addTrack;
  reg_getTrack := getTrack;
  reg_trackInfos := trackInfos;
|}.

Lemma wf_addTrack p tr n r : wf r -> wf (addTrack p tr n r).
Proof. unfold wf, addTrack. simpl. intros H. by apply map_Forall_insert_2. Qed.

Lemma getTrack_addTrack p tr n r q i :
  getTrack q i (addTrack p tr n r) =
  if decide (q = Some p /\ i = Some (track_id tr)) then Some (mkRoute p tr n)
  else getTrack q i r.
Proof.
  unfold getTrack, addTrack. simpl.
  destruct q as [q|], i as [i|]; case_decide as Hd; try naive_solver.
  - destruct Hd as [[= ->] [= ->]]. by rewrite lookup_insert_eq.
  - rewrite lookup_insert_ne; [done|]. intros [= <- <-]. naive_solver.
Qed.

Lemma getTrack_key r q i rt :
  wf r -> getTrack q i r = Some rt ->
  q = Some (route_peerId rt) /\ i = Some (track_id (route_track rt)).
Proof.
  unfold wf, getTrack. intros Hwf. destruct q as [q|], i as [i|]; try done.
  intros Hl. specialize (Hwf _ _ Hl). simpl in Hwf. by simplify_eq.
Qed.

Lemma trackInfos_spec r info :
  wf r ->
  info ∈ trackInfos r <->
  exists rt, getTrack (Some (route_peerId rt)) (Some (track_id (route_track rt))) r = Some rt
             /\ info = trackInfo_of_route rt.
Proof.
  unfold wf, trackInfos, getTrack. intros Hwf. rewrite list_elem_of_fmap. split.
  - intros [[k rt] [-> Hk]]. apply elem_of_map_to_list in Hk.
    pose proof (Hwf _ _ Hk) as Hkey. simpl in *. subst. eauto.
  - intros [rt [Hl ->]]. exists (route_peerId rt, track_id (route_track rt), rt).
    split; [done|]. by apply elem_of_map_to_list.
Qed.

#[export] Instance registry_laws : TrackRegistryLaws t := {|
  reg_wf := wf;
  reg_wf_empty := map_Forall_empty _;
  reg_wf_addTrack := wf_addTrack;
  reg_getTrack_empty q i := ltac:(destruct q, i; reflexivity);
  reg_getTrack_addTrack := getTrack_addTrack;
  reg_getTrack_key := getTrack_key;
  reg_trackInfos_spec := trackInfos_spec;
|}.

End Router.

#[export] Existing Instances Router.registry Router.registry_laws.
