(* ===== verification/PeerConnection.v ===== *)
(** * PeerConnection: the Media Transport Adapter (werift [RTCPeerConnection])

    The room holds one [RTCPeerConnection] per peer.  Its source is the
    werift library, outside the staged sources, so this file models the
    part the room uses, following the spec (section 6): the transceiver
    list ([addTransceiver]), the local and remote descriptions
    ([createOffer], [setLocalDescription], [setRemoteDescription]), the
    ICE candidates added ([addIceCandidate]) and the messages sent on the
    data channel ["sfu"] ([sctpTransport.channelByLabel("sfu").send]).

    A transceiver is identified by its position in [transceivers]: the
    list only grows, so a position never changes.  The offer lists one
    media line per transceiver, after the data channel's line. *)

From S2P Require Import Prelude Domain Rpc Transceiver.

Module PC.

Record t := mk {
  transceivers : list RTCRtpTransceiver.t;
  localDescription : option SessionDescription;
  remoteDescription : option SessionDescription;
  candidates : list IceCandidate;
  sent : list RPC;
}.

(** [new RTCPeerConnection(...)] followed by [createDataChannel("sfu")]. *)
Definition create : t := mk [] None None [] [].

(** [addTransceiver(kind, direction)]: a fresh transceiver with no
    subscribers, no tracks and no sender parameters yet; returns its
    position. *)
Definition addTransceiver (k : Kind) (d : Direction) (pc : t) : t * nat :=
  let n := length (transceivers pc) in
  (mk (transceivers pc ++
         [RTCRtpTransceiver.mk (pretty n) k d None None [] []])
      (localDescription pc) (remoteDescription pc) (candidates pc) (sent pc), n).

Definition media_line (tr : RTCRtpTransceiver.t) : string :=
  String.append "m=" (String.append (kind_str (RTCRtpTransceiver.kind tr))
    (String.append " " (direction_str (RTCRtpTransceiver.direction tr)))).

(** [createOffer()]: the data channel line, then one line per transceiver. *)
Definition createOffer (pc : t) : SessionDescription :=
  mkSdp Offer (String.concat ";" ("m=application" :: (media_line <$> transceivers pc))).

Definition setLocalDescription (d : SessionDescription) (pc : t) : t :=
  mk (transceivers pc) (Some d) (remoteDescription pc) (candidates pc) (sent pc).

Definition setRemoteDescription (d : SessionDescription) (pc : t) : t :=
  mk (transceivers pc) (localDescription pc) (Some d) (candidates pc) (sent pc).

Definition addIceCandidate (c : IceCandidate) (pc : t) : t :=
  mk (transceivers pc) (localDescription pc) (remoteDescription pc) (candidates pc ++ [c]) (sent pc).

(** [channelByLabel("sfu").send(JSON.stringify(msg))]. *)
Definition send (msg : RPC) (pc : t) : t :=
  mk (transceivers pc) (localDescription pc) (remoteDescription pc) (candidates pc) (sent pc ++ [msg]).

(** Replace the transceiver at position [i] (a subscriber added, a
    track received). *)
Definition setTransceiver (i : nat) (tr : RTCRtpTransceiver.t) (pc : t) : t :=
  mk (<[i := tr]> (transceivers pc)) (localDescription pc) (remoteDescription pc)
     (candidates pc) (sent pc).

Lemma addTransceiver_lookup k d pc :
  transceivers (addTransceiver k d pc).1 !! (addTransceiver k d pc).2 =
  Some (RTCRtpTransceiver.mk (pretty (length (transceivers pc))) k d None None [] []).
Proof. simpl. rewrite lookup_app_r by lia. by rewrite Nat.sub_diag. Qed.

Lemma addTransceiver_lookup_old k d pc i :
  i < length (transceivers pc) ->
  transceivers (addTransceiver k d pc).1 !! i = transceivers pc !! i.
Proof. intros H. simpl. by apply lookup_app_l. Qed.

End PC.
