(* ===== verification/Room.v ===== *)
(** * Room: the signalling server of [src/room/room.ts]

    State ([Room]): the router, the map [peers] from peer id to peer
    connection, the subscribers of each registered track's [onRtp]
    event (the track objects are shared between the router and the
    publisher's receiver, so their subscriptions are kept in one store
    keyed by the track), and [inflight]: the [sendOffer] calls suspended
    at their [await peer.setLocalDescription(...)], by peer, in call
    order.

    Every handler is a computation of [js Room] (Prelude): it threads the
    room, collects the names of the async functions whose promise was
    rejected, and ends either normally or with a synchronous
    [TypeError].  [dispatch] is the data-channel callback installed by
    [join]: [this[type](...payload)].

    Assumptions about werift (not staged): [createOffer] is synchronous
    (the code passes its result straight to [setLocalDescription]);
    [setLocalDescription] installs the description before its first
    [await]; [addTransceiver] throws on a kind other than ["audio"] or
    ["video"]; [setRemoteDescription] and [addIceCandidate] reject a
    value that is not a description or candidate. *)

From S2P Require Import Prelude Domain Rpc Transceiver Router PeerConnection.

Section Room.
Context {R : Type} `{!TrackRegistry R}.

Record Room := mkRoom {
  router : R;
  peers : gmap string PC.t;
  (** The subscribers of each registered track's [onRtp] event: the
      event belongs to the track object, which the route the router
      returned identifies. *)
  onRtp : gmap Route (list (string * nat));
  inflight : list string;
}.

Definition set_peers (ps : gmap string PC.t) (r : Room) : Room :=
  mkRoom (router r) ps (onRtp r) (inflight r).

Definition modify_pc (p : string) (f : PC.t -> PC.t) : js Room unit := fun r =>
  (set_peers (alter f p (peers r)) r, [], Some tt).

(** [const peer = this.peers[peerId]]: a peer connection only when the
    coerced key names one (any other value makes the next method call
    on [peer] throw). *)
Definition peer_ref (r : Room) (v : jval) : option string :=
  match peers r !! js_key v with Some _ => Some (js_key v) | None => None end.

Definition need_pc (peer : option string) : js Room (string * PC.t) :=
  r <- js_get_state;;
  p <- js_need peer;;
  pc <- js_need (peers r !! p);;
  js_ret (p, pc).

(** [peer.addTransceiver(kind, direction)]. *)
Definition addTransceiver (p : string) (k : Kind) (d : Direction) : js Room nat :=
  '(_, pc) <- need_pc (Some p);;
  let '(pc', n) := PC.addTransceiver k d pc in
  modify_pc p (fun _ => pc') >>> js_ret n.

(** [transceiver.onTrack.subscribe(...)]: the callback of
    [requestPublish], which closes over [peerId]. *)
Definition subscribe_onTrack (p : string) (who : string) (i : nat) : js Room unit :=
  '(_, pc) <- need_pc (Some p);;
  tr <- js_need (PC.transceivers pc !! i);;
  modify_pc p (PC.setTransceiver i
    (RTCRtpTransceiver.mk (RTCRtpTransceiver.uuid tr) (RTCRtpTransceiver.kind tr)
       (RTCRtpTransceiver.direction tr) (RTCRtpTransceiver.mid tr)
       (RTCRtpTransceiver.senderParams tr) (RTCRtpTransceiver.onTrack tr ++ [who])
       (RTCRtpTransceiver.receiver_tracks tr))).

(** [route.track.onRtp.subscribe((rtp) => transceiver.sendRtp(rtp))]:
    the subscription is on the track of [route]. *)
Definition subscribe_onRtp (key : Route) (target : string * nat) : js Room unit :=
  fun r => (mkRoom (router r) (peers r)
              (<[key := default [] (onRtp r !! key) ++ [target]]> (onRtp r)) (inflight r),
            [], Some tt).

(** [sendRPC(msg, peer)]. *)
Definition sendRPC (msg : RPC) (peer : option string) : js Room unit :=
  '(p, _) <- need_pc peer;;
  modify_pc p (PC.send msg).

(** [sendOffer(peer)] up to its [await]: create the offer, install it,
    and suspend; [completeOffer] is the rest of the function. *)
Definition sendOffer (peer : option string) : js Room unit :=
  '(p, pc) <- need_pc peer;;
  modify_pc p (PC.setLocalDescription (PC.createOffer pc)) >>>
  (fun r => (mkRoom (router r) (peers r) (onRtp r) (inflight r ++ [p]), [], Some tt)).

Definition sdp_or_null (d : option SessionDescription) : jval :=
  match d with Some d => sdp_to_json d | None => JNull end.

(** After the [await]: [sendRPC({type: "handleOffer", payload:
    [peer.localDescription]}, peer)], reading the description the peer
    has at that moment. *)
Definition completeOffer (p : string) : js Room unit :=
  '(_, pc) <- need_pc (Some p);;
  sendRPC (mkRPC "handleOffer" [sdp_or_null (PC.localDescription pc)]) (Some p).

(** [join()]: a fresh peer connection under the id [fresh] ([v4()]),
    its data channel, and the initial offer. *)
Definition join (fresh : string) : js Room (string * SessionDescription) :=
  let pc := PC.create in
  let d := PC.createOffer pc in
  r <- js_get_state;;
  js_put (set_peers (<[fresh := PC.setLocalDescription d pc]> (peers r)) r) >>>
  js_ret (fresh, d).

(** [async handleAnswer(peerId, answer)]. *)
Definition handleAnswer (peerId answer : jval) : js Room unit :=
  js_async "handleAnswer" (
    r <- js_get_state;;
    '(p, _) <- need_pc (peer_ref r peerId);;
    d <- js_need (sdp_of_json answer);;
    modify_pc p (PC.setRemoteDescription d)).

(** [handleCandidate(peerId, candidate)]: [addIceCandidate] is not awaited. *)
Definition handleCandidate (peerId candidate : jval) : js Room unit :=
  r <- js_get_state;;
  '(p, _) <- need_pc (peer_ref r peerId);;
  js_async "addIceCandidate" (
    c <- js_need (candidate_of_json candidate);;
    modify_pc p (PC.addIceCandidate c)).

(** [requestPublish(peerId, kinds)]: one [recvonly] transceiver per kind,
    then the [onTrack] subscriptions, then [sendOffer] (not awaited). *)
Definition requestPublish (peerId kinds : jval) : js Room unit :=
  r <- js_get_state;;
  let peer := peer_ref r peerId in
  ks <- js_need (array_of_json kinds);;
  ts <- js_map (fun kind =>
          '(p, _) <- need_pc peer;;
          k <- js_need (str_of_json kind ≫= kind_of_str);;
          addTransceiver p k Recvonly) ks;;
  js_forEach (fun i => '(p, _) <- need_pc peer;; subscribe_onTrack p (js_key peerId) i) ts >>>
  js_async "sendOffer" (sendOffer peer).

(** [getTracks(peerId)]. *)
Definition getTracks (peerId : jval) : js Room unit :=
  r <- js_get_state;;
  sendRPC (mkRPC "handleTracks" [JArr (trackInfo_to_json <$> reg_trackInfos (router r))])
          (peer_ref r peerId).

(** The first [map] of [subscribe]: [const [peerId, id] =
    trackId.split("_"); return this.router.getTrack(peerId, id)]. *)
Definition lookup_trackId (r : Room) (trackId : jval) : js Room (option Route) :=
  s <- js_need (str_of_json trackId);;
  let parts := js_split underscore s in
  js_ret (reg_getTrack (parts !! 0) (parts !! 1) (router r)).

(** The second [map]: an [async] callback per route. *)
Definition subscribe_route (peer : option string) (route : option Route) : js Room unit :=
  js_async "subscribe" (
    '(p, _) <- need_pc peer;;
    rt <- js_need route;;
    i <- addTransceiver p (track_kind (route_track rt)) Sendonly;;
    subscribe_onRtp rt (p, i)).

(** [subscribe(peerId, trackIds)]. *)
Definition subscribe (peerId trackIds : jval) : js Room unit :=
  r <- js_get_state;;
  let peer := peer_ref r peerId in
  ids <- js_need (array_of_json trackIds);;
  routes <- js_map (lookup_trackId r) ids;;
  js_forEach (subscribe_route peer) routes >>>
  js_async "sendOffer" (sendOffer peer).

(** [new Room()]: a fresh router, no peers. *)
Definition new_room : Room := mkRoom reg_empty ∅ ∅ [].

(** ** The callbacks, when their events fire *)

(** [this.router.addTrack(peerId, track, transceiver)]: the [onTrack]
    callback of [requestPublish]. *)
Definition router_addTrack (who : string) (track : RtpTrack) (i : nat) : js Room unit :=
  fun r => (mkRoom (reg_addTrack who track i (router r)) (peers r) (onRtp r) (inflight r),
            [], Some tt).

(** werift hands a received track to transceiver [i] of peer [p]:
    [transceiver.addTrack(track)], and when it is new its [onTrack]
    subscribers run. *)
Definition receiveTrack (p : string) (i : nat) (track : RtpTrack) : js Room unit :=
  '(_, pc) <- need_pc (Some p);;
  tr <- js_need (PC.transceivers pc !! i);;
  let '(tr', ev) := RTCRtpTransceiver.addTrack tr track in
  modify_pc p (PC.setTransceiver i tr') >>>
  match ev with
  | Some t => js_forEach (fun who => router_addTrack who t i) (RTCRtpTransceiver.onTrack tr')
  | None => js_ret tt
  end.

(** The transport's part of a completed negotiation, which room.ts
    relies on but does not perform: werift gives the transceiver [n] of
    [p] the parameters [prm] of its sender (not staged; an explicit
    event here). *)
Definition set_sender_params (p : string) (n : nat) (prm : RTCRtpParameters) (r : Room) : Room :=
  set_peers (alter (fun pc =>
    match PC.transceivers pc !! n with
    | Some tr => PC.setTransceiver n
        (RTCRtpTransceiver.mk (RTCRtpTransceiver.uuid tr) (RTCRtpTransceiver.kind tr)
           (RTCRtpTransceiver.direction tr) (RTCRtpTransceiver.mid tr) (Some prm)
           (RTCRtpTransceiver.onTrack tr) (RTCRtpTransceiver.receiver_tracks tr)) pc
    | None => pc
    end) p (peers r)) r.

(** An RTP packet of the track registered as [key]: every [onRtp]
    subscriber runs [transceiver.sendRtp(rtp)]; the result lists what
    reached a sender, by subscriber. *)
Definition forwardRtp (key : Route) (rtp : RtpPacket) (r : Room)
    : list (string * nat * (RtpPacket * RTCRtpParameters)) :=
  omap (fun '(q, j) =>
          pc ← peers r !! q;
          tr ← PC.transceivers pc !! j;
          (fun out => (q, j, out)) <$> RTCRtpTransceiver.sendRtp tr rtp)
       (default [] (onRtp r !! key)).

(** The suspended [sendOffer] number [i] resumes: it leaves [inflight]. *)
Definition drop_inflight (i : nat) (r : Room) : Room :=
  mkRoom (router r) (peers r) (onRtp r) (delete i (inflight r)).

(** ** Dispatch: [this[type](...payload)] *)

(** What [this[type]] is on a [Room]: its own fields, the arrow
    functions stored as fields, the prototype's methods, the methods
    inherited from [Object.prototype], or nothing. *)
Inductive Member :=
| MRouter | MPeers | MRequestPublish | MGetTracks | MSubscribe
| MJoin | MHandleAnswer | MHandleCandidate | MSendOffer | MSendRPC | MConstructor
| MObjectReader   (* toString, valueOf, hasOwnProperty, ...: no effect *)
| MObjectDefiner  (* __defineGetter__, __defineSetter__: need a function *)
| MProto          (* __proto__: an object, not callable *)
| MUndefined.

Definition members : list (string * Member) := [
  ("router", MRouter); ("peers", MPeers); ("requestPublish", MRequestPublish);
  ("getTracks", MGetTracks); ("subscribe", MSubscribe); ("join", MJoin);
  ("handleAnswer", MHandleAnswer); ("handleCandidate", MHandleCandidate);
  ("sendOffer", MSendOffer); ("sendRPC", MSendRPC); ("constructor", MConstructor);
  ("toString", MObjectReader); ("toLocaleString", MObjectReader);
  ("valueOf", MObjectReader); ("hasOwnProperty", MObjectReader);
  ("isPrototypeOf", MObjectReader); ("propertyIsEnumerable", MObjectReader);
  ("__lookupGetter__", MObjectReader); ("__lookupSetter__", MObjectReader);
  ("__defineGetter__", MObjectDefiner); ("__defineSetter__", MObjectDefiner);
  ("__proto__", MProto)].

Definition member (type : string) : Member :=
  match List.find (fun e => String.eqb e.1 type) members with
  | Some (_, m) => m
  | None => MUndefined
  end.

(** The callback of [peer.createDataChannel("sfu").message.subscribe].
    [fresh] is the id [v4()] would return if the call is [join]. *)
Definition dispatch (fresh : string) (msg : RPC) : js Room unit :=
  let a := payload msg in
  match member (rpc_type msg) with
  | MJoin => js_async "join" (join fresh >>> js_ret tt)
  | MHandleAnswer => handleAnswer (a @@ 0) (a @@ 1)
  | MHandleCandidate => handleCandidate (a @@ 0) (a @@ 1)
  | MRequestPublish => requestPublish (a @@ 0) (a @@ 1)
  | MGetTracks => getTracks (a @@ 0)
  | MSubscribe => subscribe (a @@ 0) (a @@ 1)
  (* the argument is parsed JSON, never a peer connection *)
  | MSendOffer => js_async "sendOffer" (sendOffer None)
  | MObjectReader => js_ret tt
  | MSendRPC | MRouter | MPeers | MConstructor | MObjectDefiner | MProto | MUndefined =>
      js_throw
  end.

End Room.

Arguments Room R : clear implicits.

(** ** Dispatch: which messages the server understands *)

(** What [forwardRtp] delivers: one entry per [onRtp] subscriber whose
    transceiver exists and whose [sendRtp] hands the packet on. *)
Section Forwarding.
Context {R : Type} `{!TrackRegistry R}.

Lemma forwardRtp_elem key rtp (r : Room R) q j out :
  (q, j, out) ∈ forwardRtp key rtp r <->
  (q, j) ∈ default [] (onRtp r !! key) /\
  exists pc tr, peers r !! q = Some pc /\ PC.transceivers pc !! j = Some tr /\
                RTCRtpTransceiver.sendRtp tr rtp = Some out.
Proof.
  unfold forwardRtp. rewrite list_elem_of_omap. split.
  - intros [[q' j'] [Hin Hf]].
    destruct (peers r !! q') as [pc|] eqn:Hq; [|done]. simpl in Hf.
    destruct (PC.transceivers pc !! j') as [tr|] eqn:Ht; [|done]. simpl in Hf.
    destruct (RTCRtpTransceiver.sendRtp tr rtp) as [o|] eqn:Hs; [|done].
    simpl in Hf. injection Hf as <- <- <-. split; [done|]. by exists pc, tr.
  - intros [Hin (pc & tr & Hq & Ht & Hs)]. exists (q, j). split; [done|].
    by rewrite Hq; simpl; rewrite Ht; simpl; rewrite Hs.
Qed.

End Forwarding.

Section DispatchProps.
Context {R : Type} `{!TrackRegistry R}.

Lemma member_undefined (type : string) :
  type ∉ members.*1 -> member type = MUndefined.
Proof.
  intros Hnot. unfold member.
  destruct (List.find _ members) as [[t m]|] eqn:E; [|done].
  apply List.find_some in E as [Hin Heq]. apply String.eqb_eq in Heq. simpl in Heq; subst.
  destruct Hnot. apply list_elem_of_fmap. exists (type, m). split; [done|].
  by apply list_elem_of_In.
Qed.

(** A message whose [type] is no member of [Room] throws a
    [TypeError] ([this[type] is not a function]) and changes nothing. *)
Lemma dispatch_unknown_type (fresh : string) (msg : RPC) (r : Room R) :
  rpc_type msg ∉ members.*1 -> dispatch fresh msg r = (r, [], None).
Proof. intros H. unfold dispatch. by rewrite member_undefined. Qed.

(** C2: the server does not implement the protocol of rpc.ts: every
    message kind other than [handleAnswer], [handleCandidate] and
    [subscribe] (publish, unPublish, getMedias, leave, changeQuality,
    listenMixedAudio, ...) throws at [this[type](...)] and is ignored. *)
Theorem dispatch_rpc_unimplemented (fresh : string) (m : Msg) (r : Room R) :
  msg_type m ∉ ["handleAnswer"; "handleCandidate"; "subscribe"] ->
  dispatch fresh (to_rpc m) r = (r, [], None).
Proof.
  intros H. apply dispatch_unknown_type.
  destruct m; simpl in *; try (exfalso; apply H; by repeat constructor);
    apply (bool_decide_unpack _); reflexivity.
Qed.

(** C16: the client's [subscribe] message (rpc.ts: a list of
    [{info, type}] requests) makes the server throw at
    [trackId.split("_")], before any change, whenever it asks for at
    least one track. *)
Theorem dispatch_rpc_subscribe_throws (fresh p : string) (q : RequestSubscribe)
    (qs : list RequestSubscribe) (r : Room R) :
  dispatch fresh (to_rpc (Subscribe p (q :: qs))) r = (r, [], None).
Proof. reflexivity. Qed.

End DispatchProps.

(** [new Room()] with the registry of [Router]. *)
Definition empty_room : Room Router.t := new_room.

(** ** Witnesses *)

Lemma dispatch_rpc_unimplemented_witness :
  (msg_type (Leave "p1") ∉ ["handleAnswer"; "handleCandidate"; "subscribe"]) /\
  dispatch "p9" (to_rpc (Leave "p1")) empty_room = (empty_room, [], None).
Proof.
  split; [apply (bool_decide_unpack _); reflexivity|].
  apply dispatch_rpc_unimplemented. apply (bool_decide_unpack _); reflexivity.
Defined.
