(* ===== verification/RoomSteps.v ===== *)
(** * RoomSteps: the room's event loop, its invariant, and negotiation races

    The server reacts to five kinds of events, each a constructor of
    [step]: an HTTP [join] (a fresh peer id), a message on some peer's
    data channel ([dispatch]), the resumption of a [sendOffer]
    suspended at its [await] ([completeOffer]; any suspended call may
    resume first), werift delivering a track to a transceiver
    ([receiveTrack]), and werift giving a negotiated transceiver its
    sender parameters ([set_sender_params]).  [reachable] is the
    reflexive-transitive closure from [new Room()].

    The invariant [room_inv] says that every registered route names a
    [recvonly] transceiver of its publisher, every [onRtp] subscriber a
    [sendonly] transceiver of an existing peer, every suspended
    [sendOffer] an existing peer; that the [onTrack] subscribers of a
    transceiver are its owner and only [recvonly] transceivers have
    any; and that every peer has its local description and has only
    been sent [handleOffer] (with that description) and [handleTracks]
    messages.  Transceivers are only ever added or replaced by one of
    the same direction ([pc_grows]); the facts that survive such growth
    are [peer_stable].  It is proved with a small
    Hoare logic for the [js] monad ([triple]), whose rules follow the
    monad's combinators, so that every handler's proof is the
    composition of the rules for its parts. *)

From S2P Require Import Prelude Domain Rpc Transceiver Router PeerConnection Room.

Section Invariant.
Context {R : Type} `{!TrackRegistry R} `{!TrackRegistryLaws R}.
Implicit Types r : Room R.

(** Transceiver [i] of [pc] exists and has direction [d]. *)
Definition tr_dir (pc : PC.t) (i : nat) (d : Direction) : Prop :=
  exists tr, PC.transceivers pc !! i = Some tr /\ RTCRtpTransceiver.direction tr = d.

Definition has_transceiver r (p : string) (i : nat) (d : Direction) : Prop :=
  exists pc, peers r !! p = Some pc /\ tr_dir pc i d.

(** The [onTrack] subscribers of a transceiver are its owner, and only
    a receiving ([recvonly]) transceiver has any. *)
Definition pc_listeners_ok (p : string) (pc : PC.t) : Prop :=
  forall i tr who, PC.transceivers pc !! i = Some tr ->
    who ∈ RTCRtpTransceiver.onTrack tr ->
    who = p /\ RTCRtpTransceiver.direction tr = Recvonly.

(** What the server ever writes on a data channel: [handleOffer] with
    a session description (never [null]) and [handleTracks] with a list
    of track infos. *)
Definition server_msg (m : RPC) : Prop :=
  (exists d, m = mkRPC "handleOffer" [sdp_to_json d]) \/
  (exists infos, m = mkRPC "handleTracks" [JArr (trackInfo_to_json <$> infos)]).

(** A peer connection that has its local description, and whose sent
    messages are all of that shape. *)
Definition pc_msgs_ok (pc : PC.t) : Prop :=
  is_Some (PC.localDescription pc) /\ Forall server_msg (PC.sent pc).

Record room_inv r : Prop := {
  inv_wf : reg_wf (router r);
  inv_routes : forall q i rt, reg_getTrack q i (router r) = Some rt ->
    has_transceiver r (route_peerId rt) (route_transceiver rt) Recvonly;
  inv_inflight : forall p, p ∈ inflight r -> is_Some (peers r !! p);
  inv_onRtp : forall key ts q j, onRtp r !! key = Some ts -> (q, j) ∈ ts ->
    has_transceiver r q j Sendonly;
  inv_listeners : forall p pc, peers r !! p = Some pc -> pc_listeners_ok p pc;
  inv_msgs : forall p pc, peers r !! p = Some pc -> pc_msgs_ok pc;
}.

Lemma pc_msgs_ok_keep pc pc' :
  PC.localDescription pc' = PC.localDescription pc -> PC.sent pc' = PC.sent pc ->
  pc_msgs_ok pc -> pc_msgs_ok pc'.
Proof. unfold pc_msgs_ok. by intros -> ->. Qed.

Lemma pc_msgs_ok_send pc msg : server_msg msg -> pc_msgs_ok pc -> pc_msgs_ok (PC.send msg pc).
Proof. intros Hm [Hl Hs]. split; [done|]. simpl. apply Forall_app. by split; [|apply Forall_singleton]. Qed.

Lemma pc_msgs_ok_setLocalDescription pc d : pc_msgs_ok pc -> pc_msgs_ok (PC.setLocalDescription d pc).
Proof. intros [_ Hs]. split; [by eexists|done]. Qed.

Lemma pc_msgs_ok_addTransceiver pc k d : pc_msgs_ok pc -> pc_msgs_ok (PC.addTransceiver k d pc).1.
Proof. by apply pc_msgs_ok_keep. Qed.

(** ** Growth of the peers map *)

(** A connection grows when every transceiver it has is still there
    with the same direction. *)
Definition pc_grows (pc pc' : PC.t) : Prop :=
  forall i d, tr_dir pc i d -> tr_dir pc' i d.

Definition peers_grow r r' : Prop :=
  forall p pc, peers r !! p = Some pc ->
    exists pc', peers r' !! p = Some pc' /\ pc_grows pc pc'.

(** The facts about the peers that later steps keep. *)
Definition peer_stable (Q : Room R -> Prop) : Prop :=
  forall r r', peers_grow r r' -> Q r -> Q r'.

Lemma pc_grows_same pc pc' :
  PC.transceivers pc' = PC.transceivers pc -> pc_grows pc pc'.
Proof. unfold pc_grows, tr_dir. by intros ->. Qed.

Lemma pc_grows_addTransceiver pc k d : pc_grows pc (PC.addTransceiver k d pc).1.
Proof.
  intros i d' [tr [Hi Hd]]. exists tr. split; [|done].
  rewrite PC.addTransceiver_lookup_old; [done|]. by eapply lookup_lt_Some.
Qed.

Lemma tr_dir_addTransceiver pc k d :
  tr_dir (PC.addTransceiver k d pc).1 (PC.addTransceiver k d pc).2 d.
Proof. eexists. split; [apply PC.addTransceiver_lookup | done]. Qed.

Lemma pc_grows_setTransceiver pc i tr tr' :
  PC.transceivers pc !! i = Some tr ->
  RTCRtpTransceiver.direction tr' = RTCRtpTransceiver.direction tr ->
  pc_grows pc (PC.setTransceiver i tr' pc).
Proof.
  intros Hi Hd j d [trj [Hj Hdj]]. unfold tr_dir. simpl. destruct (decide (i = j)) as [<-|Hne].
  - simplify_eq. exists tr'. split; [|done]. apply list_lookup_insert_eq. by eapply lookup_lt_Some.
  - exists trj. by rewrite list_lookup_insert_ne.
Qed.

Lemma peers_grow_refl r r' : peers r' = peers r -> peers_grow r r'.
Proof. intros Hp p pc Hpc. exists pc. rewrite Hp. by split; [|intros ? ?]. Qed.

Lemma has_transceiver_stable q j d : peer_stable (fun r => has_transceiver r q j d).
Proof.
  intros r r' Hg [pc [Hp Hi]]. destruct (Hg _ _ Hp) as [pc' [Hp' Hle]].
  exists pc'. split; [done | by apply Hle].
Qed.

Lemma has_transceiver_grow r r' p i d :
  peers_grow r r' -> has_transceiver r p i d -> has_transceiver r' p i d.
Proof. apply has_transceiver_stable. Qed.

Lemma peers_grow_insert r p pc pc' :
  peers r !! p = Some pc -> pc_grows pc pc' ->
  peers_grow r (set_peers (<[p := pc']> (peers r)) r).
Proof.
  intros Hp Hle q qc Hq. simpl. destruct (decide (p = q)) as [->|Hne].
  - rewrite lookup_insert_eq. simplify_eq. eauto.
  - rewrite lookup_insert_ne by done. exists qc. by split; [|intros ? ?].
Qed.

Lemma peer_stable_const (phi : Prop) : peer_stable (fun _ => phi).
Proof. by intros r r' _. Qed.

Lemma peer_stable_forall {X} (Q : X -> Room R -> Prop) :
  (forall x, peer_stable (Q x)) -> peer_stable (fun r => forall x, Q x r).
Proof. intros HQ r r' Hg H x. exact (HQ x r r' Hg (H x)). Qed.

Lemma peer_stable_impl (phi : Prop) (Q : Room R -> Prop) :
  peer_stable Q -> peer_stable (fun r => phi -> Q r).
Proof. intros HQ r r' Hg H Hphi. exact (HQ r r' Hg (H Hphi)). Qed.

Lemma peer_stable_Forall {X} (Q : X -> Room R -> Prop) l :
  (forall x, peer_stable (Q x)) -> peer_stable (fun r => Forall (fun x => Q x r) l).
Proof. intros HQ r r' Hg H. eapply Forall_impl; [exact H|]. intros x. by apply HQ. Qed.

Ltac solve_stable :=
  repeat first [ apply has_transceiver_stable | apply peer_stable_const
               | apply peer_stable_Forall; intros ? | apply peer_stable_forall; intros ?
               | apply peer_stable_impl ].

(** Replacing a peer's connection by a grown one with well-formed
    listeners and messages keeps the invariant. *)
Lemma inv_peers_grow r ps :
  room_inv r -> peers_grow r (set_peers ps r) ->
  map_Forall pc_listeners_ok ps -> map_Forall (fun _ => pc_msgs_ok) ps ->
  room_inv (set_peers ps r).
Proof.
  intros [Hwf Hroutes Hinfl Hrtp _ _] Hg Hlis Hmsgs. split; simpl; [done | | | | done | done].
  - intros q i rt Hrt. eapply has_transceiver_grow; [done|]. by eapply Hroutes.
  - intros q Hq. destruct (Hinfl q Hq) as [qc Hqc]. destruct (Hg _ _ Hqc) as [? [? _]]. eauto.
  - intros key ts q j Hts Hin. eapply has_transceiver_grow; [done|]. by eapply Hrtp.
Qed.

Lemma inv_set_pc r p pc pc' :
  room_inv r -> peers r !! p = Some pc -> pc_grows pc pc' ->
  pc_listeners_ok p pc' -> pc_msgs_ok pc' ->
  room_inv (set_peers (<[p := pc']> (peers r)) r).
Proof.
  intros Hinv Hp Hle Hok Hm. apply inv_peers_grow; [done | by eapply peers_grow_insert | |].
  - apply map_Forall_insert_2; [done | exact (inv_listeners r Hinv)].
  - apply map_Forall_insert_2; [done | exact (inv_msgs r Hinv)].
Qed.

Lemma modify_pc_run p f r :
  modify_pc p f r = (set_peers (alter f p (peers r)) r, [], Some tt).
Proof. reflexivity. Qed.

Lemma inv_modify_pc r p f :
  room_inv r ->
  (forall pc, peers r !! p = Some pc ->
     pc_grows pc (f pc) /\ pc_listeners_ok p (f pc) /\ pc_msgs_ok (f pc)) ->
  room_inv (modify_pc p f r).1.1.
Proof.
  intros Hinv Hf. rewrite modify_pc_run. simpl.
  destruct (peers r !! p) as [pc|] eqn:Hp.
  - rewrite (alter_Some_insert _ _ _ pc) by done. destruct (Hf pc eq_refl) as (? & ? & ?).
    by eapply inv_set_pc.
  - rewrite alter_id' by done. by destruct r.
Qed.

(** ** A Hoare logic for [js (Room R)] under the invariant *)

(** From a state satisfying the invariant and [P], [m] ends in a state
    satisfying the invariant (whether it returns or throws), and when it
    returns [x] the final state satisfies [Q x]. *)
Definition triple {A} (P : Room R -> Prop) (m : js (Room R) A) (Q : A -> Room R -> Prop) :=
  forall r, room_inv r -> P r ->
    room_inv (m r).1.1 /\ forall x, (m r).2 = Some x -> Q x (m r).1.1.

Definition pres {A} (m : js (Room R) A) : Prop := triple (fun _ => True) m (fun _ _ => True).

Lemma triple_ret {A} (x : A) P : triple P (js_ret x) (fun y r => P r /\ y = x).
Proof. intros r Hr HP. split; [done|]. by intros y [= <-]. Qed.

Lemma triple_get P : triple P js_get_state (fun s r => P r /\ s = r).
Proof. intros r Hr HP. split; [done|]. by intros y [= <-]. Qed.

Lemma triple_need {A} (o : option A) P : triple P (js_need o) (fun x r => P r /\ o = Some x).
Proof. intros r Hr HP. destruct o; simpl; split; try done; by intros y [= <-]. Qed.

Lemma triple_throw {A} P (Q : A -> Room R -> Prop) : triple P js_throw Q.
Proof. intros r Hr HP. split; [done|]. discriminate. Qed.

Lemma triple_weaken {A} P P' (m : js (Room R) A) Q Q' :
  triple P' m Q' -> (forall r, P r -> P' r) -> (forall x r, Q' x r -> Q x r) ->
  triple P m Q.
Proof.
  intros H HP HQ r Hr Hp. destruct (H r Hr (HP r Hp)) as [? HQ']. split; [done|].
  intros x Hx. by apply HQ, HQ'.
Qed.

(** Forget what is known before and after. *)
Lemma triple_any {A} P (m : js (Room R) A) Q :
  triple (fun _ => True) m Q -> triple P m (fun _ _ => True).
Proof. intros H. eapply triple_weaken; [exact H | done | done]. Qed.

(** A fact the precondition implies, whatever the state. *)
Lemma triple_fact {A} (phi : Prop) P (m : js (Room R) A) Q :
  (forall r, P r -> phi) -> (phi -> triple P m Q) -> triple P m Q.
Proof. intros Hphi H r Hr HP. exact (H (Hphi r HP) r Hr HP). Qed.

Lemma triple_fact_inv {A} (phi : Prop) P (m : js (Room R) A) Q :
  (forall r, room_inv r -> P r -> phi) -> (phi -> triple P m Q) -> triple P m Q.
Proof. intros Hphi H r Hr HP. exact (H (Hphi r Hr HP) r Hr HP). Qed.

Lemma pres_triple {A} P (m : js (Room R) A) : pres m -> triple P m (fun _ _ => True).
Proof. intros H r Hr _. split; [|done]. by apply (H r Hr). Qed.

Lemma triple_bind {A B} P (m : js (Room R) A) (f : A -> js (Room R) B) Q S :
  triple P m Q -> (forall x, triple (Q x) (f x) S) -> triple P (js_bind m f) S.
Proof.
  intros Hm Hf r Hr HP. unfold js_bind.
  destruct (Hm r Hr HP) as [Hinv HQ].
  destruct (m r) as [[s1 e1] [x|]] eqn:E; simpl in *; [|split; [done | discriminate]].
  destruct (Hf x s1 Hinv (HQ x eq_refl)) as [Hinv' HS].
  destruct (f x s1) as [[s2 e2] o]. simpl in *. split; [done|]. apply HS.
Qed.

Lemma triple_async P name (m : js (Room R) unit) (Q : unit -> Room R -> Prop) :
  triple P m Q -> triple P (js_async name m) (fun _ _ => True).
Proof.
  intros Hm r Hr HP. unfold js_async. destruct (Hm r Hr HP) as [Hinv _].
  by destruct (m r) as [[s1 e1] [[]|]].
Qed.

(** A loop whose body keeps [I]. *)
Lemma triple_forEach {A} I (f : A -> js (Room R) unit) l :
  (forall x, x ∈ l -> triple I (f x) (fun _ => I)) ->
  triple I (js_forEach f l) (fun _ => I).
Proof.
  induction l as [|x l IH]; intros Hf; simpl.
  - eapply triple_weaken; [apply triple_ret | done | naive_solver].
  - eapply triple_bind; [apply Hf; set_solver|]. intros []. apply IH.
    intros y Hy. apply Hf. set_solver.
Qed.

Lemma triple_map {A B} I (f : A -> js (Room R) B) l :
  (forall x, x ∈ l -> triple I (f x) (fun _ => I)) ->
  triple I (js_map f l) (fun _ => I).
Proof.
  induction l as [|x l IH]; intros Hf; simpl.
  - eapply triple_weaken; [apply triple_ret | done | naive_solver].
  - eapply triple_bind; [apply Hf; set_solver|]. intros y.
    eapply triple_bind; [apply IH; intros z Hz; apply Hf; set_solver|]. intros ys.
    eapply triple_weaken; [apply triple_ret | done | naive_solver].
Qed.

Lemma triple_conj {A} P (m : js (Room R) A) Q1 Q2 :
  triple P m Q1 -> triple P m Q2 -> triple P m (fun x r => Q1 x r /\ Q2 x r).
Proof.
  intros H1 H2 r Hr HP. destruct (H1 r Hr HP) as [Hi HQ1], (H2 r Hr HP) as [_ HQ2].
  split; [done|]. intros x Hx. split; [by apply HQ1 | by apply HQ2].
Qed.

(** A [map] whose callback establishes [Q] of its result and keeps the
    [Q] of earlier results: [Q] holds of every result at the end. *)
Lemma triple_map_post {A B} I (Q : B -> Room R -> Prop) (f : A -> js (Room R) B) l :
  (forall x, x ∈ l -> triple I (f x) (fun y r => I r /\ Q y r)) ->
  (forall x z, x ∈ l -> triple (fun r => I r /\ Q z r) (f x) (fun _ r => I r /\ Q z r)) ->
  triple I (js_map f l) (fun ys r => I r /\ Forall (fun y => Q y r) ys).
Proof.
  induction l as [|x l IH]; intros Hf Hk; simpl.
  - eapply triple_weaken; [apply triple_ret | done | naive_solver].
  - assert (IH' := IH (fun x' Hx' => Hf x' ltac:(set_solver))
                      (fun x' z Hx' => Hk x' z ltac:(set_solver))).
    eapply triple_bind; [apply Hf; set_solver|]. intros y.
    eapply triple_bind.
    { apply triple_conj.
      - eapply triple_weaken; [exact IH' | naive_solver | done].
      - apply (triple_map (fun r => I r /\ Q y r)). intros z Hz. apply Hk. set_solver. }
    intros ys r Hr [[HI HF] [_ HQy]]. cbn. split; [done|].
    intros zs [= <-]. split; [done|]. by constructor.
Qed.

(** ** The room's primitives *)

Lemma listeners_ok_addTransceiver p pc k d :
  pc_listeners_ok p pc -> pc_listeners_ok p (PC.addTransceiver k d pc).1.
Proof.
  intros Hok i tr who. simpl. intros [Hi|[Hlen Hi]]%lookup_app_Some.
  - by apply (Hok i tr).
  - apply list_lookup_singleton_Some in Hi as [_ <-]. simpl. set_solver.
Qed.

Lemma listeners_ok_setTransceiver p pc i tr :
  pc_listeners_ok p pc ->
  (forall who, who ∈ RTCRtpTransceiver.onTrack tr ->
     who = p /\ RTCRtpTransceiver.direction tr = Recvonly) ->
  pc_listeners_ok p (PC.setTransceiver i tr pc).
Proof.
  intros Hok Htr j tr' who. simpl. destruct (decide (i = j)) as [<-|Hne].
  - intros Hj. destruct (decide (i < length (PC.transceivers pc))).
    + rewrite list_lookup_insert_eq in Hj by done. simplify_eq. apply Htr.
    + rewrite list_insert_ge in Hj by lia. by apply (Hok i).
  - rewrite list_lookup_insert_ne by done. apply Hok.
Qed.

(** Replacing transceiver [i] by one of the same direction whose
    subscribers are well-formed keeps the invariant and grows the peers. *)
Lemma inv_setTransceiver r p pc i tr tr' :
  room_inv r -> peers r !! p = Some pc -> PC.transceivers pc !! i = Some tr ->
  RTCRtpTransceiver.direction tr' = RTCRtpTransceiver.direction tr ->
  (forall who, who ∈ RTCRtpTransceiver.onTrack tr' ->
     who = p /\ RTCRtpTransceiver.direction tr' = Recvonly) ->
  room_inv (set_peers (<[p := PC.setTransceiver i tr' pc]> (peers r)) r) /\
  peers_grow r (set_peers (<[p := PC.setTransceiver i tr' pc]> (peers r)) r).
Proof.
  intros Hinv Hp Hi Hd Hon. pose proof (pc_grows_setTransceiver pc i tr tr' Hi Hd) as Hg.
  split; [|by eapply peers_grow_insert]. eapply inv_set_pc; [done | done | done | |].
  - apply listeners_ok_setTransceiver; [by eapply inv_listeners | done].
  - apply (pc_msgs_ok_keep pc); [done | done | by eapply inv_msgs].
Qed.

Lemma triple_need_pc P peer :
  triple P (need_pc peer)
    (fun '(p, pc) r => P r /\ peer = Some p /\ peers r !! p = Some pc).
Proof.
  intros r Hr HP. unfold need_pc, js_bind, js_get_state, js_need, js_ret.
  destruct peer as [p|]; simpl; [|split; [done | discriminate]].
  destruct (peers r !! p) eqn:E; simpl; split; try done. by intros [? ?] [= <- <-].
Qed.

(** A change of a peer connection that keeps its transceivers; [P]
    survives it when [P] does not look at that connection. *)
Lemma triple_modify_pc P p f :
  (forall pc, PC.transceivers (f pc) = PC.transceivers pc) ->
  (forall pc, pc_msgs_ok pc -> pc_msgs_ok (f pc)) ->
  (forall r, P r -> P (set_peers (alter f p (peers r)) r)) ->
  triple P (modify_pc p f) (fun _ => P).
Proof.
  intros Hf Hfm HP r Hr HPr.
  assert (Hinv : room_inv (modify_pc p f r).1.1).
  { apply inv_modify_pc; [done|]. intros pc Hp. split_and!.
    - by apply pc_grows_same.
    - unfold pc_listeners_ok. rewrite Hf. apply (inv_listeners r Hr p pc Hp).
    - apply Hfm. by eapply inv_msgs. }
  rewrite modify_pc_run in *. simpl in *. split; [done|]. intros _ _. by apply HP.
Qed.

Lemma triple_modify_pc_keep P p f :
  (forall pc, PC.transceivers (f pc) = PC.transceivers pc) ->
  (forall pc, pc_msgs_ok pc -> pc_msgs_ok (f pc)) ->
  triple P (modify_pc p f) (fun _ _ => True).
Proof.
  intros Hf Hfm. eapply triple_weaken; [apply (triple_modify_pc (fun _ => True)) | by intros | by intros];
    done.
Qed.

Lemma is_Some_alter (f : PC.t -> PC.t) (ps : gmap string PC.t) p q :
  is_Some (ps !! q) -> is_Some (alter f p ps !! q).
Proof. intros H. by apply lookup_alter_is_Some. Qed.

Lemma triple_addTransceiver Q p k d :
  peer_stable Q ->
  triple Q (addTransceiver p k d) (fun n r => Q r /\ has_transceiver r p n d).
Proof.
  intros HQ r Hr HQr. unfold addTransceiver, need_pc, js_bind, js_get_state, js_need, js_ret.
  cbn -[PC.addTransceiver].
  destruct (peers r !! p) as [pc|] eqn:E; cbn -[PC.addTransceiver]; [|split; [done | discriminate]].
  pose proof (pc_grows_addTransceiver pc k d) as Hg.
  pose proof (tr_dir_addTransceiver pc k d) as Hn.
  pose proof (listeners_ok_addTransceiver p pc k d (inv_listeners r Hr p pc E)) as Hok.
  pose proof (pc_msgs_ok_addTransceiver pc k d (inv_msgs r Hr p pc E)) as Hm.
  destruct (PC.addTransceiver k d pc) as [pc' n]. simpl in *.
  rewrite (alter_Some_insert _ _ _ pc) by done. split.
  - by eapply inv_set_pc.
  - intros m [= <-]. split.
    + apply (HQ r); [by eapply peers_grow_insert | done].
    + exists pc'. simpl. by rewrite lookup_insert_eq.
Qed.

Lemma triple_subscribe_onTrack Q p i :
  peer_stable Q ->
  triple (fun r => Q r /\ has_transceiver r p i Recvonly) (subscribe_onTrack p p i) (fun _ => Q).
Proof.
  intros HQ r Hr [HQr [pc [Hp [tr [Hi Hd]]]]].
  unfold subscribe_onTrack, need_pc, js_bind, js_get_state, js_need, js_ret.
  cbn -[modify_pc]. rewrite Hp. cbn -[modify_pc]. rewrite Hi. cbn -[modify_pc].
  rewrite modify_pc_run. simpl.
  rewrite (alter_Some_insert _ _ _ pc) by done.
  match goal with |- context [PC.setTransceiver i ?t pc] =>
    destruct (inv_setTransceiver r p pc i tr t Hr Hp Hi) as [Hinv Hg] end.
  - done.
  - simpl. rewrite Hd. intros who [Hw|Hw%list_elem_of_singleton]%elem_of_app; [|by split].
    split; [exact (proj1 (inv_listeners r Hr p pc Hp i tr who Hi Hw)) | done].
  - split; [done|]. intros _ _. by eapply HQ.
Qed.

Lemma triple_subscribe_onRtp Q q j key :
  peer_stable Q ->
  triple (fun r => Q r /\ has_transceiver r q j Sendonly) (subscribe_onRtp key (q, j)) (fun _ => Q).
Proof.
  intros HQ r Hr [HQr Hq].
  split; [|intros _ _; apply (HQ r); [by apply peers_grow_refl | done]].
  destruct Hr as [Hwf Hroutes Hinfl Hrtp Hlis Hmsgs]. split; simpl; try done.
  intros key' ts q' j' Hts Hin. destruct (decide (key = key')) as [<-|Hne].
  - rewrite lookup_insert_eq in Hts. simplify_eq.
    apply elem_of_app in Hin as [Hin|Hin%list_elem_of_singleton]; [|by simplify_eq].
    destruct (onRtp r !! key) as [ts0|] eqn:E0; simpl in Hin; [|set_solver].
    by eapply Hrtp.
  - rewrite lookup_insert_ne in Hts by done. by eapply Hrtp.
Qed.

Lemma triple_sendRPC P msg peer :
  server_msg msg -> triple P (sendRPC msg peer) (fun _ _ => True).
Proof.
  intros Hmsg. unfold sendRPC. eapply triple_bind; [apply triple_need_pc|]. intros [p pc].
  eapply triple_weaken; [apply (triple_modify_pc (fun _ => True)) | by intros | by intros];
    [done | by intros; apply pc_msgs_ok_send | done].
Qed.

Lemma inv_push_inflight r p :
  room_inv r -> is_Some (peers r !! p) ->
  room_inv (mkRoom (router r) (peers r) (onRtp r) (inflight r ++ [p])).
Proof.
  intros [Hwf Hroutes Hinfl Hrtp Hlis Hmsgs] Hp. split; simpl; try done.
  intros q [Hq|Hq%list_elem_of_singleton]%elem_of_app; [by apply Hinfl | by subst].
Qed.

Lemma triple_sendOffer P peer : triple P (sendOffer peer) (fun _ _ => True).
Proof.
  unfold sendOffer. eapply triple_bind; [apply triple_need_pc|]. intros [p pc].
  eapply triple_bind.
  { eapply triple_weaken; [apply (triple_modify_pc (fun r => is_Some (peers r !! p))) | |done].
    - done.
    - intros ?; apply pc_msgs_ok_setLocalDescription.
    - intros r Hr. simpl. by apply is_Some_alter.
    - intros r [_ [_ Hp]]. eauto. }
  intros []. intros r Hr Hp. split; [by apply inv_push_inflight | done].
Qed.

Lemma triple_router_addTrack who t i :
  triple (fun r => has_transceiver r who i Recvonly) (router_addTrack who t i)
         (fun _ r => has_transceiver r who i Recvonly).
Proof.
  intros r [Hwf Hroutes Hinfl Hrtp Hlis Hmsgs] Hwho. simpl. split; [|done].
  split; simpl; try done.
  - by apply reg_wf_addTrack.
  - intros q j rt. rewrite reg_getTrack_addTrack. case_decide.
    + intros [= <-]. done.
    + apply Hroutes.
Qed.

Lemma peer_ref_key r v p : peer_ref r v = Some p -> p = js_key v.
Proof. unfold peer_ref. by destruct (peers r !! js_key v); intros [= <-]. Qed.

(** ** Every handler keeps the invariant *)

Ltac triple_seq :=
  unfold pres;
  repeat match goal with
  | |- forall _ : _ * _, _ => intros [? ?]; cbv beta iota
  | |- forall _, _ => intros ?; cbv beta iota
  | |- triple _ (js_bind js_get_state _) _ => eapply triple_bind; [apply triple_get|]
  | |- triple _ (js_bind (js_need _) _) _ => eapply triple_bind; [apply triple_need|]
  | |- triple _ (js_bind (need_pc _) _) _ => eapply triple_bind; [apply triple_need_pc|]
  end.

Lemma pres_handleAnswer v a : pres (handleAnswer v a).
Proof.
  unfold handleAnswer. eapply triple_async. triple_seq.
  apply triple_modify_pc_keep; [done | intros pc; by apply pc_msgs_ok_keep].
Qed.

Lemma pres_handleCandidate v c : pres (handleCandidate v c).
Proof.
  unfold handleCandidate. triple_seq. eapply triple_async. triple_seq.
  apply triple_modify_pc_keep; [done | intros pc; by apply pc_msgs_ok_keep].
Qed.

Lemma pres_getTracks v : pres (getTracks v).
Proof. unfold getTracks. triple_seq. apply triple_sendRPC. right. by eexists. Qed.

Lemma pres_completeOffer p : pres (completeOffer p).
Proof.
  unfold completeOffer. triple_seq.
  match goal with |- triple _ (sendRPC (mkRPC _ [sdp_or_null (PC.localDescription ?pc0)]) _) _ =>
    apply (triple_fact_inv (is_Some (PC.localDescription pc0)));
    [intros r Hr (_ & _ & Hp); exact (proj1 (inv_msgs r Hr _ _ Hp)) | intros [d ->]]
  end.
  apply triple_sendRPC. left. by exists d.
Qed.

Lemma pres_requestPublish v kinds : pres (requestPublish v kinds).
Proof.
  unfold requestPublish. triple_seq.
  match goal with |- triple _ (js_bind (js_map (fun _ => js_bind (need_pc ?peer0) _) _) _) _ =>
    eapply triple_bind;
    [eapply triple_weaken with (P' := fun _ => True);
       [apply (triple_map_post (fun _ => True)
                 (fun y r => forall s, peer0 = Some s -> has_transceiver r s y Recvonly))
       | by intros | done] |] end.
  - intros kind _. triple_seq.
    match goal with |- triple (fun _ => (_ /\ ?pe = Some ?s /\ _) /\ _) (addTransceiver ?s _ _) _ =>
      apply (triple_fact (pe = Some s)); [naive_solver | intros Hs] end.
    eapply triple_weaken; [apply (triple_addTransceiver (fun _ => True)); solve_stable | done |].
    intros n r [_ Hn]. split; [done|]. intros s' Hs'. by simplify_eq.
  - intros kind z _. triple_seq.
    match goal with |- triple _ _ (fun _ r => True /\ @?Q r) =>
      eapply triple_weaken; [apply (triple_addTransceiver Q); solve_stable | naive_solver | naive_solver]
    end.
  - intros ts. eapply triple_bind.
    { match goal with |- triple (fun r => True /\ @?Inv r) (js_forEach _ _) _ =>
        apply (triple_weaken _ Inv _ _ (fun _ => Inv)); [apply triple_forEach | naive_solver | intros ? ? H; exact H]
      end.
      intros i Hi. triple_seq.
      match goal with |- triple (fun _ => _ /\ peer_ref ?r0 ?v0 = Some ?s0 /\ _) _ _ =>
        apply (triple_fact (peer_ref r0 v0 = Some s0)); [naive_solver|];
        intros Hk; rewrite <- (peer_ref_key _ _ _ Hk) end.
      match goal with |- triple _ _ (fun _ r => @?Inv r) =>
        eapply triple_weaken; [apply (triple_subscribe_onTrack Inv); solve_stable | |
                               intros ? ? H; exact H] end.
      intros r [HF _]. split; [done|]. exact (proj1 (Forall_forall _ _) HF i Hi _ Hk). }
    intros []. eapply triple_async, triple_sendOffer.
Qed.

Lemma pres_subscribe v ids : pres (subscribe v ids).
Proof.
  unfold subscribe. triple_seq. eapply triple_bind.
  { eapply triple_weaken with (P' := fun _ => True); [apply triple_map | by intros | done].
    intros tid _. unfold lookup_trackId. triple_seq. eapply triple_any, triple_ret. }
  intros routes. eapply triple_bind.
  { apply triple_forEach. intros route _. unfold subscribe_route. eapply triple_async.
    triple_seq. eapply triple_bind.
    - eapply triple_weaken; [apply (triple_addTransceiver (fun _ => True)); solve_stable | done | done].
    - intros n. eapply triple_weaken; [apply (triple_subscribe_onRtp (fun _ => True)); solve_stable
                                       | naive_solver | done]. }
  intros []. eapply triple_async, triple_sendOffer.
Qed.

Lemma inv_add_peer r p pc :
  room_inv r -> peers r !! p = None -> pc_listeners_ok p pc -> pc_msgs_ok pc ->
  room_inv (set_peers (<[p := pc]> (peers r)) r).
Proof.
  intros Hinv Hp Hok Hm. apply inv_peers_grow; [done | | |].
  - intros q qc Hq. simpl. rewrite lookup_insert_ne by congruence. exists qc. by split; [|intros ? ?].
  - apply map_Forall_insert_2; [done | exact (inv_listeners r Hinv)].
  - apply map_Forall_insert_2; [done | exact (inv_msgs r Hinv)].
Qed.

Lemma triple_join fresh :
  triple (fun r => peers r !! fresh = None) (join fresh) (fun _ _ => True).
Proof.
  intros r Hr Hfresh. split; [|done]. simpl. apply inv_add_peer; [done | done | |].
  - intros i tr who. simpl. by rewrite lookup_nil.
  - split; [by eexists | constructor].
Qed.

(** Putting back a transceiver whose [onTrack] subscribers are unchanged. *)
Lemma triple_setTransceiver p i tr tr' :
  RTCRtpTransceiver.onTrack tr' = RTCRtpTransceiver.onTrack tr ->
  RTCRtpTransceiver.direction tr' = RTCRtpTransceiver.direction tr ->
  triple (fun r => exists pc, peers r !! p = Some pc /\ PC.transceivers pc !! i = Some tr)
    (modify_pc p (PC.setTransceiver i tr'))
    (fun _ r => has_transceiver r p i (RTCRtpTransceiver.direction tr)).
Proof.
  intros Hon Hd r Hr [pc [Hp Hi]]. rewrite modify_pc_run. simpl.
  rewrite (alter_Some_insert _ _ _ pc) by done.
  destruct (inv_setTransceiver r p pc i tr tr' Hr Hp Hi Hd) as [Hinv _].
  { rewrite Hon, Hd. intros who Hw. by eapply (inv_listeners r Hr p pc Hp i tr). }
  split; [done|]. intros _ _. exists (PC.setTransceiver i tr' pc). simpl. rewrite lookup_insert_eq.
  split; [done|]. exists tr'. split; [|done]. apply list_lookup_insert_eq. by eapply lookup_lt_Some.
Qed.

Lemma pres_receiveTrack p i track : pres (receiveTrack p i track).
Proof.
  unfold receiveTrack. triple_seq.
  match goal with |- triple _ (let '(_, _) := RTCRtpTransceiver.addTrack ?tr0 _ in _) _ =>
    set (trx := tr0) in *
  end.
  pose proof (RTCRtpTransceiver.addTrack_onTrack trx track) as Hon.
  pose proof (RTCRtpTransceiver.addTrack_direction trx track) as Hdir.
  apply (triple_fact_inv (forall who, who ∈ RTCRtpTransceiver.onTrack trx ->
                            who = p /\ RTCRtpTransceiver.direction trx = Recvonly)).
  { intros r Hr [[_ [[= <-] Hp]] Hi] who Hw. by eapply (inv_listeners r Hr p _ Hp _ trx). }
  intros Hwho. destruct (RTCRtpTransceiver.addTrack trx track) as [tr' ev]. simpl in Hon, Hdir.
  eapply triple_bind.
  { eapply triple_weaken; [apply (triple_setTransceiver p i trx tr' Hon Hdir) | naive_solver | done]. }
  intros []. destruct ev as [t'|]; [|eapply triple_any, triple_ret].
  eapply triple_weaken;
    [apply (triple_forEach (fun r => has_transceiver r p i (RTCRtpTransceiver.direction trx)))
    | done | done].
  intros who Hw. rewrite Hon in Hw. destruct (Hwho who Hw) as [-> ->].
  apply triple_router_addTrack.
Qed.

Lemma triple_dispatch fresh msg :
  triple (fun r => peers r !! fresh = None) (dispatch fresh msg) (fun _ _ => True).
Proof.
  unfold dispatch. destruct (member (rpc_type msg)).
  all: first
    [ apply pres_triple; first [ apply pres_handleAnswer | apply pres_handleCandidate
      | apply pres_requestPublish | apply pres_getTracks | apply pres_subscribe ]
    | eapply triple_any, triple_ret
    | apply triple_throw
    | idtac ].
  - eapply triple_async. eapply triple_bind; [apply triple_join|]. intros ?.
    eapply triple_any, triple_ret.
Qed.

Lemma inv_drop_inflight r i : room_inv r -> room_inv (drop_inflight i r).
Proof.
  intros [Hwf Hroutes Hinfl Hrtp Hlis Hmsgs]. split; simpl; try done.
  intros p Hp. apply Hinfl. by eapply list_elem_of_delete_inv.
Qed.

(** The transport setting a transceiver's sender parameters keeps the
    invariant. *)
Lemma inv_set_sender_params r p n prm : room_inv r -> room_inv (set_sender_params p n prm r).
Proof.
  intros Hr. unfold set_sender_params.
  match goal with |- room_inv (set_peers (alter ?f p _) _) =>
    pose proof (inv_modify_pc r p f Hr) as H; rewrite modify_pc_run in H; apply H end.
  intros pc Hp. destruct (PC.transceivers pc !! n) as [tr|] eqn:Ht.
  - split_and!.
    + by apply (pc_grows_setTransceiver pc n tr).
    + apply listeners_ok_setTransceiver; [by eapply inv_listeners|]. simpl.
      intros who Hw. by eapply (inv_listeners r Hr p pc Hp n tr).
    + apply (pc_msgs_ok_keep pc); [done | done | by eapply inv_msgs].
  - split_and!; [by intros ? ? | by eapply inv_listeners | by eapply inv_msgs].
Qed.

End Invariant.

#[export] Hint Resolve triple_ret triple_get triple_need triple_throw : sfu.

(** ** The event loop *)

Section Steps.
Context {R : Type} `{!TrackRegistry R} `{!TrackRegistryLaws R}.
Implicit Types r : Room R.

Inductive step : Room R -> Room R -> Prop :=
| step_join (fresh : string) r :
    peers r !! fresh = None -> step r (join fresh r).1.1
| step_message (p fresh : string) (msg : RPC) r :
    is_Some (peers r !! p) -> peers r !! fresh = None ->
    step r (dispatch fresh msg r).1.1
| step_resume (i : nat) (p : string) r :
    inflight r !! i = Some p -> step r (completeOffer p (drop_inflight i r)).1.1
| step_track (p : string) (i : nat) (track : RtpTrack) r :
    step r (receiveTrack p i track r).1.1
| step_params (p : string) (n : nat) (prm : RTCRtpParameters) r :
    step r (set_sender_params p n prm r).

Definition reachable r : Prop := rtc step new_room r.

Lemma inv_new_room : room_inv (new_room (R := R)).
Proof.
  split; simpl.
  - apply reg_wf_empty.
  - intros q i rt. by rewrite reg_getTrack_empty.
  - intros p Hp. set_solver.
  - intros key ts q j. by rewrite lookup_empty.
  - intros p pc. by rewrite lookup_empty.
  - intros p pc. by rewrite lookup_empty.
Qed.

Lemma step_inv r r' : step r r' -> room_inv r -> room_inv r'.
Proof.
  intros Hs Hr. destruct Hs as [fresh r Hf|p fresh msg r _ Hf|i p r _|p i track r|p n prm r].
  - by apply (triple_join fresh r Hr Hf).
  - by apply (triple_dispatch fresh msg r Hr Hf).
  - apply (pres_completeOffer p); [by apply inv_drop_inflight | done].
  - by apply (pres_receiveTrack p i track r Hr).
  - by apply inv_set_sender_params.
Qed.

Lemma rtc_step_inv r r' : rtc step r r' -> room_inv r -> room_inv r'.
Proof. induction 1 as [r|r1 r2 r3 Hs _ IH]; [done|]. intros H1. by apply IH, (step_inv r1). Qed.

(** C1: in every state the server can reach, every registered track is
    owned by an existing peer through one of its [recvonly]
    transceivers, every [onRtp] forwarding target is a [sendonly]
    transceiver of an existing peer, every suspended [sendOffer] names
    an existing peer, only [recvonly] transceivers have [onTrack]
    subscribers and those are their owner, and every message sent is a
    [handleOffer] or a [handleTracks]. *)
Theorem reachable_inv r : reachable r -> room_inv r.
Proof. intros Hr. exact (rtc_step_inv _ _ Hr inv_new_room). Qed.

(** C8: every message the server has written on a peer's data
    channel, in every state it can reach, is either a [handleOffer]
    whose payload is the peer's session description (never [null]),
    which the client's protocol decodes as [HandleOffer], or a
    [handleTracks], a type rpc.ts does not define, which the client's
    decoder rejects. *)
Theorem server_messages_typed r p pc m :
  reachable r -> peers r !! p = Some pc -> m ∈ PC.sent pc ->
  (exists d, m = to_rpc (HandleOffer d []) /\ of_rpc m = Some (HandleOffer d [])) \/
  (exists infos, m = mkRPC "handleTracks" [JArr (trackInfo_to_json <$> infos)] /\
                 of_rpc m = None).
Proof.
  intros Hr Hp Hm. destruct (inv_msgs _ (rtc_step_inv _ _ Hr inv_new_room) p pc Hp) as [_ Hs].
  destruct (proj1 (Forall_forall _ _) Hs m Hm) as [[d ->]|[infos ->]].
  - left. exists d. split; [done|]. cbn -[sdp_of_json sdp_to_json]. by rewrite sdp_json_roundtrip.
  - right. by exists infos.
Qed.

(** ** Every suspended [sendOffer] completes *)

(** The number of messages sent on peer [p]'s channel. *)
Definition sent_count r (p : string) : nat :=
  default 0 ((fun pc => length (PC.sent pc)) <$> peers r !! p).

Definition pending_offers r (p : string) : nat :=
  length (filter (fun q => q = p) (inflight r)).

Lemma completeOffer_effect p r :
  is_Some (peers r !! p) ->
  inflight (completeOffer p r).1.1 = inflight r /\
  forall q, sent_count (completeOffer p r).1.1 q =
            sent_count r q + (if decide (p = q) then 1 else 0).
Proof.
  intros [pc Hp]. unfold completeOffer, sendRPC, need_pc, js_bind, js_get_state, js_need, js_ret.
  simpl. rewrite Hp. simpl. rewrite Hp. simpl. split; [done|].
  intros q. unfold sent_count. simpl. rewrite (alter_Some_insert _ _ _ pc) by done.
  destruct (decide (p = q)) as [<-|Hne].
  - rewrite lookup_insert_eq, Hp. simpl. rewrite length_app. simpl. lia.
  - rewrite lookup_insert_ne by done. lia.
Qed.

Lemma step_resume_head r p rest :
  inflight r = p :: rest ->
  step r (completeOffer p (drop_inflight 0 r)).1.1.
Proof. intros H. apply step_resume. by rewrite H. Qed.

(** C7: from every reachable state the event loop can resume every
    suspended [sendOffer]: it reaches a state with none left, in which
    each peer's channel has received one more message per offer that
    was pending for it. *)
Theorem resume_all_offers r :
  reachable r ->
  exists r', rtc step r r' /\ inflight r' = [] /\
    forall q, sent_count r' q = sent_count r q + pending_offers r q.
Proof.
  remember (length (inflight r)) as n eqn:En. revert r En.
  induction n as [|n IH]; intros r En Hr.
  - exists r. split_and!; [done | by destruct (inflight r) | ].
    intros q. unfold pending_offers. destruct (inflight r); simpl in *; [lia | done].
  - destruct (inflight r) as [|p rest] eqn:Ei; [done|].
    assert (Hp : is_Some (peers r !! p)).
    { apply (inv_inflight r (rtc_step_inv _ _ Hr inv_new_room)). rewrite Ei. set_solver. }
    set (r1 := (completeOffer p (drop_inflight 0 r)).1.1).
    destruct (completeOffer_effect p (drop_inflight 0 r) Hp) as [Hinf Hsent].
    assert (Hr1 : reachable r1) by (eapply rtc_r; [exact Hr | by apply step_resume_head with rest]).
    assert (Hi1 : inflight r1 = rest) by (unfold r1; rewrite Hinf; simpl; by rewrite Ei).
    destruct (IH r1 ltac:(rewrite Hi1; simpl in En; lia) Hr1) as [r' [Hs [Hnil Hcnt]]].
    exists r'. split_and!; [by eapply rtc_l; [apply step_resume_head with rest|] | done |].
    intros q. rewrite Hcnt. unfold r1. rewrite Hsent. unfold pending_offers.
    rewrite Hinf. simpl. rewrite Ei, filter_cons. simpl. unfold sent_count. simpl.
    destruct (decide (p = q)); simpl; lia.
Qed.

End Steps.

(** ** Two negotiations in flight for one peer

    Nothing in room.ts serialises renegotiations: [requestPublish] (and
    [subscribe]) call [sendOffer] without waiting for the previous one.
    Two [requestPublish] messages from peer ["p1"] leave two suspended
    [sendOffer] calls for it, and since each resumed call sends the
    description the peer has when it resumes, the first offer is never
    sent: both [handleOffer] messages carry the second. *)

Section Race.

Definition publish_msg (k : string) : RPC :=
  mkRPC "requestPublish" [JStr "p1"; JArr [JStr k]].

Definition race_1 : Room Router.t := (join "p1" empty_room).1.1.
Definition race_2 : Room Router.t := (dispatch "c1" (publish_msg "video") race_1).1.1.
Definition race_3 : Room Router.t := (dispatch "c1" (publish_msg "audio") race_2).1.1.
Definition race_4 : Room Router.t := (completeOffer "p1" (drop_inflight 0 race_3)).1.1.
Definition race_5 : Room Router.t := (completeOffer "p1" (drop_inflight 0 race_4)).1.1.

Definition offer_video : SessionDescription := mkSdp Offer "m=application;m=video recvonly".
Definition offer_both : SessionDescription :=
  mkSdp Offer "m=application;m=video recvonly;m=audio recvonly".

Lemma race_reach_3 : reachable race_3.
Proof.
  assert (H1 : reachable race_1) by (apply rtc_once; by apply step_join).
  assert (H2 : reachable race_2).
  { eapply rtc_r; [exact H1|]. apply (step_message "p1"); [eexists|]; reflexivity. }
  eapply rtc_r; [exact H2|]. apply (step_message "p1"); [eexists|]; reflexivity.
Qed.

Lemma race_reach_5 : reachable race_5.
Proof.
  eapply rtc_r; [eapply rtc_r; [apply race_reach_3|]|].
  - by apply (step_resume 0 "p1").
  - by apply (step_resume 0 "p1").
Qed.

(** C3: the server lets two renegotiations of one peer be in flight at
    once: a reachable state has two suspended [sendOffer] calls for
    ["p1"] (spec 4.2 requires at most one). *)
Theorem server_two_negotiations_in_flight :
  exists r : Room Router.t, reachable r /\ inflight r = ["p1"; "p1"].
Proof. exists race_3. split; [apply race_reach_3 | reflexivity]. Qed.

(** C4: with two negotiations in flight, the first offer (video only)
    is installed but never sent: once both calls have resumed, the peer
    has received the second offer twice and nothing else. *)
Theorem server_first_offer_lost :
  exists (r : Room Router.t) pc pc2,
    reachable r /\ inflight r = [] /\
    peers race_2 !! "p1" = Some pc2 /\ PC.localDescription pc2 = Some offer_video /\
    peers r !! "p1" = Some pc /\
    PC.sent pc = [mkRPC "handleOffer" [sdp_to_json offer_both];
                  mkRPC "handleOffer" [sdp_to_json offer_both]].
Proof.
  exists race_5. eexists. eexists. split_and!; [| reflexivity | vm_compute; reflexivity
    | reflexivity | vm_compute; reflexivity | reflexivity].
  apply race_reach_5.
Qed.

End Race.

(** Witnesses. *)

Lemma reachable_inv_witness : reachable race_3 /\ room_inv race_3.
Proof. split; [apply race_reach_3 | exact (reachable_inv race_3 race_reach_3)]. Defined.

Definition race5_pc : PC.t := default PC.create (peers race_5 !! "p1").
Definition race5_msg : RPC := mkRPC "handleOffer" [sdp_to_json offer_both].

Lemma server_messages_typed_witness :
  reachable race_5 /\ peers race_5 !! "p1" = Some race5_pc /\ race5_msg ∈ PC.sent race5_pc /\
  ((exists d, race5_msg = to_rpc (HandleOffer d []) /\ of_rpc race5_msg = Some (HandleOffer d [])) \/
   (exists infos, race5_msg = mkRPC "handleTracks" [JArr (trackInfo_to_json <$> infos)] /\
                  of_rpc race5_msg = None)).
Proof.
  assert (Hp : peers race_5 !! "p1" = Some race5_pc) by (vm_compute; reflexivity).
  assert (Hm : race5_msg ∈ PC.sent race5_pc).
  { assert (E : PC.sent race5_pc = [race5_msg; race5_msg]) by (vm_compute; reflexivity).
    rewrite E. left. }
  split_and!; [apply race_reach_5 | exact Hp | exact Hm |].
  exact (server_messages_typed race_5 "p1" race5_pc race5_msg race_reach_5 Hp Hm).
Defined.

Lemma resume_all_offers_witness :
  reachable race_3 /\
  exists r', rtc step race_3 r' /\ inflight r' = [] /\
    forall q, sent_count r' q = sent_count race_3 q + pending_offers race_3 q.
Proof. split; [apply race_reach_3 | exact (resume_all_offers race_3 race_reach_3)]. Defined.

