(* ===== verification/Handlers.v ===== *)
(** * Handlers: closed forms of the room's handlers

    Where RoomSteps proves what every handler preserves, this file
    computes what a handler does: the state it leaves, the promises it
    rejects and whether it throws, on each branch of its code.  The
    lemmas [*_run] evaluate one primitive of Room on a state where the
    peer exists; the handler theorems chain them. *)

From S2P Require Import Prelude Domain Rpc Transceiver Router PeerConnection Room.

Section Run.
Context `{TrackRegistry R}.
Implicit Types r : Room R.

Lemma set_peers_peers r : set_peers (peers r) r = r.
Proof. by destruct r. Qed.

Lemma set_peers_twice r m m' : set_peers m (set_peers m' r) = set_peers m r.
Proof. done. Qed.

Lemma need_pc_run r p pc :
  peers r !! p = Some pc -> need_pc (Some p) r = (r, [], Some (p, pc)).
Proof.
  intros Hp. unfold need_pc, js_bind, js_get_state, js_need, js_ret. simpl. by rewrite Hp.
Qed.

Lemma need_pc_none r : need_pc None r = (r, [], None).
Proof. reflexivity. Qed.

Lemma modify_pc_insert r p pc f :
  peers r !! p = Some pc ->
  modify_pc p f r = (set_peers (<[p := f pc]> (peers r)) r, [], Some tt).
Proof. intros Hp. unfold modify_pc. by rewrite (alter_Some_insert _ _ _ pc). Qed.

Lemma addTransceiver_run r p pc k d :
  peers r !! p = Some pc ->
  addTransceiver p k d r =
  (set_peers (<[p := (PC.addTransceiver k d pc).1]> (peers r)) r, [],
   Some (length (PC.transceivers pc))).
Proof.
  intros Hp. unfold addTransceiver.
  rewrite (js_bind_ok _ _ _ _ _ _ (need_pc_run r p pc Hp)). simpl.
  unfold js_bind. simpl. by rewrite (alter_Some_insert _ _ _ pc).
Qed.

Lemma js_bind_get {A} (f : Room R -> js (Room R) A) r : js_bind js_get_state f r = f r r.
Proof. unfold js_bind, js_get_state. simpl. by destruct (f r r) as [[? ?] ?]. Qed.

Lemma peer_ref_some r p pc : peers r !! p = Some pc -> peer_ref r (JStr p) = Some p.
Proof. intros Hp. unfold peer_ref. simpl. by rewrite Hp. Qed.

Lemma peer_ref_none r v : peers r !! js_key v = None -> peer_ref r v = None.
Proof. intros Hp. unfold peer_ref. by rewrite Hp. Qed.

(** ** [requestPublish] *)

(** A transceiver of [requestPublish] at position [n]: [recvonly], with
    the subscribers [subs] of its [onTrack]. *)
Definition recv_tr (n : nat) (k : Kind) (subs : list string) : RTCRtpTransceiver.t :=
  RTCRtpTransceiver.mk (pretty n) k Recvonly None None subs [].

Definition new_recv (n : nat) (ks : list Kind) (subs : list string) : list RTCRtpTransceiver.t :=
  imap (fun i k => recv_tr (n + i) k subs) ks.

Definition with_transceivers (ts : list RTCRtpTransceiver.t) (pc : PC.t) : PC.t :=
  PC.mk ts (PC.localDescription pc) (PC.remoteDescription pc) (PC.candidates pc) (PC.sent pc).

Lemma with_transceivers_id pc : with_transceivers (PC.transceivers pc) pc = pc.
Proof. by destruct pc. Qed.

Lemma new_recv_cons n k ks subs :
  new_recv n (k :: ks) subs = recv_tr n k subs :: new_recv (S n) ks subs.
Proof.
  unfold new_recv. rewrite imap_cons. f_equal; [by rewrite Nat.add_0_r|].
  apply imap_ext. intros i x _. simpl. by rewrite Nat.add_succ_r.
Qed.

Lemma js_need_Some {A} (x : A) : js_need (S := Room R) (Some x) = js_ret x.
Proof. reflexivity. Qed.

Lemma kind_json k : str_of_json (JStr (kind_str k)) ≫= kind_of_str = Some k.
Proof. simpl. apply kind_of_str_str. Qed.

(** Normalise a chain of binds: reassociate, run [js_ret], reduce. *)
Ltac js_simp :=
  repeat progress (rewrite ?js_bind_assoc, ?js_bind_ret_l, ?js_need_Some; cbv beta iota).

Lemma map_recv_run r p pc ks :
  peers r !! p = Some pc ->
  js_map (fun kind => '(p0, _) <- need_pc (Some p);;
                      k <- js_need (str_of_json kind ≫= kind_of_str);;
                      addTransceiver p0 k Recvonly)
         ((fun k => JStr (kind_str k)) <$> ks) r =
  (set_peers (<[p := with_transceivers
                       (PC.transceivers pc ++ new_recv (length (PC.transceivers pc)) ks []) pc]>
                (peers r)) r, [],
   Some (seq (length (PC.transceivers pc)) (length ks))).
Proof.
  revert r pc. induction ks as [|k ks IH]; intros r pc Hp.
  - simpl. rewrite app_nil_r, with_transceivers_id, insert_id by done. by rewrite set_peers_peers.
  - rewrite fmap_cons. cbn [js_map].
    rewrite !js_bind_assoc, (js_bind_ok _ _ _ _ _ _ (need_pc_run r p pc Hp)). cbv beta iota.
    rewrite kind_json. js_simp.
    rewrite (js_bind_ok _ _ _ _ _ _ (addTransceiver_run r p pc k Recvonly Hp)). cbv beta iota.
    set (pc1 := (PC.addTransceiver k Recvonly pc).1).
    rewrite (js_bind_ok _ _ _ _ _ _ (IH _ pc1 (lookup_insert_eq _ _ _))). simpl.
    rewrite insert_insert_eq, set_peers_twice, length_app, Nat.add_comm. simpl.
    rewrite new_recv_cons, <- app_assoc. reflexivity.
Qed.

Lemma subscribe_onTrack_run r p pc who i tr :
  peers r !! p = Some pc -> PC.transceivers pc !! i = Some tr ->
  subscribe_onTrack p who i r =
  (set_peers (<[p := PC.setTransceiver i
                 (RTCRtpTransceiver.mk (RTCRtpTransceiver.uuid tr) (RTCRtpTransceiver.kind tr)
                    (RTCRtpTransceiver.direction tr) (RTCRtpTransceiver.mid tr)
                    (RTCRtpTransceiver.senderParams tr) (RTCRtpTransceiver.onTrack tr ++ [who])
                    (RTCRtpTransceiver.receiver_tracks tr)) pc]> (peers r)) r, [], Some tt).
Proof.
  intros Hp Ht. unfold subscribe_onTrack.
  rewrite (js_bind_ok _ _ _ _ _ _ (need_pc_run r p pc Hp)). cbv beta iota.
  rewrite Ht. js_simp. simpl. unfold modify_pc. by rewrite (alter_Some_insert _ _ _ pc).
Qed.

Lemma insert_middle {A} (l1 l2 : list A) x y : <[length l1 := y]> (l1 ++ x :: l2) = l1 ++ y :: l2.
Proof. rewrite <- (Nat.add_0_r (length l1)), insert_app_r. done. Qed.

Lemma forEach_subscribe_run r p pc ts ks :
  peers r !! p = Some pc -> PC.transceivers pc = ts ++ new_recv (length ts) ks [] ->
  js_forEach (fun i => '(p0, _) <- need_pc (Some p);; subscribe_onTrack p0 p i)
             (seq (length ts) (length ks)) r =
  (set_peers (<[p := with_transceivers (ts ++ new_recv (length ts) ks [p]) pc]> (peers r)) r,
   [], Some tt).
Proof.
  revert r pc ts. induction ks as [|k ks IH]; intros r pc ts Hp Ht.
  - simpl. rewrite app_nil_r in *. rewrite <- Ht, with_transceivers_id, insert_id by done.
    by rewrite set_peers_peers.
  - cbn [length seq js_forEach].
    rewrite js_bind_assoc, (js_bind_ok _ _ _ _ _ _ (need_pc_run r p pc Hp)). cbv beta iota.
    rewrite new_recv_cons in Ht.
    assert (Hl : PC.transceivers pc !! length ts = Some (recv_tr (length ts) k [])).
    { rewrite Ht. by apply list_lookup_middle. }
    set (pc1 := PC.setTransceiver (length ts) (recv_tr (length ts) k [p]) pc).
    assert (Hs : subscribe_onTrack p p (length ts) r =
                 (set_peers (<[p := pc1]> (peers r)) r, [], Some tt))
      by exact (subscribe_onTrack_run r p pc p _ _ Hp Hl).
    rewrite (js_bind_ok _ _ _ _ _ _ Hs). cbv beta iota.
    assert (Ht1 : PC.transceivers pc1 =
                  (ts ++ [recv_tr (length ts) k [p]]) ++
                  new_recv (length (ts ++ [recv_tr (length ts) k [p]])) ks []).
    { simpl. rewrite Ht, insert_middle, <- app_assoc, length_app, Nat.add_comm. done. }
    pose proof (IH (set_peers (<[p := pc1]> (peers r)) r) pc1 _ (lookup_insert_eq _ _ _) Ht1) as IH1.
    rewrite length_app, Nat.add_comm in IH1. simpl in IH1. rewrite IH1. simpl.
    rewrite insert_insert_eq, set_peers_twice, new_recv_cons, <- app_assoc. reflexivity.
Qed.

Lemma sendOffer_run r p pc :
  peers r !! p = Some pc ->
  sendOffer (Some p) r =
  (mkRoom (router r) (<[p := PC.setLocalDescription (PC.createOffer pc) pc]> (peers r))
          (onRtp r) (inflight r ++ [p]), [], Some tt).
Proof.
  intros Hp. unfold sendOffer.
  rewrite (js_bind_ok _ _ _ _ _ _ (need_pc_run r p pc Hp)). cbv beta iota.
  unfold js_bind. rewrite (modify_pc_insert r p pc) by done. done.
Qed.

(** The closed form of a successful [requestPublish], shared by the
    theorems about publishing. *)
Lemma requestPublish_closed r p pc ks :
  peers r !! p = Some pc ->
  let pc1 := with_transceivers
               (PC.transceivers pc ++ new_recv (length (PC.transceivers pc)) ks [p]) pc in
  requestPublish (JStr p) (JArr ((fun k => JStr (kind_str k)) <$> ks)) r =
  (mkRoom (router r) (<[p := PC.setLocalDescription (PC.createOffer pc1) pc1]> (peers r))
          (onRtp r) (inflight r ++ [p]), [], Some tt).
Proof.
  intros Hp pc1. unfold requestPublish. rewrite js_bind_get. cbv zeta.
  rewrite (peer_ref_some r p pc Hp). cbn [array_of_json]. js_simp.
  rewrite (js_bind_ok _ _ _ _ _ _ (map_recv_run r p pc ks Hp)). cbv beta iota.
  change (js_key (JStr p)) with p.
  set (pcM := with_transceivers
                (PC.transceivers pc ++ new_recv (length (PC.transceivers pc)) ks []) pc).
  rewrite (js_bind_ok _ _ _ _ _ _
             (forEach_subscribe_run _ p pcM (PC.transceivers pc) ks
                (lookup_insert_eq _ _ _) eq_refl)).
  cbv beta iota. unfold js_async.
  rewrite (sendOffer_run _ p pc1) by apply lookup_insert_eq. simpl.
  by rewrite !insert_insert_eq.
Qed.

(** C6: [requestPublish(peerId, kinds)] from an existing
    peer with a list of valid kinds: the peer connection gains one
    [recvonly] transceiver per kind, in order, at the next positions,
    each with the peer itself as [onTrack] subscriber; the offer of the
    new connection is installed as local description; one [sendOffer]
    is suspended; nothing is sent yet, nothing else changes, and
    nothing throws or rejects. *)
Theorem requestPublish_run r p pc ks :
  peers r !! p = Some pc ->
  let pc1 := with_transceivers
               (PC.transceivers pc ++ new_recv (length (PC.transceivers pc)) ks [p]) pc in
  requestPublish (JStr p) (JArr ((fun k => JStr (kind_str k)) <$> ks)) r =
  (mkRoom (router r) (<[p := PC.setLocalDescription (PC.createOffer pc1) pc1]> (peers r))
          (onRtp r) (inflight r ++ [p]), [], Some tt).
Proof. apply requestPublish_closed. Qed.

(** C12: the error paths of [requestPublish]: when [kinds] is
    not an array, [kinds.map] throws; when [peerId] names no peer, the
    first [peer.addTransceiver] throws, but with an empty [kinds] no
    method of [peer] runs before [sendOffer], an [async] function, so
    the handler returns and only the promise of [sendOffer] is
    rejected.  In every case the room is unchanged. *)
Theorem requestPublish_errors r v kinds :
  (array_of_json kinds = None -> requestPublish v kinds r = (r, [], None)) /\
  (peers r !! js_key v = None ->
     (kinds <> JArr [] -> requestPublish v kinds r = (r, [], None)) /\
     requestPublish v (JArr []) r = (r, ["sendOffer"], Some tt)).
Proof.
  split.
  - intros Ha. unfold requestPublish. rewrite js_bind_get. cbv zeta. rewrite Ha. done.
  - intros Hp. split.
    + intros Hne. unfold requestPublish. rewrite js_bind_get. cbv zeta.
      rewrite (peer_ref_none r v Hp).
      destruct (array_of_json kinds) as [[|k ks]|] eqn:Ha; [| |done].
      * destruct kinds; simpl in Ha; try done. by injection Ha as ->.
      * js_simp. cbn [js_map]. js_simp.
        by rewrite (js_bind_throw _ _ r r [] (need_pc_none r)).
    + unfold requestPublish. rewrite js_bind_get. cbv zeta.
      rewrite (peer_ref_none r v Hp). reflexivity.
Qed.

(** ** [subscribe] and the forwarding it sets up *)

Lemma lookup_trackId_run r0 r s :
  lookup_trackId r0 (JStr s) r =
  (r, [], Some (reg_getTrack (js_split underscore s !! 0) (js_split underscore s !! 1) (router r0))).
Proof. reflexivity. Qed.

Lemma split_track_id pub tid :
  no_char underscore pub = true -> no_char underscore tid = true ->
  js_split underscore (String.append pub (String underscore tid)) = [pub; tid].
Proof. intros Hp Ht. rewrite js_split_app by done. by rewrite js_split_no_char. Qed.

(** A sendonly transceiver at position [n] for a track of kind [k]. *)
Definition send_tr (n : nat) (k : Kind) : RTCRtpTransceiver.t :=
  RTCRtpTransceiver.mk (pretty n) k Sendonly None None [] [].

Lemma subscribe_route_run r p pc rt :
  peers r !! p = Some pc ->
  subscribe_route (Some p) (Some rt) r =
  (mkRoom (router r)
     (<[p := with_transceivers (PC.transceivers pc ++
               [send_tr (length (PC.transceivers pc)) (track_kind (route_track rt))]) pc]> (peers r))
     (<[rt := default [] (onRtp r !! rt) ++
          [(p, length (PC.transceivers pc))]]> (onRtp r))
     (inflight r), [], Some tt).
Proof.
  intros Hp. unfold subscribe_route, js_async.
  rewrite (js_bind_ok _ _ _ _ _ _ (need_pc_run r p pc Hp)). cbv beta iota. js_simp.
  rewrite (js_bind_ok _ _ _ _ _ _ (addTransceiver_run r p pc _ Sendonly Hp)). done.
Qed.

Lemma subscribe_route_missing r p pc :
  peers r !! p = Some pc -> subscribe_route (Some p) None r = (r, ["subscribe"], Some tt).
Proof.
  intros Hp. unfold subscribe_route, js_async.
  rewrite (js_bind_ok _ _ _ _ _ _ (need_pc_run r p pc Hp)). done.
Qed.

(** ** [subscribe] for a batch of track ids *)

(** The route the first [map] of [subscribe] finds for a track id. *)
Definition route_of r (s : string) : option Route :=
  reg_getTrack (js_split underscore s !! 0) (js_split underscore s !! 1) (router r).

(** The [sendonly] transceivers [subscribe] adds for the found routes,
    from position [n] on, in the order of the routes. *)
Definition new_send (n : nat) (rts : list Route) : list RTCRtpTransceiver.t :=
  imap (fun i rt => send_tr (n + i) (track_kind (route_track rt))) rts.

Lemma new_send_cons n rt rts :
  new_send n (rt :: rts) = send_tr n (track_kind (route_track rt)) :: new_send (S n) rts.
Proof.
  unfold new_send. rewrite imap_cons. f_equal; [by rewrite Nat.add_0_r|].
  apply imap_ext. intros i x _. simpl. by rewrite Nat.add_succ_r.
Qed.

Lemma lookup_ids_run r ids :
  js_map (lookup_trackId r) (JStr <$> ids) r = (r, [], Some (route_of r <$> ids)).
Proof.
  induction ids as [|s ids IH]; [done|]. rewrite !fmap_cons. cbn [js_map].
  rewrite (js_bind_ok _ _ _ _ _ _ (lookup_trackId_run r r s)). cbv beta iota.
  by rewrite (js_bind_ok _ _ _ _ _ _ IH).
Qed.

Lemma onRtp_insert_keep (m : gmap Route (list (string * nat))) key key' t t' :
  t ∈ default [] (m !! key) ->
  t ∈ default [] (<[key' := default [] (m !! key') ++ [t']]> m !! key).
Proof.
  intros Ht. destruct (decide (key' = key)) as [<-|Hne].
  - rewrite lookup_insert_eq. simpl. set_solver.
  - by rewrite lookup_insert_ne.
Qed.

(** The [forEach] of [subscribe] over the routes found: one [sendonly]
    transceiver per found route, in order, each subscribed to its
    track's [onRtp]; one rejected promise per missing route; nothing
    else of the room changes and earlier [onRtp] subscribers stay. *)
Lemma forEach_route_run r p pc routes :
  peers r !! p = Some pc ->
  let res := js_forEach (subscribe_route (Some p)) routes r in
  let n := length (PC.transceivers pc) in
  res.2 = Some tt /\
  res.1.2 = replicate (length (filter (fun o => o = None) routes)) "subscribe" /\
  router res.1.1 = router r /\ inflight res.1.1 = inflight r /\
  peers res.1.1 !! p =
    Some (with_transceivers (PC.transceivers pc ++ new_send n (omap (fun o => o) routes)) pc) /\
  (forall key t, t ∈ default [] (onRtp r !! key) -> t ∈ default [] (onRtp res.1.1 !! key)) /\
  (forall i rt, omap (fun o => o) routes !! i = Some rt ->
     (p, n + i) ∈ default [] (onRtp res.1.1 !! rt)).
Proof.
  revert r pc. induction routes as [|[rt|] routes IH]; intros r pc Hp res n.
  - unfold res. simpl. rewrite app_nil_r, with_transceivers_id. by split_and!.
  - unfold res. cbn [js_forEach].
    rewrite (js_bind_ok _ _ _ _ _ _ (subscribe_route_run r p pc rt Hp)). cbv beta iota.
    match goal with |- context [js_forEach _ routes ?r1] =>
      destruct (IH r1 _ (lookup_insert_eq _ _ _)) as (Ho & He & Hrt & Hin & Hpc & Hkeep & Hnew);
      destruct (js_forEach _ routes r1) as [[s2 e2] o2] end.
    simpl in *. rewrite filter_cons_False by done. rewrite length_app in Hpc, Hnew. simpl in Hpc, Hnew.
    split_and!; try done.
    + rewrite Hpc, new_send_cons, <- app_assoc, Nat.add_1_r. done.
    + intros key t Ht. apply Hkeep. by apply onRtp_insert_keep.
    + intros [|i] rt' Hi; simpl in Hi.
      * injection Hi as <-. apply Hkeep. rewrite lookup_insert_eq, Nat.add_0_r. set_solver.
      * unfold n. replace (length (PC.transceivers pc) + S i)
          with (length (PC.transceivers pc) + 1 + i) by lia. apply Hnew, Hi.
  - unfold res. cbn [js_forEach].
    rewrite (js_bind_ok _ _ _ _ _ _ (subscribe_route_missing r p pc Hp)). cbv beta iota.
    destruct (IH r pc Hp) as (Ho & He & Hrt & Hin & Hpc & Hkeep & Hnew).
    destruct (js_forEach _ routes r) as [[s2 e2] o2]. simpl in *.
    rewrite He. by split_and!.
Qed.

Lemma subscribe_one_run r p pc pub tid rt :
  peers r !! p = Some pc ->
  no_char underscore pub = true -> no_char underscore tid = true ->
  reg_getTrack (Some pub) (Some tid) (router r) = Some rt ->
  let pc1 := with_transceivers (PC.transceivers pc ++
               [send_tr (length (PC.transceivers pc)) (track_kind (route_track rt))]) pc in
  let key := rt in
  subscribe (JStr p) (JArr [JStr (String.append pub (String underscore tid))]) r =
  (mkRoom (router r) (<[p := PC.setLocalDescription (PC.createOffer pc1) pc1]> (peers r))
     (<[key := default [] (onRtp r !! key) ++ [(p, length (PC.transceivers pc))]]> (onRtp r))
     (inflight r ++ [p]), [], Some tt).
Proof.
  intros Hp Hpub Htid Hrt pc1 key. unfold subscribe. rewrite js_bind_get. cbv zeta.
  rewrite (peer_ref_some r p pc Hp). cbn [array_of_json]. js_simp.
  simpl (js_map _ _). js_simp.
  rewrite (js_bind_ok _ _ _ _ _ _ (lookup_trackId_run r r _)). cbv beta iota.
  rewrite split_track_id by done. cbn [lookup]. simpl (list_lookup _ _). rewrite Hrt. js_simp.
  cbn [js_forEach]. rewrite js_bind_assoc.
  rewrite (js_bind_ok _ _ _ _ _ _ (subscribe_route_run r p pc rt Hp)). cbv beta iota. js_simp.
  unfold js_async. rewrite (sendOffer_run _ p pc1) by apply lookup_insert_eq. simpl.
  by rewrite insert_insert_eq.
Qed.

(** C10: subscribing to a registered track sets up forwarding:
    [subscribe(peerId, ["<publisher>_<track>"])] from an existing peer
    adds a [sendonly] transceiver of the track's kind at the next
    position, subscribes it to the track's [onRtp], renegotiates, and
    neither throws nor rejects; once the transport has given that
    transceiver its sender parameters, every RTP packet of the track is
    handed to it ([transceiver.sendRtp]). *)
Theorem subscribe_then_forward r p pc pub tid rt prm rtp :
  peers r !! p = Some pc ->
  no_char underscore pub = true -> no_char underscore tid = true ->
  reg_getTrack (Some pub) (Some tid) (router r) = Some rt ->
  let n := length (PC.transceivers pc) in
  let res := subscribe (JStr p) (JArr [JStr (String.append pub (String underscore tid))]) r in
  res.1.2 = [] /\ res.2 = Some tt /\ inflight res.1.1 = inflight r ++ [p] /\
  (exists pc', peers res.1.1 !! p = Some pc' /\
               PC.transceivers pc' !! n = Some (send_tr n (track_kind (route_track rt)))) /\
  (p, n, (rtp, prm)) ∈
    forwardRtp rt rtp (set_sender_params p n prm res.1.1).
Proof.
  intros Hp Hpub Htid Hrt n res. unfold res. rewrite (subscribe_one_run r p pc pub tid rt) by done.
  simpl. split_and!; [done | done | done | |].
  - eexists. split; [apply lookup_insert_eq|]. simpl.
    rewrite lookup_app_r by lia. by rewrite Nat.sub_diag.
  - apply forwardRtp_elem. simpl. rewrite lookup_insert_eq. simpl. split; [set_solver|].
    unfold set_sender_params. simpl. rewrite lookup_alter_eq, lookup_insert_eq. simpl.
    rewrite lookup_app_r, Nat.sub_diag by lia. simpl.
    eexists. eexists. split; [done|]. split.
    + simpl. apply list_lookup_insert_eq. unfold n. rewrite length_app. simpl. lia.
    + done.
Qed.

(** C13: [subscribe(peerId, trackIds)] for a batch of ids from an
    existing peer: the peer gains one [sendonly] transceiver per id the
    registry knows, in the order of the ids, at the next positions,
    each subscribed to its track's [onRtp]; each unknown id rejects one
    promise of the [async] callback and adds nothing; the peer is
    renegotiated once, and neither the registry nor the handler's
    result depends on how many ids were missing. *)
Theorem subscribe_batch r p pc ids :
  peers r !! p = Some pc ->
  let routes := route_of r <$> ids in
  let found := omap (fun o => o) routes in
  let n := length (PC.transceivers pc) in
  let res := subscribe (JStr p) (JArr (JStr <$> ids)) r in
  res.2 = Some tt /\
  res.1.2 = replicate (length (filter (fun o => o = None) routes)) "subscribe" /\
  router res.1.1 = router r /\ inflight res.1.1 = inflight r ++ [p] /\
  (exists pc', peers res.1.1 !! p = Some pc' /\
     PC.transceivers pc' = PC.transceivers pc ++ new_send n found) /\
  (forall i rt, found !! i = Some rt ->
     (p, n + i) ∈ default [] (onRtp res.1.1 !! rt)).
Proof.
  intros Hp routes found n res. unfold res, subscribe. rewrite js_bind_get. cbv zeta.
  rewrite (peer_ref_some r p pc Hp). cbn [array_of_json]. js_simp.
  rewrite (js_bind_ok _ _ _ _ _ _ (lookup_ids_run r ids)). cbv beta iota.
  destruct (forEach_route_run r p pc routes Hp) as (Ho & He & Hrt & Hin & Hpc & _ & Hnew).
  destruct (js_forEach _ routes r) as [[s e] o] eqn:E. simpl in Ho, He, Hrt, Hin, Hpc, Hnew. subst o.
  rewrite (js_bind_ok _ _ _ _ _ _ E). unfold js_async.
  rewrite (sendOffer_run _ p _ Hpc). simpl. rewrite app_nil_r.
  split_and!; [done | done | done | by rewrite Hin | |].
  - eexists. split; [apply lookup_insert_eq | done].
  - exact Hnew.
Qed.

(** ** [getTracks] *)

Lemma sendRPC_run r p pc msg :
  peers r !! p = Some pc ->
  sendRPC msg (Some p) r = (set_peers (<[p := PC.send msg pc]> (peers r)) r, [], Some tt).
Proof.
  intros Hp. unfold sendRPC. rewrite (js_bind_ok _ _ _ _ _ _ (need_pc_run r p pc Hp)).
  cbv beta iota. by rewrite (modify_pc_insert r p pc).
Qed.

(** C14: [getTracks(peerId)] sends the peer one [handleTracks]
    message carrying the registry's [trackInfos] as JSON and changes
    nothing else; with an unknown [peerId] it throws and changes
    nothing. *)
Theorem getTracks_spec r v p pc :
  (peers r !! js_key v = None -> getTracks v r = (r, [], None)) /\
  (peers r !! p = Some pc ->
   getTracks (JStr p) r =
   (set_peers (<[p := PC.send (mkRPC "handleTracks"
                                 [JArr (trackInfo_to_json <$> reg_trackInfos (router r))]) pc]>
                 (peers r)) r, [], Some tt)).
Proof.
  split.
  - intros Hn. unfold getTracks. rewrite js_bind_get, (peer_ref_none r v Hn). done.
  - intros Hp. unfold getTracks. rewrite js_bind_get, (peer_ref_some r p pc Hp).
    by apply sendRPC_run.
Qed.

Lemma peer_ref_Some_pc r v p : peer_ref r v = Some p -> exists pc, peers r !! p = Some pc.
Proof. unfold peer_ref. destruct (peers r !! js_key v) eqn:E; intros [= <-]. eauto. Qed.

(** C15: [handleCandidate] and [handleAnswer] on every branch.  A
    candidate for an unknown peer makes the handler throw at once (its
    [peer.addIceCandidate] runs before any [await]); a malformed one
    rejects the unawaited [addIceCandidate] promise; otherwise it is
    added to the connection at once, whatever the negotiation state
    (room.ts buffers nothing).  [handleAnswer] is [async]: an unknown
    peer or a malformed answer only rejects its promise; otherwise the
    answer becomes the peer's remote description.  Neither touches
    anything else. *)
Theorem candidate_answer_run r v c a :
  handleCandidate v c r =
    match peer_ref r v with
    | None => (r, [], None)
    | Some p =>
        match candidate_of_json c with
        | Some c' => (set_peers (alter (PC.addIceCandidate c') p (peers r)) r, [], Some tt)
        | None => (r, ["addIceCandidate"], Some tt)
        end
    end /\
  handleAnswer v a r =
    match peer_ref r v, sdp_of_json a with
    | Some p, Some d => (set_peers (alter (PC.setRemoteDescription d) p (peers r)) r, [], Some tt)
    | _, _ => (r, ["handleAnswer"], Some tt)
    end.
Proof.
  unfold handleCandidate, handleAnswer, js_async. rewrite !js_bind_get.
  destruct (peer_ref r v) as [p|] eqn:E; [|done].
  destruct (peer_ref_Some_pc _ _ _ E) as [pc Hp].
  rewrite !(js_bind_ok _ _ _ _ _ _ (need_pc_run r p pc Hp)). cbn -[modify_pc].
  split; [destruct (candidate_of_json c) | destruct (sdp_of_json a)]; done.
Qed.


(** ** A track arriving on a transceiver of [requestPublish] *)

(** werift delivers a first track to a fresh [recvonly] transceiver
    whose one [onTrack] subscriber is [who]: the track is pushed, and
    the callback registers it with the router under [who]. *)
Lemma receiveTrack_fresh_run r p pc i k who track :
  peers r !! p = Some pc -> PC.transceivers pc !! i = Some (recv_tr i k [who]) ->
  receiveTrack p i track r =
  (mkRoom (reg_addTrack who track i (router r))
          (<[p := PC.setTransceiver i (RTCRtpTransceiver.with_tracks (recv_tr i k [who]) [track]) pc]>
             (peers r))
          (onRtp r) (inflight r), [], Some tt).
Proof.
  intros Hp Ht. unfold receiveTrack.
  rewrite (js_bind_ok _ _ _ _ _ _ (need_pc_run r p pc Hp)). cbv beta iota.
  rewrite Ht. js_simp. cbn -[modify_pc reg_addTrack]. unfold js_bind, modify_pc.
  by rewrite (alter_Some_insert _ _ _ pc).
Qed.

End Run.

(** Witnesses. *)

Definition pub_room : Room Router.t := (join "p1" empty_room).1.1.

Lemma requestPublish_run_witness :
  exists pc, peers pub_room !! "p1" = Some pc /\
  let pc1 := with_transceivers
               (PC.transceivers pc ++ new_recv (length (PC.transceivers pc)) [Video] ["p1"]) pc in
  requestPublish (JStr "p1") (JArr ((fun k => JStr (kind_str k)) <$> [Video])) pub_room =
  (mkRoom (router pub_room) (<[ "p1" := PC.setLocalDescription (PC.createOffer pc1) pc1]>
            (peers pub_room)) (onRtp pub_room) (inflight pub_room ++ ["p1"]), [], Some tt).
Proof. eexists. split; [reflexivity|]. apply requestPublish_run. reflexivity. Defined.

Lemma requestPublish_errors_witness :
  peers pub_room !! js_key (JStr "p9") = None /\
  requestPublish (JStr "p9") (JArr [JStr "video"]) pub_room = (pub_room, [], None) /\
  requestPublish (JStr "p9") (JArr []) pub_room = (pub_room, ["sendOffer"], Some tt).
Proof.
  assert (Hp : peers pub_room !! js_key (JStr "p9") = None) by reflexivity.
  destruct (proj2 (requestPublish_errors pub_room (JStr "p9") (JArr [JStr "video"])) Hp)
    as [H1 H2].
  split_and!; [exact Hp | apply H1; discriminate | exact H2].
Defined.

(** ** Track ids, against the registry's laws *)

Section Laws.
Context `{TrackRegistryLaws R}.

(** C11: registry consistency across the server's handlers.  After
    a publisher's [requestPublish] for one kind, and werift's delivery
    of its track to the new [recvonly] transceiver, the [getTracks] of
    any other peer sends a [handleTracks] listing that track as
    [<publisher>_<track id>]; every track listed before is still listed
    unless the new one replaced it. *)
Theorem publish_track_listed r p pc q qc k track :
  reg_wf (router r) -> peers r !! p = Some pc -> peers r !! q = Some qc -> q <> p ->
  let n := length (PC.transceivers pc) in
  let r2 := (receiveTrack p n track
               (requestPublish (JStr p) (JArr [JStr (kind_str k)]) r).1.1).1.1 in
  getTracks (JStr q) r2 =
    (set_peers (<[q := PC.send (mkRPC "handleTracks"
                                  [JArr (trackInfo_to_json <$> reg_trackInfos (router r2))]) qc]>
                  (peers r2)) r2, [], Some tt) /\
  trackInfo_of_route (mkRoute p track n) ∈ reg_trackInfos (router r2) /\
  (forall info, info ∈ reg_trackInfos (router r) ->
     info ∈ reg_trackInfos (router r2) \/
     exists rt, info = trackInfo_of_route rt /\ route_peerId rt = p /\
                track_id (route_track rt) = track_id track).
Proof.
  intros Hwf Hp Hq Hne n r2. unfold r2.
  pose proof (requestPublish_closed r p pc [k] Hp) as E1. cbv zeta in E1.
  change ((fun k0 => JStr (kind_str k0)) <$> [k]) with [JStr (kind_str k)] in E1.
  rewrite E1. cbn [fst].
  set (pc1 := with_transceivers (PC.transceivers pc ++ new_recv n [k] [p]) pc).
  assert (Hn : PC.transceivers (PC.setLocalDescription (PC.createOffer pc1) pc1) !! n
               = Some (recv_tr n k [p])).
  { simpl. rewrite lookup_app_r, Nat.sub_diag by lia. rewrite new_recv_cons. done. }
  rewrite (receiveTrack_fresh_run _ p _ n k p track (lookup_insert_eq _ _ _) Hn). cbn [fst].
  match goal with |- context [getTracks (JStr q) ?s] =>
    assert (Hq2 : peers s !! q = Some qc)
      by (cbn [peers]; rewrite !lookup_insert_ne by done; exact Hq);
    unfold getTracks; rewrite js_bind_get, (peer_ref_some s q qc Hq2), (sendRPC_run s q qc _ Hq2)
  end.
  cbn [router]. destruct (reg_addTrack_visible p track n (router r) Hwf) as (_ & Hnew & Hold).
  by split_and!.
Qed.

(** C21: the ids [getTracks] lists resolve back in [subscribe]:
    every listed id is [<publisher>_<track>] of a registered route, and
    when neither part contains ['_'] the lookup of [subscribe] finds
    that route; when the track id is [a_b], the lookup asks the
    registry for track [a] of the publisher instead. *)
Theorem track_ids_roundtrip (r : Room R) info :
  reg_wf (router r) -> info ∈ reg_trackInfos (router r) ->
  exists rt, info = trackInfo_of_route rt /\
    (no_char underscore (route_peerId rt) = true ->
     no_char underscore (track_id (route_track rt)) = true ->
     lookup_trackId r (JStr (ti_id info)) r = (r, [], Some (Some rt))) /\
    (forall a b, track_id (route_track rt) = String.append a (String underscore b) ->
     no_char underscore (route_peerId rt) = true -> no_char underscore a = true ->
     lookup_trackId r (JStr (ti_id info)) r =
     (r, [], Some (reg_getTrack (Some (route_peerId rt)) (Some a) (router r)))).
Proof.
  intros Hwf Hin. apply (reg_trackInfos_spec _ _ Hwf) in Hin as [rt [Hget ->]].
  exists rt. split_and!; [done | |].
  - intros Hp Ht. rewrite lookup_trackId_run. simpl. rewrite split_track_id by done.
    simpl. by rewrite Hget.
  - intros a b Hab Hp Ha. rewrite lookup_trackId_run. simpl. rewrite Hab.
    rewrite !js_split_app by done. by destruct (js_split underscore b).
Qed.

End Laws.

(** A publisher ["pa"] whose video track ["t1"] has arrived, and a
    subscriber ["pb"]. *)
Definition fwd_room : Room Router.t :=
  let r1 := (join "pa" empty_room).1.1 in
  let r2 := (dispatch "c" (mkRPC "requestPublish" [JStr "pa"; JArr [JStr "video"]]) r1).1.1 in
  let r3 := (receiveTrack "pa" 0 (mkRtpTrack "t1" Video None (Some 7%Z)) r2).1.1 in
  (join "pb" r3).1.1.

Definition fwd_params : RTCRtpParameters := mkParams ["VP8"] "".
Definition fwd_packet : RtpPacket := mkRtp 96 1 7.

Lemma subscribe_then_forward_witness :
  exists pc rt,
  peers fwd_room !! "pb" = Some pc /\
  reg_getTrack (Some "pa") (Some "t1") (router fwd_room) = Some rt /\
  let n := length (PC.transceivers pc) in
  let res := subscribe (JStr "pb") (JArr [JStr (String.append "pa" (String underscore "t1"))]) fwd_room in
  res.1.2 = [] /\ res.2 = Some tt /\ inflight res.1.1 = inflight fwd_room ++ ["pb"] /\
  (exists pc', peers res.1.1 !! "pb" = Some pc' /\
               PC.transceivers pc' !! n = Some (send_tr n (track_kind (route_track rt)))) /\
  ("pb", n, (fwd_packet, fwd_params)) ∈
    forwardRtp rt fwd_packet
      (set_sender_params "pb" n fwd_params res.1.1).
Proof.
  eexists. eexists.
  assert (Hp : peers fwd_room !! "pb" = Some (PC.setLocalDescription (PC.createOffer PC.create) PC.create))
    by (vm_compute; reflexivity).
  assert (Hr : reg_getTrack (Some "pa") (Some "t1") (router fwd_room) =
               Some (mkRoute "pa" (mkRtpTrack "t1" Video None (Some 7%Z)) 0))
    by (vm_compute; reflexivity).
  split; [exact Hp|]. split; [exact Hr|].
  apply (subscribe_then_forward fwd_room "pb" _ "pa" "t1" _ fwd_params fwd_packet Hp);
    [reflexivity | reflexivity | exact Hr].
Defined.

Lemma getTracks_spec_witness :
  peers fwd_room !! js_key (JStr "zz") = None /\
  getTracks (JStr "zz") fwd_room = (fwd_room, [], None) /\
  peers fwd_room !! "pb" = Some (PC.setLocalDescription (PC.createOffer PC.create) PC.create) /\
  getTracks (JStr "pb") fwd_room =
  (set_peers (<["pb" := PC.send (mkRPC "handleTracks"
                          [JArr (trackInfo_to_json <$> reg_trackInfos (router fwd_room))])
                         (PC.setLocalDescription (PC.createOffer PC.create) PC.create)]>
                (peers fwd_room)) fwd_room, [], Some tt).
Proof.
  assert (Hn : peers fwd_room !! js_key (JStr "zz") = None) by (vm_compute; reflexivity).
  assert (Hp : peers fwd_room !! "pb" = Some (PC.setLocalDescription (PC.createOffer PC.create) PC.create))
    by (vm_compute; reflexivity).
  destruct (getTracks_spec fwd_room (JStr "zz") "pb"
              (PC.setLocalDescription (PC.createOffer PC.create) PC.create)) as [H1 H2].
  split_and!; [exact Hn | exact (H1 Hn) | exact Hp | exact (H2 Hp)].
Defined.

(** A publisher whose track id contains ['_']. *)
Definition underscore_track : RtpTrack := mkRtpTrack "t_1" Video None (Some 9%Z).

Definition underscore_room : Room Router.t :=
  let r1 := (join "pa" empty_room).1.1 in
  let r2 := (dispatch "c" (mkRPC "requestPublish" [JStr "pa"; JArr [JStr "video"]]) r1).1.1 in
  (receiveTrack "pa" 0 underscore_track r2).1.1.

Definition underscore_info : TrackInfo := trackInfo_of_route (mkRoute "pa" underscore_track 0).

Lemma track_ids_roundtrip_witness :
  reg_wf (router underscore_room) /\
  underscore_info ∈ reg_trackInfos (router underscore_room) /\
  exists rt, underscore_info = trackInfo_of_route rt /\
    (no_char underscore (route_peerId rt) = true ->
     no_char underscore (track_id (route_track rt)) = true ->
     lookup_trackId underscore_room (JStr (ti_id underscore_info)) underscore_room =
       (underscore_room, [], Some (Some rt))) /\
    (forall a b, track_id (route_track rt) = String.append a (String underscore b) ->
     no_char underscore (route_peerId rt) = true -> no_char underscore a = true ->
     lookup_trackId underscore_room (JStr (ti_id underscore_info)) underscore_room =
     (underscore_room, [], Some (reg_getTrack (Some (route_peerId rt)) (Some a)
                                              (router underscore_room)))).
Proof.
  assert (Hr : router underscore_room = Router.addTrack "pa" underscore_track 0 Router.empty)
    by (vm_compute; reflexivity).
  assert (Hwf : reg_wf (router underscore_room))
    by (change (Router.wf (router underscore_room)); rewrite Hr;
        apply Router.wf_addTrack, map_Forall_empty).
  assert (Hin : underscore_info ∈ reg_trackInfos (router underscore_room))
    by (apply (bool_decide_unpack _); vm_compute; reflexivity).
  split_and!; [exact Hwf | exact Hin | exact (track_ids_roundtrip underscore_room _ Hwf Hin)].
Defined.

(** Two peers, ["pa"] and ["pb"], in a fresh room. *)
Definition reg_room : Room Router.t := (join "pb" (join "pa" empty_room).1.1).1.1.
Definition reg_track : RtpTrack := mkRtpTrack "t1" Video None (Some 7%Z).
Definition joined_pc : PC.t := PC.setLocalDescription (PC.createOffer PC.create) PC.create.

Lemma publish_track_listed_witness :
  reg_wf (router reg_room) /\ peers reg_room !! "pa" = Some joined_pc /\
  peers reg_room !! "pb" = Some joined_pc /\
  trackInfo_of_route (mkRoute "pa" reg_track 0) ∈
    reg_trackInfos (router (receiveTrack "pa" 0 reg_track
                              (requestPublish (JStr "pa") (JArr [JStr (kind_str Video)]) reg_room).1.1).1.1).
Proof.
  assert (Hw : reg_wf (router reg_room)) by apply (reg_wf_empty (R := Router.t)).
  assert (Hp : peers reg_room !! "pa" = Some joined_pc) by (vm_compute; reflexivity).
  assert (Hq : peers reg_room !! "pb" = Some joined_pc) by (vm_compute; reflexivity).
  split_and!; [exact Hw | exact Hp | exact Hq |].
  exact (proj1 (proj2 (publish_track_listed reg_room "pa" joined_pc "pb" joined_pc Video reg_track
                         Hw Hp Hq ltac:(discriminate)))).
Defined.

Definition batch_ids : list string := ["pa_t1"; "pa_t9"].

Lemma subscribe_batch_witness :
  peers fwd_room !! "pb" = Some joined_pc /\
  (subscribe (JStr "pb") (JArr (JStr <$> batch_ids)) fwd_room).1.2 = ["subscribe"] /\
  exists pc', peers (subscribe (JStr "pb") (JArr (JStr <$> batch_ids)) fwd_room).1.1 !! "pb" = Some pc' /\
              PC.transceivers pc' = [send_tr 0 Video].
Proof.
  assert (Hp : peers fwd_room !! "pb" = Some joined_pc) by (vm_compute; reflexivity).
  destruct (subscribe_batch fwd_room "pb" joined_pc batch_ids Hp)
    as (_ & He & _ & _ & [pc' [Hpc' Htr]] & _).
  split_and!; [exact Hp | rewrite He; vm_compute; reflexivity |].
  exists pc'. split; [exact Hpc' | rewrite Htr; vm_compute; reflexivity].
Defined.

