(* ===== verification/TaskQueue.v ===== *)
(** * TaskQueue: the SDK's [PromiseQueue]

    [ClientSDK.subscribe] pushes its work on [subscribeQueue], a
    [PromiseQueue] from the SDK's [util] module, which is not among the
    staged sources; it is modelled from the spec (sections 4.4 and 9):
    a FIFO of jobs with a single worker.  [push] starts the job at once
    when the worker is idle and queues it otherwise; [finish] completes
    the running job and starts the next queued one.  Every start and
    completion is logged, so that the serialization the spec asks for is
    a statement about the log: it is the sequence
    [Start j1; Done j1; Start j2; Done j2; ...] of the submitted jobs in
    submission order, possibly ending with the [Start] of the running
    job.

    The queue also refines an abstract FIFO whose head is the running
    job ([abs], [spec_step], [queue_refines_fifo]), and its worker's run
    loop [drain], with fuel, is idle after as many completions as there
    are jobs ([drain_completes]). *)

From S2P Require Import Prelude.

Module PromiseQueue.
Section Queue.
Context {J : Type}.

Record t := mk { queue : list J; running : option J }.

Inductive event := Start (j : J) | Done (j : J).

Definition empty : t := mk [] None.

(** [push(job)]: enqueue, and [run()] when not running. *)
Definition push (j : J) (q : t) : t * list event :=
  match running q with
  | None => (mk (queue q) (Some j), [Start j])
  | Some _ => (mk (queue q ++ [j]) (running q), [])
  end.

(** The running job's promise resolves: [task.done(res)], then [run()]
    again when the queue is not empty. *)
Definition finish (q : t) : t * list event :=
  match running q with
  | None => (q, [])
  | Some j =>
      match queue q with
      | [] => (mk [] None, [Done j])
      | j' :: rest => (mk rest (Some j'), [Done j; Start j'])
      end
  end.

(** The queue with the jobs pushed so far and the log. *)
Record world := World { wq : t; wlog : list event; submitted : list J }.

Inductive qstep : world -> world -> Prop :=
| qstep_push j w :
    qstep w (World (push j (wq w)).1 (wlog w ++ (push j (wq w)).2) (submitted w ++ [j]))
| qstep_finish w j :
    running (wq w) = Some j ->
    qstep w (World (finish (wq w)).1 (wlog w ++ (finish (wq w)).2) (submitted w)).

Definition start : world := World empty [] [].

(** The log of completed jobs [js], in order. *)
Definition serial_log (js : list J) : list event := js ≫= (fun j => [Start j; Done j]).

Definition opt_list (o : option J) : list J := match o with Some j => [j] | None => [] end.

(** The invariant: the submitted jobs are the completed ones, the running
    one and the queued ones, in this order; the queue is empty when
    nothing runs; the log is serial. *)
Definition queue_inv (w : world) : Prop :=
  exists done_jobs,
    submitted w = done_jobs ++ opt_list (running (wq w)) ++ queue (wq w) /\
    (running (wq w) = None -> queue (wq w) = []) /\
    wlog w = serial_log done_jobs ++ (Start <$> opt_list (running (wq w))).

Lemma serial_log_cons j js :
  serial_log (j :: js) = Start j :: Done j :: serial_log js.
Proof. reflexivity. Qed.

Lemma serial_log_app js1 js2 : serial_log (js1 ++ js2) = serial_log js1 ++ serial_log js2.
Proof. unfold serial_log. by rewrite bind_app. Qed.

Lemma qstep_inv w w' : qstep w w' -> queue_inv w -> queue_inv w'.
Proof.
  intros Hs [dn [Hsub [Hidle Hlog]]]. unfold queue_inv.
  destruct Hs as [j w|w j Hrun]; simpl in *.
  - unfold push. destruct (running (wq w)) as [j0|] eqn:Er; simpl in *.
    + exists dn. split_and!; [rewrite Hsub; by rewrite <- app_assoc | done |].
      by rewrite app_nil_r.
    + exists dn. rewrite (Hidle eq_refl) in Hsub |- *. rewrite Hsub, Hlog.
      split_and!; by rewrite ?app_nil_r.
  - unfold finish. rewrite Hrun in *. destruct (queue (wq w)) as [|j' rest] eqn:Eq; simpl in *.
    + exists (dn ++ [j]). rewrite Hsub, Hlog.
      split_and!; [by rewrite <- app_assoc | done |].
      by rewrite serial_log_app, app_nil_r, <- app_assoc.
    + exists (dn ++ [j]). rewrite Hsub, Hlog.
      split_and!; [by rewrite <- app_assoc | done |].
      by rewrite serial_log_app, <- !app_assoc.
Qed.

Lemma queue_inv_start : queue_inv start.
Proof. exists []. done. Qed.

(** ** Refinement of a FIFO with one worker

    The abstract queue is the list of jobs not yet completed, the first
    one running.  [abs] maps the two fields of the implementation to it;
    [wf] is the shape the operations keep (an idle worker has nothing
    queued). *)

Definition abs (q : t) : list J := opt_list (running q) ++ queue q.

Definition wf (q : t) : Prop := running q = None -> queue q = [].

Lemma push_abs j q : wf q ->
  abs (push j q).1 = abs q ++ [j] /\ wf (push j q).1 /\
  (push j q).2 = match running q with Some _ => [] | None => [Start j] end.
Proof.
  unfold wf, abs, push. intros Hwf. destruct (running q) as [j0|] eqn:Hr; simpl.
  - split_and!; done.
  - rewrite (Hwf eq_refl). split_and!; done.
Qed.

Lemma finish_abs q : wf q ->
  abs (finish q).1 = tail (abs q) /\ wf (finish q).1 /\
  (finish q).2 = match abs q with
                 | [] => []
                 | j :: rest => Done j :: (Start <$> opt_list (head rest))
                 end.
Proof.
  unfold wf, abs, finish. intros Hwf. destruct (running q) as [j|] eqn:Hr; simpl.
  - destruct (queue q) as [|j' rest]; simpl; split_and!; done.
  - rewrite Hr, (Hwf eq_refl). split_and!; done.
Qed.

(** The worker's run loop: [finish] until the queue is idle, with
    [fuel] completions at most. *)
Fixpoint drain (fuel : nat) (q : t) : t * list event :=
  match fuel with
  | O => (q, [])
  | S n => match running q with
           | None => (q, [])
           | Some _ => let '(q1, e1) := finish q in
                       let '(q2, e2) := drain n q1 in (q2, e1 ++ e2)
           end
  end.

Lemma drain_step n q j :
  running q = Some j ->
  drain (S n) q = ((drain n (finish q).1).1, (finish q).2 ++ (drain n (finish q).1).2).
Proof. intros H. simpl. rewrite H. by destruct (finish q), (drain n _). Qed.

Lemma drain_idle n q : running q = None -> drain n q = (q, []).
Proof. intros H. destruct n; simpl; [done|]. by rewrite H. Qed.

Lemma drain_queue j rest k :
  drain (S (length rest) + k) (mk rest (Some j)) = (empty, Done j :: serial_log rest).
Proof.
  revert j. induction rest as [|j' rest IH]; intros j.
  - rewrite Nat.add_succ_l, drain_step with (j := j) by done. simpl. by rewrite drain_idle.
  - rewrite Nat.add_succ_l, drain_step with (j := j) by done.
    cbn [finish running queue fst snd length]. rewrite IH. done.
Qed.

(** The abstract FIFO: push at the back, the worker completes the head. *)
Inductive op := OPush (j : J) | OFinish.

Definition spec_step (o : op) (l : list J) : list J * list event :=
  match o with
  | OPush j => (l ++ [j], match l with [] => [Start j] | _ => [] end)
  | OFinish => match l with
               | [] => ([], [])
               | j :: rest => (rest, Done j :: (Start <$> opt_list (head rest)))
               end
  end.

Definition impl_step (o : op) (q : t) : t * list event :=
  match o with OPush j => push j q | OFinish => finish q end.

Fixpoint run {S} (step : op -> S -> S * list event) (ops : list op) (s : S) : S * list event :=
  match ops with
  | [] => (s, [])
  | o :: rest => let '(s1, e1) := step o s in
                 let '(s2, e2) := run step rest s1 in (s2, e1 ++ e2)
  end.

Lemma wf_idle q : wf q -> running q = None <-> abs q = [].
Proof.
  unfold wf, abs. intros Hwf. destruct (running q); simpl; [done|].
  rewrite (Hwf eq_refl). done.
Qed.

Lemma impl_step_abs o q : wf q ->
  wf (impl_step o q).1 /\
  (abs (impl_step o q).1, (impl_step o q).2) = spec_step o (abs q).
Proof.
  intros Hwf. destruct o as [j|]; simpl.
  - destruct (push_abs j q Hwf) as (Ha & Hw & He). split; [done|]. rewrite Ha, He.
    f_equal. destruct (running q) eqn:Hr.
    + destruct (abs q) eqn:Habs; [|done]. apply wf_idle in Habs; congruence.
    + by rewrite (proj1 (wf_idle q Hwf) Hr).
  - destruct (finish_abs q Hwf) as (Ha & Hw & He). split; [done|]. rewrite Ha, He.
    by destruct (abs q).
Qed.

(** The queue refines the abstract FIFO: along any sequence of
    [push] and completions from a well-formed queue, the jobs not yet
    completed are those of the abstract FIFO, the starts and completions
    it logs are the abstract ones, and the queue stays well formed. *)
Lemma queue_refines_fifo (ops : list op) (q : t) :
  wf q ->
  abs (run impl_step ops q).1 = (run spec_step ops (abs q)).1 /\
  (run impl_step ops q).2 = (run spec_step ops (abs q)).2 /\
  wf (run impl_step ops q).1.
Proof.
  revert q. induction ops as [|o ops IH]; intros q Hwf; [done|]. simpl.
  destruct (impl_step_abs o q Hwf) as [Hw1 Hs1].
  destruct (impl_step o q) as [q1 e1], (spec_step o (abs q)) as [l1 f1].
  simpl in *. injection Hs1 as <- <-.
  destruct (IH q1 Hw1) as (H1 & H2 & H3).
  destruct (run impl_step ops q1), (run spec_step ops (abs q1)). simpl in *.
  subst. done.
Qed.

(** The worker's run loop terminates: from a well-formed queue
    it is idle after as many completions as there are jobs, any further
    fuel changes nothing, and it logs the completion of the running job
    followed by the start and completion of each queued job in order. *)
Lemma drain_completes (q : t) (k : nat) :
  wf q ->
  drain (length (abs q) + k) q =
  (empty, match abs q with [] => [] | j :: rest => Done j :: serial_log rest end).
Proof.
  destruct q as [qs [j|]]; unfold wf, abs; simpl; intros Hwf.
  - apply drain_queue.
  - rewrite (Hwf eq_refl). by apply drain_idle.
Qed.

End Queue.
Arguments t : clear implicits.
Arguments world : clear implicits.
Arguments op : clear implicits.

End PromiseQueue.
