(* ===== verification/Client.v ===== *)
(** * Client: the browser SDK ([packages/client/src/endpoint/sdk.ts],
    [packages/client/src/domain/main.ts])

    State ([Client]): the peer id, [Main]'s table [mediaInfoByMID], the
    local peer connection's senders (with their simulcast encodings)
    and descriptions, the messages the data channel has sent (the
    [DataChannelConnection] of the SDK is not staged: each of its calls
    sends the protocol message of the same name, Rpc), the application
    events the SDK has executed, and [subscribeQueue].

    [Module Main] holds the operations of [Main] (main.ts), [Module
    ClientSDK] those of [ClientSDK] (sdk.ts); the SDK's [this.sfu]
    (domain/sfu, not staged) is taken to be [Main], whose [publish],
    [subscribe] and [handleLeave] it calls with the same arguments.

    An SDK call that awaits a reply of the server is split at that
    [await]: [ClientSDK.subscribe] starts a queued job that sends the request,
    [subscribe_reply] is the rest of the job, run when the server's
    [handleSubscribe] arrives ([Main.subscribe], then [sendAnswer]),
    after which the queue starts the next job.  [publish] and
    [unPublish] are split the same way.  [client_run] runs a sequence of
    subscribe calls and server replies; the theorems compare it with
    the abstract FIFO of TaskQueue. *)

From S2P Require Import Prelude Domain Rpc TaskQueue.

(** [MediaStreamTrack] as the SDK reads it. *)
Record LocalTrack := mkLocalTrack { lt_id : string; lt_kind : Kind }.

(** An entry of [params.encodings]. *)
Record Encoding := mkEncoding { maxBitrate : Z; scaleResolutionDownBy : Z; enc_rid : string }.

#[export] Instance Encoding_eq_dec : EqDecision Encoding.
Proof. solve_decision. Defined.

(** [RTCRtpSender] of the browser: its track and encodings. *)
Record Sender := mkSender { sender_track : LocalTrack; encodings : list Encoding }.

(** The events the SDK executes for the application ([context/events]). *)
Inductive ClientEvent :=
| OnTrack (mid : string) (info : option MediaInfo)
| OnUnPublish (info : MediaInfo)
| OnLeave (infos : list MediaInfo).

Record Client := mkClient {
  peerId : string;
  mediaInfoByMID : gmap string (option MediaInfo);
  senders : list Sender;
  localDescription : option SessionDescription;
  remoteDescription : option SessionDescription;
  sent : list RPC;
  emitted : list ClientEvent;
  subscribeQueue : PromiseQueue.t (list MediaInfo);
}.

Definition new_client (pid : string) : Client :=
  mkClient pid ∅ [] None None [] [] PromiseQueue.empty.

(** ** The browser peer connection (spec section 6) *)

(** [createAnswer()] for the remote offer. *)
Definition createAnswer (c : Client) : SessionDescription :=
  mkSdp Answer (default "" (sd_sdp <$> remoteDescription c)).

Definition set_remote (d : SessionDescription) (c : Client) : Client :=
  mkClient (peerId c) (mediaInfoByMID c) (senders c) (localDescription c) (Some d)
    (sent c) (emitted c) (subscribeQueue c).

Definition set_local (d : SessionDescription) (c : Client) : Client :=
  mkClient (peerId c) (mediaInfoByMID c) (senders c) (Some d) (remoteDescription c)
    (sent c) (emitted c) (subscribeQueue c).

(** [await setRemoteDescription(offer); setLocalDescription(await
    createAnswer())]; the answer is [localDescription]. *)
Definition answer_offer (offer : SessionDescription) (c : Client) : Client :=
  let c1 := set_remote offer c in set_local (createAnswer c1) c1.

Definition send (m : Msg) (c : Client) : Client :=
  mkClient (peerId c) (mediaInfoByMID c) (senders c) (localDescription c)
    (remoteDescription c) (sent c ++ [to_rpc m]) (emitted c) (subscribeQueue c).

Definition emit (e : ClientEvent) (c : Client) : Client :=
  mkClient (peerId c) (mediaInfoByMID c) (senders c) (localDescription c)
    (remoteDescription c) (sent c) (emitted c ++ [e]) (subscribeQueue c).

Definition set_queue (q : PromiseQueue.t (list MediaInfo)) (c : Client) : Client :=
  mkClient (peerId c) (mediaInfoByMID c) (senders c) (localDescription c)
    (remoteDescription c) (sent c) (emitted c) q.

(** [dcConnection.sendAnswer(answer)]. *)
Definition sendAnswer (c : Client) : Client :=
  send (HandleAnswer (peerId c) (default (createAnswer c) (localDescription c))) c.

(** ** Main ([domain/main.ts]) *)

Module Main.

(** The simulcast layers of [Main.publish]. *)
Definition simulcast_encodings : list Encoding :=
  [mkEncoding 680000 1 "high"; mkEncoding 36000 4 "low"].

(** [peer.addTrack(track)], then the encodings when [simulcast]. *)
Definition add_sender (track : LocalTrack) (sc : bool) : Sender :=
  mkSender track (if sc then simulcast_encodings else []).

(** [Main.publish(requests, offer)]. *)
Definition publish (requests : list (LocalTrack * bool)) (offer : SessionDescription)
    (c : Client) : Client :=
  let c1 := set_remote offer c in
  let c2 := mkClient (peerId c1) (mediaInfoByMID c1)
              (senders c1 ++ ((fun '(t, sc) => add_sender t sc) <$> requests))
              (localDescription c1) (remoteDescription c1) (sent c1) (emitted c1)
              (subscribeQueue c1) in
  set_local (createAnswer c2) c2.

(** [mediaInfoByMID[mid] = infos.find((v) => v.mediaId === mediaId)!]. *)
Definition bind_mid (infos : list MediaInfo) (m : gmap string (option MediaInfo))
    (p : MidPair) : gmap string (option MediaInfo) :=
  <[mp_mid p := List.find (fun v => String.eqb (mediaId v) (mp_mediaId p)) infos]> m.

(** [Main.subscribe(pairs, infos, offer)]. *)
Definition subscribe (pairs : list MidPair) (infos : list MediaInfo)
    (offer : SessionDescription) (c : Client) : Client :=
  let c1 := mkClient (peerId c) (foldl (bind_mid infos) (mediaInfoByMID c) pairs)
              (senders c) (localDescription c) (remoteDescription c) (sent c) (emitted c)
              (subscribeQueue c) in
  answer_offer offer c1.

(** [peer.ontrack]: [events.onTrack.execute(stream, mediaInfoByMID[mid])]. *)
Definition ontrack (mid : string) (c : Client) : Client :=
  emit (OnTrack mid (default None (mediaInfoByMID c !! mid))) c.

(** [Main.handleLeave(infos, offer)]. *)
Definition handleLeave (infos : list MediaInfo) (offer : SessionDescription) (c : Client)
    : Client :=
  emit (OnLeave infos) (answer_offer offer c).

(** [Main.join(offer, onIceCandidate, onAnswer)] up to [onAnswer]:
    [setRemoteDescription(offer)], [createAnswer()],
    [setLocalDescription(answer)], then [onAnswer] receives
    [peer.localDescription]. *)
Definition join (offer : SessionDescription) (c : Client) : Client * option SessionDescription :=
  let c' := answer_offer offer c in (c', localDescription c').

End Main.

(** ** ClientSDK ([endpoint/sdk.ts]) *)

Module ClientSDK.

(** The requests of [publish]: [{kind: track.kind, simulcast: !!simulcast}]. *)
Definition publish_requests (requests : list (LocalTrack * option bool)) : list RequestPublish :=
  (fun '(t, sc) => mkRequestPublish (lt_kind t) (default false sc)) <$> requests.

(** [publish(requests)] up to [await dcConnection.publish(...)]. *)
Definition publish (requests : list (LocalTrack * option bool)) (c : Client) : Client :=
  send (Publish (peerId c) (publish_requests requests)) c.

(** The rest of [publish], when the offer arrives. *)
Definition publish_reply (requests : list (LocalTrack * option bool))
    (offer : SessionDescription) (c : Client) : Client :=
  sendAnswer (Main.publish ((fun '(t, sc) => (t, default false sc)) <$> requests) offer c).

(** [unPublish(info)] up to its [await]: the event first, then the request. *)
Definition unPublish (info : MediaInfo) (c : Client) : Client :=
  send (UnPublish info) (emit (OnUnPublish info) c).

(** The rest of [unPublish]: [sfu.setOffer(offer)] and the answer. *)
Definition unPublish_reply (offer : SessionDescription) (c : Client) : Client :=
  sendAnswer (answer_offer offer c).

(** [getTracks()]. *)
Definition getTracks (c : Client) : Client := send (GetMedias (peerId c)) c.

(** The subscriber type of a track: audio is [single], video [high]. *)
Definition subscriber_type (info : MediaInfo) : SubscriberType :=
  match kind info with Audio => Single | Video => High end.

Definition subscribe_requests (infos : list MediaInfo) : list RequestSubscribe :=
  (fun info => mkRequestSubscribe info (subscriber_type info)) <$> infos.

(** The first half of a queued subscribe job: the request. *)
Definition subscribe_start (infos : list MediaInfo) (c : Client) : Client :=
  send (Subscribe (peerId c) (subscribe_requests infos)) c.

Definition start_events (c : Client) (evs : list (@PromiseQueue.event (list MediaInfo)))
    : Client :=
  foldl (fun c e => match e with
                    | PromiseQueue.Start j => subscribe_start j c
                    | PromiseQueue.Done _ => c
                    end) c evs.

(** [subscribe(infos)]: [subscribeQueue.push(job)]; an idle queue
    starts the job at once. *)
Definition subscribe (infos : list MediaInfo) (c : Client) : Client :=
  let '(q, evs) := PromiseQueue.push infos (subscribeQueue c) in
  start_events (set_queue q c) evs.

(** The second half of the running job, when [[offer, pairs]] arrives:
    [sfu.subscribe(pairs, infos, offer)], [sendAnswer], and the queue
    moves on. *)
Definition subscribe_reply (offer : SessionDescription) (pairs : list MidPair) (c : Client)
    : Client :=
  match PromiseQueue.running (subscribeQueue c) with
  | None => c
  | Some infos =>
      let c1 := sendAnswer (Main.subscribe pairs infos offer c) in
      let '(q, evs) := PromiseQueue.finish (subscribeQueue c1) in
      start_events (set_queue q c1) evs
  end.

(** [changeQuality(info, type)]: sent at once, not queued. *)
Definition changeQuality (info : MediaInfo) (t : SubscriberType) (c : Client) : Client :=
  send (ChangeQuality (peerId c) info t) c.

(** [listenMixedAudio(infos)] up to its [await]. *)
Definition listenMixedAudio (infos : list MediaInfo) (c : Client) : Client :=
  send (ListenMixedAudio (peerId c) infos) c.

(** [addMixedAudioTrack] / [removeMixedAudioTrack]: the request (the
    MCU's own bookkeeping is out of scope). *)
Definition addMixedAudioTrack (mixerId : string) (info : MediaInfo) (c : Client) : Client :=
  send (AddMixedAudioTrack mixerId info) c.

Definition removeMixedAudioTrack (mixerId : string) (info : MediaInfo) (c : Client) : Client :=
  send (RemoveMixedAudioTrack mixerId info) c.

End ClientSDK.

(** ** Serialization of [ClientSDK.subscribe] *)

(** The client with ghost state: the jobs submitted to [subscribeQueue]
    and the queue's log of starts and completions. *)
Record cworld := CWorld {
  cw_client : Client;
  cw_submitted : list (list MediaInfo);
  cw_log : list (@PromiseQueue.event (list MediaInfo));
}.

(** What the application and the server can do next. *)
Inductive cstep : cworld -> cworld -> Prop :=
| cstep_subscribe infos w :
    cstep w (CWorld (ClientSDK.subscribe infos (cw_client w)) (cw_submitted w ++ [infos])
                    (cw_log w ++ (PromiseQueue.push infos (subscribeQueue (cw_client w))).2))
| cstep_reply offer pairs infos w :
    PromiseQueue.running (subscribeQueue (cw_client w)) = Some infos ->
    cstep w (CWorld (ClientSDK.subscribe_reply offer pairs (cw_client w)) (cw_submitted w)
                    (cw_log w ++ (PromiseQueue.finish (subscribeQueue (cw_client w))).2))
| cstep_changeQuality info t w :
    cstep w (CWorld (ClientSDK.changeQuality info t (cw_client w)) (cw_submitted w) (cw_log w))
| cstep_ontrack mid w :
    cstep w (CWorld (Main.ontrack mid (cw_client w)) (cw_submitted w) (cw_log w)).

Definition client_start (pid : string) : cworld := CWorld (new_client pid) [] [].

Definition subscribe_msgs (l : list RPC) : list RPC :=
  filter (fun m => rpc_type m = "subscribe") l.

Definition started (log : list (@PromiseQueue.event (list MediaInfo))) : list (list MediaInfo) :=
  omap (fun e => match e with PromiseQueue.Start j => Some j | _ => None end) log.

Definition subscribe_rpc (pid : string) (infos : list MediaInfo) : RPC :=
  to_rpc (Subscribe pid (ClientSDK.subscribe_requests infos)).

(** The projection of a client world on its queue. *)
Definition qworld (w : cworld) : PromiseQueue.world (list MediaInfo) :=
  PromiseQueue.World (subscribeQueue (cw_client w)) (cw_log w) (cw_submitted w).

Definition client_inv (w : cworld) : Prop :=
  PromiseQueue.queue_inv (qworld w) /\
  subscribe_msgs (sent (cw_client w)) = subscribe_rpc (peerId (cw_client w)) <$> started (cw_log w).

Lemma subscribe_msgs_snoc l (m : Msg) :
  subscribe_msgs (l ++ [to_rpc m]) =
  subscribe_msgs l ++ (if decide (msg_type m = "subscribe") then [to_rpc m] else []).
Proof.
  unfold subscribe_msgs. by rewrite filter_app, filter_cons, filter_nil.
Qed.

Lemma start_events_effect c evs :
  peerId (ClientSDK.start_events c evs) = peerId c /\
  subscribeQueue (ClientSDK.start_events c evs) = subscribeQueue c /\
  subscribe_msgs (sent (ClientSDK.start_events c evs)) =
  subscribe_msgs (sent c) ++ (subscribe_rpc (peerId c) <$> started evs).
Proof.
  revert c. induction evs as [|[j|j] evs IH]; intros c; simpl.
  - by rewrite app_nil_r.
  - destruct (IH (ClientSDK.subscribe_start j c)) as (H1 & H2 & H3). simpl in *.
    split_and!; [done | done |]. rewrite H3, subscribe_msgs_snoc. simpl.
    by rewrite <- app_assoc.
  - apply IH.
Qed.

(** Answering the server's reply sends no subscribe request. *)
Lemma subscribe_reply_body_effect offer pairs infos c :
  peerId (sendAnswer (Main.subscribe pairs infos offer c)) = peerId c /\
  subscribeQueue (sendAnswer (Main.subscribe pairs infos offer c)) = subscribeQueue c /\
  subscribe_msgs (sent (sendAnswer (Main.subscribe pairs infos offer c))) =
  subscribe_msgs (sent c).
Proof.
  simpl. split_and!; [done | done |]. rewrite subscribe_msgs_snoc. simpl.
  by rewrite app_nil_r.
Qed.

Lemma started_app l1 l2 : started (l1 ++ l2) = started l1 ++ started l2.
Proof. apply omap_app. Qed.

Lemma cstep_inv w w' : cstep w w' -> client_inv w -> client_inv w'.
Proof.
  intros Hs [Hq Hmsgs]. destruct Hs as [infos w|offer pairs infos w Hrun|info t w|mid w].
  - split.
    + apply (PromiseQueue.qstep_inv (qworld w)); [|done].
      pose proof (PromiseQueue.qstep_push infos (qworld w)) as Hst.
      unfold qworld, ClientSDK.subscribe in *; simpl in *.
      destruct (PromiseQueue.push infos (subscribeQueue (cw_client w))) as [q evs] eqn:E.
      destruct (start_events_effect (set_queue q (cw_client w)) evs) as (_ & Hq' & _).
      simpl in *. by rewrite Hq'.
    + unfold ClientSDK.subscribe; simpl.
      destruct (PromiseQueue.push infos (subscribeQueue (cw_client w))) as [q evs] eqn:E.
      destruct (start_events_effect (set_queue q (cw_client w)) evs) as (Hp & _ & Hm).
      rewrite Hp, Hm. simpl. by rewrite Hmsgs, started_app, fmap_app.
  - unfold ClientSDK.subscribe_reply. rewrite Hrun.
    destruct (subscribe_reply_body_effect offer pairs infos (cw_client w)) as (Hp1 & Hq1 & Hm1).
    rewrite Hq1.
    destruct (PromiseQueue.finish (subscribeQueue (cw_client w))) as [q evs] eqn:E.
    destruct (start_events_effect
      (set_queue q (sendAnswer (Main.subscribe pairs infos offer (cw_client w)))) evs)
      as (Hp & Hq' & Hm).
    split.
    + apply (PromiseQueue.qstep_inv (qworld w)); [|done].
      pose proof (PromiseQueue.qstep_finish (qworld w) infos Hrun) as Hst.
      cbv [qworld] in *. simpl in *. rewrite E in Hst. simpl in Hst. by rewrite Hq'.
    + cbn [cw_client cw_log]. rewrite Hp, Hm. unfold set_queue. cbn [sent peerId].
      by rewrite Hp1, Hm1, Hmsgs, started_app, fmap_app.
  - split; [done|]. simpl. rewrite subscribe_msgs_snoc. simpl. by rewrite app_nil_r.
  - split; done.
Qed.

Lemma started_serial (dn : list (list MediaInfo)) (o : option (list MediaInfo)) :
  started (PromiseQueue.serial_log dn ++ (PromiseQueue.Start <$> PromiseQueue.opt_list o)) =
  dn ++ PromiseQueue.opt_list o.
Proof.
  unfold started. rewrite omap_app. f_equal.
  - induction dn as [|j dn IH]; [done|]. rewrite PromiseQueue.serial_log_cons. simpl.
    f_equal. exact IH.
  - by destruct o.
Qed.

(** C5: [ClientSDK.subscribe] is serialized: in every state the client reaches
    (any interleaving of [ClientSDK.subscribe] calls, server replies,
    [ClientSDK.changeQuality] and [Main.ontrack]), the subscribe requests sent so far are
    those of the completed jobs followed by the running one, in the
    order the calls were made, at most one is unanswered, and the queue's
    log alternates start and completion. *)
Theorem subscribe_serialized (pid : string) (w : cworld) :
  rtc cstep (client_start pid) w ->
  exists done_jobs,
    cw_submitted w = done_jobs ++ PromiseQueue.opt_list (PromiseQueue.running (subscribeQueue (cw_client w)))
                     ++ PromiseQueue.queue (subscribeQueue (cw_client w)) /\
    cw_log w = PromiseQueue.serial_log done_jobs ++
               (PromiseQueue.Start <$> PromiseQueue.opt_list
                                         (PromiseQueue.running (subscribeQueue (cw_client w)))) /\
    subscribe_msgs (sent (cw_client w)) =
    subscribe_rpc (peerId (cw_client w)) <$>
      (done_jobs ++ PromiseQueue.opt_list (PromiseQueue.running (subscribeQueue (cw_client w)))).
Proof.
  intros Hr. assert (Hinv : client_inv w).
  { assert (H0 : client_inv (client_start pid)) by (split; [apply PromiseQueue.queue_inv_start | done]).
    revert H0. induction Hr as [|w1 w2 w3 Hs _ IH]; [done|]. intros H1.
    by apply IH, (cstep_inv w1). }
  destruct Hinv as [[dn (Hsub & _ & Hlog)] Hmsgs]. simpl in *.
  exists dn. split_and!; [done | done |]. by rewrite Hmsgs, Hlog, started_serial.
Qed.

(** C17: the request a subscribe job sends is a well-formed [subscribe]
    message of the protocol asking for exactly the given tracks, audio
    tracks as [single] and video tracks as [high]. *)
Theorem subscribe_request_policy (pid : string) (infos : list MediaInfo) :
  exists reqs, of_rpc (subscribe_rpc pid infos) = Some (Subscribe pid reqs) /\
    rs_info <$> reqs = infos /\
    forall r, r ∈ reqs ->
      rs_type r = (if decide (kind (rs_info r) = Audio) then Single else High).
Proof.
  exists (ClientSDK.subscribe_requests infos). split_and!.
  - apply of_rpc_subscribe.
  - unfold ClientSDK.subscribe_requests. rewrite <- list_fmap_compose. apply list_fmap_id.
  - intros r Hr. unfold ClientSDK.subscribe_requests in Hr. apply list_elem_of_fmap in Hr as [info [-> _]].
    simpl. unfold ClientSDK.subscriber_type. by destruct (kind info).
Qed.

(** ** The subscribe queue of a client, against the abstract FIFO *)

Lemma subscribe_queue_effect infos c :
  peerId (ClientSDK.subscribe infos c) = peerId c /\
  subscribeQueue (ClientSDK.subscribe infos c) = (PromiseQueue.push infos (subscribeQueue c)).1 /\
  subscribe_msgs (sent (ClientSDK.subscribe infos c)) =
  subscribe_msgs (sent c) ++
    (subscribe_rpc (peerId c) <$> started (PromiseQueue.push infos (subscribeQueue c)).2).
Proof.
  unfold ClientSDK.subscribe. destruct (PromiseQueue.push infos (subscribeQueue c)) as [q evs].
  destruct (start_events_effect (set_queue q c) evs) as (Hp & Hq & Hm). by rewrite Hp, Hq, Hm.
Qed.

Lemma reply_queue_effect offer pairs c :
  peerId (ClientSDK.subscribe_reply offer pairs c) = peerId c /\
  subscribeQueue (ClientSDK.subscribe_reply offer pairs c) = (PromiseQueue.finish (subscribeQueue c)).1 /\
  subscribe_msgs (sent (ClientSDK.subscribe_reply offer pairs c)) =
  subscribe_msgs (sent c) ++
    (subscribe_rpc (peerId c) <$> started (PromiseQueue.finish (subscribeQueue c)).2).
Proof.
  unfold ClientSDK.subscribe_reply.
  destruct (PromiseQueue.running (subscribeQueue c)) as [infos|] eqn:Hr.
  - destruct (subscribe_reply_body_effect offer pairs infos c) as (Hp1 & Hq1 & Hm1).
    rewrite Hq1. destruct (PromiseQueue.finish (subscribeQueue c)) as [q evs].
    destruct (start_events_effect (set_queue q (sendAnswer (Main.subscribe pairs infos offer c))) evs)
      as (Hp & Hq & Hm).
    rewrite Hp, Hq, Hm. cbn [set_queue sent peerId subscribeQueue fst snd]. by rewrite Hp1, Hm1.
  - unfold PromiseQueue.finish. rewrite Hr. simpl. by rewrite app_nil_r.
Qed.

(** What the application and the server do to the queue: a [subscribe]
    call, or the server's reply to the running job. *)
Inductive cop := CSubscribe (infos : list MediaInfo) | CReply (offer : SessionDescription) (pairs : list MidPair).

Definition client_op (o : cop) (c : Client) : Client :=
  match o with
  | CSubscribe infos => ClientSDK.subscribe infos c
  | CReply offer pairs => ClientSDK.subscribe_reply offer pairs c
  end.

Fixpoint client_run (ops : list cop) (c : Client) : Client :=
  match ops with [] => c | o :: rest => client_run rest (client_op o c) end.

Definition queue_op (o : cop) : PromiseQueue.op (list MediaInfo) :=
  match o with CSubscribe infos => PromiseQueue.OPush infos | CReply _ _ => PromiseQueue.OFinish end.

Lemma client_run_impl ops c :
  peerId (client_run ops c) = peerId c /\
  subscribeQueue (client_run ops c) =
    (PromiseQueue.run PromiseQueue.impl_step (queue_op <$> ops) (subscribeQueue c)).1 /\
  subscribe_msgs (sent (client_run ops c)) =
  subscribe_msgs (sent c) ++ (subscribe_rpc (peerId c) <$>
    started (PromiseQueue.run PromiseQueue.impl_step (queue_op <$> ops) (subscribeQueue c)).2).
Proof.
  revert c. induction ops as [|o ops IH]; intros c; [simpl; by rewrite app_nil_r|].
  rewrite fmap_cons. cbn [client_run PromiseQueue.run].
  change (list_fmap cop _ queue_op ops) with (queue_op <$> ops).
  assert (Ho : peerId (client_op o c) = peerId c /\
               subscribeQueue (client_op o c) =
                 (PromiseQueue.impl_step (queue_op o) (subscribeQueue c)).1 /\
               subscribe_msgs (sent (client_op o c)) = subscribe_msgs (sent c) ++
                 (subscribe_rpc (peerId c) <$>
                    started (PromiseQueue.impl_step (queue_op o) (subscribeQueue c)).2))
    by (destruct o; [apply subscribe_queue_effect | apply reply_queue_effect]).
  destruct Ho as (Hp & Hq & Hm). destruct (IH (client_op o c)) as (Hp' & Hq' & Hm').
  rewrite Hp', Hq', Hm', Hp, Hm, Hq.
  destruct (PromiseQueue.impl_step (queue_op o) (subscribeQueue c)) as [q1 e1].
  destruct (PromiseQueue.run PromiseQueue.impl_step (queue_op <$> ops) q1) as [q2 e2] eqn:E.
  simpl. rewrite E. simpl.
  split_and!; [done | done |]. by rewrite started_app, fmap_app, app_assoc.
Qed.

Lemma run_finish_drain n (q : PromiseQueue.t (list MediaInfo)) :
  PromiseQueue.run PromiseQueue.impl_step (replicate n PromiseQueue.OFinish) q =
  PromiseQueue.drain n q.
Proof.
  revert q. induction n as [|n IH]; intros q; [done|].
  cbn [replicate PromiseQueue.run PromiseQueue.impl_step].
  destruct (PromiseQueue.running q) as [j|] eqn:Hr.
  - rewrite (PromiseQueue.drain_step n q j Hr).
    destruct (PromiseQueue.finish q) as [q1 e1] eqn:E. simpl. rewrite IH.
    destruct (PromiseQueue.drain n q1) as [q2 e2] eqn:E2. simpl. by rewrite ?E, ?E2.
  - simpl. unfold PromiseQueue.finish. rewrite Hr, IH, PromiseQueue.drain_idle by done.
    done.
Qed.

Lemma queue_op_replies (replies : list (SessionDescription * list MidPair)) :
  queue_op <$> ((fun '(o, ps) => CReply o ps) <$> replies) =
  replicate (length replies) PromiseQueue.OFinish.
Proof.
  induction replies as [|[o ps] replies IH]; [done|].
  rewrite !fmap_cons. cbn [queue_op length replicate]. by rewrite IH.
Qed.

(** C18: the subscribe queue drains: when the server answers the
    running job and each queued one, the client ends with no job
    running, and it has sent the request of every queued job, in
    queue order, one per answer. *)
Theorem client_queue_drains (replies : list (SessionDescription * list MidPair)) (c : Client) :
  PromiseQueue.wf (subscribeQueue c) ->
  length replies = length (PromiseQueue.abs (subscribeQueue c)) ->
  let c' := client_run ((fun '(o, ps) => CReply o ps) <$> replies) c in
  PromiseQueue.running (subscribeQueue c') = None /\
  subscribe_msgs (sent c') =
    subscribe_msgs (sent c) ++ (subscribe_rpc (peerId c) <$> PromiseQueue.queue (subscribeQueue c)).
Proof.
  intros Hwf Hlen c'. destruct (client_run_impl ((fun '(o, ps) => CReply o ps) <$> replies) c)
    as (_ & Hq & Hm).
  unfold c'. rewrite Hq, Hm, queue_op_replies, run_finish_drain, Hlen, <- (Nat.add_0_r (length _)).
  rewrite (PromiseQueue.drain_completes _ 0 Hwf).
  unfold PromiseQueue.abs, PromiseQueue.wf in *. simpl.
  destruct (PromiseQueue.running (subscribeQueue c)) as [j|]; simpl.
  - split; [done|]. f_equal. f_equal.
    pose proof (started_serial (PromiseQueue.queue (subscribeQueue c)) None) as Hs.
    cbn [PromiseQueue.opt_list fmap list_fmap] in Hs. by rewrite !app_nil_r in Hs.
  - rewrite (Hwf eq_refl). simpl. by rewrite app_nil_r.
Qed.

(** ** Simulcast layers of [ClientSDK.publish] *)

Lemma publish_reply_senders reqs offer c :
  senders (ClientSDK.publish_reply reqs offer c) =
  senders c ++ ((fun '(t, sc) => Main.add_sender t (default false sc)) <$> reqs).
Proof.
  unfold ClientSDK.publish_reply, Main.publish, sendAnswer. simpl. f_equal.
  rewrite <- list_fmap_compose. apply list_fmap_ext. by intros i [t sc] _.
Qed.

(** C24: after [ClientSDK.publish] has answered the server's offer, every
    requested track has a sender; a track requested with
    [simulcast: true] sends a ["high"] layer at full resolution capped
    at 680 kbps and a ["low"] layer at a quarter of the resolution
    ([scaleResolutionDownBy = 4]) capped at 36 kbps; any other track
    sends no layers. *)
Theorem publish_simulcast_layers reqs offer c t sc :
  (t, sc) ∈ reqs ->
  exists s, s ∈ senders (ClientSDK.publish_reply reqs offer c) /\ sender_track s = t /\
    (sc = Some true ->
       (exists e, e ∈ encodings s /\ enc_rid e = "high" /\
                  scaleResolutionDownBy e = 1%Z /\ maxBitrate e = 680000%Z) /\
       (exists e, e ∈ encodings s /\ enc_rid e = "low" /\
                  scaleResolutionDownBy e = 4%Z /\ maxBitrate e = 36000%Z)) /\
    (sc <> Some true -> encodings s = []).
Proof.
  intros Hin. exists (Main.add_sender t (default false sc)). rewrite publish_reply_senders.
  split; [|split; [done|split]].
  - apply elem_of_app. right. apply list_elem_of_fmap. by exists (t, sc).
  - intros ->. simpl. unfold Main.simulcast_encodings.
    split; eexists; (split; [by repeat constructor | done]).
  - intros Hne. destruct sc as [[]|]; simpl; done.
Qed.

(** ** The [mid] table of [Main.subscribe] *)

Lemma foldl_bind_mid_notin infos m pairs k :
  k ∉ mp_mid <$> pairs -> foldl (Main.bind_mid infos) m pairs !! k = m !! k.
Proof.
  revert m. induction pairs as [|p pairs IH]; intros m Hk; simpl; [done|].
  rewrite IH by set_solver. unfold Main.bind_mid. rewrite lookup_insert_ne; [done|].
  set_solver.
Qed.

Lemma foldl_bind_mid_in infos m pairs p :
  NoDup (mp_mid <$> pairs) -> p ∈ pairs ->
  foldl (Main.bind_mid infos) m pairs !! mp_mid p =
  Some (List.find (fun v => String.eqb (mediaId v) (mp_mediaId p)) infos).
Proof.
  revert m. induction pairs as [|q pairs IH]; intros m Hnd Hp; [set_solver|].
  simpl in *. apply NoDup_cons in Hnd as [Hq Hnd].
  apply elem_of_cons in Hp as [->|Hp].
  - rewrite foldl_bind_mid_notin by done. unfold Main.bind_mid. by rewrite lookup_insert_eq.
  - by apply IH.
Qed.

(** C25: when the server's [handleSubscribe] pairs name distinct mids,
    [Main.subscribe] binds every negotiated mid to the requested track
    with that media id (to [undefined] when none was requested), and a
    track arriving on that mid is announced with that binding. *)
Theorem subscribe_binds_mids pairs infos offer c p :
  NoDup (mp_mid <$> pairs) -> p ∈ pairs ->
  let c' := Main.subscribe pairs infos offer c in
  mediaInfoByMID c' !! mp_mid p =
    Some (List.find (fun v => String.eqb (mediaId v) (mp_mediaId p)) infos) /\
  last (emitted (Main.ontrack (mp_mid p) c')) =
    Some (OnTrack (mp_mid p) (List.find (fun v => String.eqb (mediaId v) (mp_mediaId p)) infos)).
Proof.
  intros Hnd Hp. simpl. rewrite foldl_bind_mid_in by done. split; [done|].
  by rewrite last_snoc.
Qed.

(** ** Bindings kept across [Main.handleLeave] *)

(** C30: [Main.handleLeave] answers the renegotiation and reports the
    departed tracks, but leaves [mediaInfoByMID] as it was: a track that
    later arrives on a mid bound to a departed track is announced with
    the departed track's [MediaInfo]. *)
Theorem leave_keeps_mid_binding infos offer c mid info :
  info ∈ infos -> mediaInfoByMID c !! mid = Some (Some info) ->
  last (emitted (Main.handleLeave infos offer c)) = Some (OnLeave infos) /\
  last (emitted (Main.ontrack mid (Main.handleLeave infos offer c))) = Some (OnTrack mid (Some info)).
Proof. intros _ Hb. unfold Main.ontrack. simpl. rewrite Hb. by rewrite !last_snoc. Qed.

(** ** [ClientSDK.changeQuality] is not ordered with the subscribe queue *)

Definition cq_info : MediaInfo := mkMediaInfo "m1" "p1" Video true.

Definition cq_1 : cworld :=
  CWorld (ClientSDK.subscribe [cq_info] (new_client "p2")) [[cq_info]]
         (PromiseQueue.push [cq_info] PromiseQueue.empty).2.

Definition cq_2 : cworld :=
  CWorld (ClientSDK.changeQuality cq_info Low (cw_client cq_1)) [[cq_info]] (cw_log cq_1).

Lemma cq_reach : rtc cstep (client_start "p2") cq_2.
Proof.
  eapply rtc_l; [apply (cstep_subscribe [cq_info])|].
  eapply rtc_l; [apply (cstep_changeQuality cq_info Low)|]. reflexivity.
Qed.

(** C29: [ClientSDK.changeQuality] bypasses [subscribeQueue]: from a fresh client
    there is a run in which the [ClientSDK.changeQuality] request for a track is
    sent while the subscribe job for that same track is still waiting for
    the server's reply, so the server can receive it before the
    subscription exists. *)
Theorem changeQuality_during_subscribe :
  exists w, rtc cstep (client_start "p2") w /\
    PromiseQueue.running (subscribeQueue (cw_client w)) = Some [cq_info] /\
    sent (cw_client w) =
      [subscribe_rpc "p2" [cq_info]; to_rpc (ChangeQuality "p2" cq_info Low)].
Proof. exists cq_2. split; [apply cq_reach | done]. Qed.

(** Witnesses. *)

Definition example_track : LocalTrack := mkLocalTrack "t1" Video.
Definition example_offer : SessionDescription := mkSdp Offer "m=application;m=video sendonly".

Lemma publish_simulcast_layers_witness :
  (example_track, Some true) ∈ [(example_track, Some true)] /\
  exists s, s ∈ senders (ClientSDK.publish_reply [(example_track, Some true)] example_offer (new_client "p1")) /\
    sender_track s = example_track /\
    (Some true = Some true ->
       (exists e, e ∈ encodings s /\ enc_rid e = "high" /\
                  scaleResolutionDownBy e = 1%Z /\ maxBitrate e = 680000%Z) /\
       (exists e, e ∈ encodings s /\ enc_rid e = "low" /\
                  scaleResolutionDownBy e = 4%Z /\ maxBitrate e = 36000%Z)) /\
    (Some true <> Some true -> encodings s = []).
Proof.
  split; [by constructor|].
  apply publish_simulcast_layers. by constructor.
Defined.

Lemma subscribe_binds_mids_witness :
  NoDup (mp_mid <$> [mkMidPair "m1" "0"; mkMidPair "m2" "1"]) /\
  let c' := Main.subscribe [mkMidPair "m1" "0"; mkMidPair "m2" "1"] [cq_info] example_offer
              (new_client "p2") in
  mediaInfoByMID c' !! "1" = Some None /\
  last (emitted (Main.ontrack "0" c')) = Some (OnTrack "0" (Some cq_info)).
Proof.
  assert (Hnd : NoDup (mp_mid <$> [mkMidPair "m1" "0"; mkMidPair "m2" "1"])) by
    (apply NoDup_cons; split; [set_solver | apply NoDup_singleton]).
  split; [exact Hnd|]. simpl. split.
  - exact (proj1 (subscribe_binds_mids _ _ example_offer (new_client "p2") (mkMidPair "m2" "1")
                    Hnd ltac:(right; left))).
  - exact (proj2 (subscribe_binds_mids _ _ example_offer (new_client "p2") (mkMidPair "m1" "0")
                    Hnd ltac:(left))).
Defined.

Lemma leave_keeps_mid_binding_witness :
  let c := Main.subscribe [mkMidPair "m1" "0"] [cq_info] example_offer (new_client "p2") in
  mediaInfoByMID c !! "0" = Some (Some cq_info) /\
  last (emitted (Main.ontrack "0" (Main.handleLeave [cq_info] example_offer c))) =
    Some (OnTrack "0" (Some cq_info)).
Proof.
  split; [reflexivity|].
  exact (proj2 (leave_keeps_mid_binding [cq_info] example_offer
                  (Main.subscribe [mkMidPair "m1" "0"] [cq_info] example_offer (new_client "p2"))
                  "0" cq_info ltac:(by left) eq_refl)).
Defined.

Lemma subscribe_serialized_witness :
  rtc cstep (client_start "p2") cq_2 /\
  exists done_jobs,
    cw_submitted cq_2 = done_jobs ++ PromiseQueue.opt_list (PromiseQueue.running (subscribeQueue (cw_client cq_2)))
                     ++ PromiseQueue.queue (subscribeQueue (cw_client cq_2)) /\
    cw_log cq_2 = PromiseQueue.serial_log done_jobs ++
               (PromiseQueue.Start <$> PromiseQueue.opt_list
                                         (PromiseQueue.running (subscribeQueue (cw_client cq_2)))) /\
    subscribe_msgs (sent (cw_client cq_2)) =
    subscribe_rpc (peerId (cw_client cq_2)) <$>
      (done_jobs ++ PromiseQueue.opt_list (PromiseQueue.running (subscribeQueue (cw_client cq_2)))).
Proof. split; [apply cq_reach | exact (subscribe_serialized "p2" cq_2 cq_reach)]. Defined.

Definition two_jobs : Client :=
  client_run [CSubscribe [cq_info]; CSubscribe [cq_info]] (new_client "p2").

Lemma client_queue_drains_witness :
  PromiseQueue.wf (subscribeQueue two_jobs) /\
  length [(example_offer, @nil MidPair); (example_offer, [])] =
    length (PromiseQueue.abs (subscribeQueue two_jobs)) /\
  PromiseQueue.running (subscribeQueue
    (client_run ((fun '(o, ps) => CReply o ps) <$> [(example_offer, @nil MidPair); (example_offer, [])])
       two_jobs)) = None.
Proof.
  assert (Hwf : PromiseQueue.wf (subscribeQueue two_jobs)) by (vm_compute; discriminate).
  assert (Hl : length [(example_offer, @nil MidPair); (example_offer, [])] =
               length (PromiseQueue.abs (subscribeQueue two_jobs))) by reflexivity.
  split_and!; [exact Hwf | exact Hl | exact (proj1 (client_queue_drains _ _ Hwf Hl))].
Defined.

