(* ===== verification/Session.v ===== *)
(** * Session: joining a room over the HTTP bootstrap

    [ClientSDK.create] and [ClientSDK.join] (sdk.ts) exchange the first
    offer and answer over HTTP ([HttpConnection], not staged: each of
    its calls is a request of [HttpReq]).  [join] calls
    [this.sfu.join(offer, {onIceCandidate, onAnswer})] on the SDK's
    [SFU] ([domain/sfu]), which is not staged either: [sfu_join] models
    it from the spec (sections 4.5 and 6) as installing the offer,
    creating and installing the answer, and handing the local
    description to [onAnswer].  The staged [Main.join] of main.ts has
    the same body but takes its callbacks as separate arguments, so it
    is not the function sdk.ts calls.  The server's HTTP endpoints are
    not staged and are not modelled. *)

From S2P Require Import Prelude Domain Rpc Router PeerConnection Room Client.

(** The requests of [HttpConnection]. *)
Inductive HttpReq :=
| HCreate
| HJoin (roomName : string)
| HAnswer (peerId roomName : string) (answer : SessionDescription)
| HCandidate (peerId roomName : string) (candidate : IceCandidate).

(** The SDK before and during [join]: the client, [sfu.roomName], the
    HTTP requests made, and whether [dcConnection] exists. *)
Record Session := mkSession {
  client : Client;
  roomName : string;
  http : list HttpReq;
  channel_open : bool;
}.

(** [SFU.join(offer, {onIceCandidate, onAnswer})] (not staged): the
    offer becomes the remote description, the answer is created and
    installed, and the local description is what [onAnswer] receives. *)
Definition sfu_join (offer : SessionDescription) (c : Client) : Client * option SessionDescription :=
  let c' := answer_offer offer c in (c', localDescription c').

Module Bootstrap.

Definition start : Session := mkSession (new_client "") "" [] false.

Definition request (q : HttpReq) (s : Session) : Session :=
  mkSession (client s) (roomName s) (http s ++ [q]) (channel_open s).

(** [set roomName(roomName)]. *)
Definition set_roomName (name : string) (s : Session) : Session :=
  mkSession (client s) name (http s) (channel_open s).

(** [create()] up to its [await]. *)
Definition create (s : Session) : Session := request HCreate s.

(** The rest of [create()]: [this.sfu.roomName = await ...]. *)
Definition create_reply (name : string) (s : Session) : Session := set_roomName name s.

(** [join()] up to [await this.httpConnection.join(this.roomName)]. *)
Definition join (s : Session) : Session := request (HJoin (roomName s)) s.

Definition set_peerId (pid : string) (c : Client) : Client :=
  mkClient pid (mediaInfoByMID c) (senders c) (localDescription c) (remoteDescription c)
    (sent c) (emitted c) (subscribeQueue c).

(** The reply [{offer, peerId}]: [this.sfu.peerId = peerId], then
    [this.sfu.join(offer, {onIceCandidate, onAnswer})], whose
    [onAnswer] posts the answer with [httpConnection.answer(peerId,
    this.roomName, answer)]. *)
Definition join_reply (offer : SessionDescription) (pid : string) (s : Session) : Session :=
  let '(c, ans) := sfu_join offer (set_peerId pid (client s)) in
  let s1 := mkSession c (roomName s) (http s) (channel_open s) in
  match ans with
  | Some a => request (HAnswer pid (roomName s) a) s1
  | None => s1
  end.

(** The [onIceCandidate] option of [sfu.join]:
    [httpConnection.candidate(peerId, this.roomName, candidate)] with
    the [peerId] of the reply and the current [roomName], for each
    candidate the (not staged) [SFU] reports. *)
Definition icecandidate (c : IceCandidate) (s : Session) : Session :=
  request (HCandidate (peerId (client s)) (roomName s) c) s.

(** [const channel = await this.sfu.join(...)] resolves and
    [this.dcConnection = new DataChannelConnection(peerId, channel)]. *)
Definition datachannel (s : Session) : Session :=
  mkSession (client s) (roomName s) (http s) true.

End Bootstrap.
