(* ===== verification/App.v ===== *)
(** * App: the demo application (examples/client-demo/src/App.tsx)

    The React component drives the SDK: [init] reads the room from the
    URL fragment (or creates one and writes it there), joins, registers
    its handlers, publishes the camera with simulcast, lists the tracks
    and subscribes to them.  Its state is the SDK session, the URL
    fragment, the [streams] state of the component and the
    [videos.current] array of video elements.

    [init] is an [async] function: each [await] ends a phase ([Phase]),
    and the reply that resumes it is the argument of the next
    operation, like the split of the SDK calls in Client.  The handlers
    ([onPublish], [onTrack], [onremovetrack]), the effect on [streams],
    the rendering and its buttons are operations of their own.

    [URLSearchParams] is the WHATWG algorithm, modelled from its
    standard: strip one leading [?], split on [&], split each non-empty
    part at its first [=], and decode [+] and percent escapes.  Decoded
    bytes are read as ASCII characters (a multi-byte UTF-8 sequence is
    not decoded). *)

From S2P Require Import Prelude Domain Rpc Router PeerConnection Room TaskQueue Client Session.

(** ** [URLSearchParams] *)

Definition strip_qmark (s : string) : string :=
  match s with
  | String a r => if Ascii.eqb a "?" then r else s
  | EmptyString => s
  end.

(** A part [name=value] split at its first [=]; no [=] gives an empty value. *)
Fixpoint split_eq (s : string) : string * string :=
  match s with
  | EmptyString => (EmptyString, EmptyString)
  | String a r =>
      if Ascii.eqb a "=" then (EmptyString, r)
      else let '(n, v) := split_eq r in (String a n, v)
  end.

Definition hex_digit (a : ascii) : option nat :=
  let n := nat_of_ascii a in
  if Nat.leb 48 n && Nat.leb n 57 then Some (n - 48)%nat
  else if Nat.leb 65 n && Nat.leb n 70 then Some (n - 55)%nat
  else if Nat.leb 97 n && Nat.leb n 102 then Some (n - 87)%nat
  else None.

(** [+] is a space, [%XY] the byte [XY]; a [%] without two hex digits
    stays as it is. *)
Fixpoint pct_decode (s : string) : string :=
  match s with
  | EmptyString => EmptyString
  | String a r =>
      if Ascii.eqb a "+" then String " " (pct_decode r)
      else if Ascii.eqb a "%" then
        match r with
        | String h1 (String h2 r') =>
            match hex_digit h1, hex_digit h2 with
            | Some x, Some y => String (ascii_of_nat (16 * x + y)%nat) (pct_decode r')
            | _, _ => String a (pct_decode r)
            end
        | _ => String a (pct_decode r)
        end
      else String a (pct_decode r)
  end.

Definition search_params (q : string) : list (string * string) :=
  omap (fun part => if String.eqb part "" then None
                    else let '(n, v) := split_eq part in Some (pct_decode n, pct_decode v))
       (js_split "&" (strip_qmark q)).

(** [params.get(k)]: the first value of [k]; [params.has(k)] is [is_Some]. *)
Definition sp_get (ps : list (string * string)) (k : string) : option string :=
  snd <$> List.find (fun p => String.eqb p.1 k) ps.

(** [new URLSearchParams(window.location.hash.split("#")[1])]
    ([undefined] gives no parameters), then [params.get("room")]. *)
Definition room_param (hash : string) : option string :=
  match js_split "#" hash !! 1 with
  | Some q => sp_get (search_params q) "room"
  | None => None
  end.

(** [window.location.hash = `?room=${roomName}`], read back as
    [location.hash]: the fragment with its [#] (characters of the
    fragment percent-encode set are not produced by the room names of
    the server and are not modelled). *)
Definition room_hash (name : string) : string := String.append "#?room=" name.

(** ** The component *)

Record Entry := mkEntry { entry_stream : string; entry_info : option MediaInfo }.

Inductive Phase :=
| PStart       (* before [init] *)
| PCreating    (* await clientSDK.create() *)
| PJoining     (* await clientSDK.join() *)
| PMedia       (* await getUserMedia(...) *)
| PPublishing  (* await clientSDK.publish(...) *)
| PListing     (* await clientSDK.getTracks() *)
| PDone.       (* await clientSDK.subscribe(infos) issued *)

Record App := mkApp {
  session : Session;
  hash : string;
  phase : Phase;
  streams : list Entry;
  (** [videos.current]: [None] is a [null] ref, [Some src] an element
      whose [srcObject] is the stream [src], if any. *)
  videos : list (option (option string));
}.

Module App.

Definition start (hash : string) : App := mkApp Bootstrap.start hash PStart [] [].

Definition set_session (s : Session) (a : App) : App :=
  mkApp s (hash a) (phase a) (streams a) (videos a).

Definition set_phase (p : Phase) (a : App) : App :=
  mkApp (session a) (hash a) p (streams a) (videos a).

Definition with_client (f : Client -> Client) (a : App) : App :=
  let s := session a in
  set_session (mkSession (f (client s)) (roomName s) (http s) (channel_open s)) a.

Definition peerId_of (a : App) : string := peerId (client (session a)).

(** [init] up to its first [await]: the room of the fragment, or
    [create()]; with a room, [join()] starts at once. *)
Definition init (a : App) : App :=
  match room_param (hash a) with
  | Some name =>
      set_phase PJoining (set_session (Bootstrap.join (Bootstrap.set_roomName name (session a))) a)
  | None => set_phase PCreating (set_session (Bootstrap.create (session a)) a)
  end.

(** [create()] resolved: the fragment names the room, and [join()]. *)
Definition created (name : string) (a : App) : App :=
  mkApp (Bootstrap.join (Bootstrap.create_reply name (session a))) (room_hash name) PJoining
        (streams a) (videos a).

(** The HTTP reply of [join] and the data channel: [join()] resolves;
    the handlers are registered and [getUserMedia] is awaited. *)
Definition joined (offer : SessionDescription) (pid : string) (a : App) : App :=
  set_phase PMedia (set_session (Bootstrap.datachannel
                                   (Bootstrap.join_reply offer pid (session a))) a).

(** [getUserMedia] resolved: [publish([{track: video, simulcast: true}])]. *)
Definition media (track : LocalTrack) (a : App) : App :=
  set_phase PPublishing (with_client (ClientSDK.publish [(track, Some true)]) a).

(** [publish] resolved (its offer answered): [getTracks()]. *)
Definition published (track : LocalTrack) (offer : SessionDescription) (a : App) : App :=
  set_phase PListing
    (with_client (fun c => ClientSDK.getTracks (ClientSDK.publish_reply [(track, Some true)] offer c)) a).

(** [getTracks] resolved with [infos]: [subscribe(infos)]. *)
Definition listed (infos : list MediaInfo) (a : App) : App :=
  set_phase PDone (with_client (ClientSDK.subscribe infos) a).

(** [onPublish]: subscribe to the publications of other peers. *)
Definition onPublish (info : MediaInfo) (a : App) : App :=
  if String.eqb (publisherId info) (peerId_of a) then a
  else with_client (ClientSDK.subscribe [info]) a.

(** [onTrack]: [setStreams((streams) => [...streams, {stream, info}])]. *)
Definition onTrack (stream : string) (info : option MediaInfo) (a : App) : App :=
  mkApp (session a) (hash a) (phase a) (streams a ++ [mkEntry stream info]) (videos a).

(** [stream.onremovetrack]: drop every entry of that stream. *)
Definition onremovetrack (stream : string) (a : App) : App :=
  mkApp (session a) (hash a) (phase a)
        (filter (fun e => entry_stream e <> stream) (streams a)) (videos a).

(** The labels of the rendering: [`${info.mediaId} ${info.publisherId}`];
    an [undefined] info throws a [TypeError] ([None]). *)
Definition render (l : list Entry) : option (list string) :=
  mapM (fun e => (fun info => String.append (mediaId info) (String.append " " (publisherId info))) <$> entry_info e) l.

(** The [ref] callbacks after a rendering of [n] rows: row [i] keeps its
    element (key [i]) or gets a new one; refs of unmounted rows are
    [null]. *)
Definition mount (n : nat) (vs : list (option (option string))) : list (option (option string)) :=
  (fun i => if decide (i < n) then Some (default None (mjoin (vs !! i))) else None)
    <$> seq 0 (Nat.max n (length vs)).

(** One iteration of [videos.current.forEach((v, i) => { if
    (streams[i]) v.srcObject = streams[i].stream })]: [None] when [v] is
    [null] for an existing stream ([TypeError]). *)
Definition video_step (l : list Entry) (i : nat) (v : option (option string))
    : option (option (option string)) :=
  match l !! i with
  | Some e => match v with
              | Some _ => Some (Some (Some (entry_stream e)))
              | None => None
              end
  | None => Some v
  end.

Definition video_effect (l : list Entry) (vs : list (option (option string)))
    : option (list (option (option string))) :=
  mapM (fun x => x) (imap (video_step l) vs).

(** A state change of [streams]: render (which may throw), mount, then
    the effect. *)
Definition commit (a : App) : option App :=
  _ ← render (streams a);
  vs ← video_effect (streams a) (mount (length (streams a)) (videos a));
  Some (mkApp (session a) (hash a) (phase a) (streams a) vs).

(** The buttons of row [i]. *)
Definition changeQuality_button (i : nat) (t : SubscriberType) (a : App) : option App :=
  e ← streams a !! i; info ← entry_info e;
  Some (with_client (ClientSDK.changeQuality info t) a).

Definition unPublish_button (i : nat) (a : App) : option App :=
  e ← streams a !! i; info ← entry_info e;
  Some (with_client (ClientSDK.unPublish info) a).

(** The SDK's events reach the component through the handlers it
    registered: [onTrack] (with the stream [ev.streams[0]]); it has no
    handler for [onLeave] or [onUnPublish]. *)
Definition deliver (stream : string) (ev : ClientEvent) (a : App) : App :=
  match ev with
  | OnTrack _ info => onTrack stream info a
  | OnUnPublish _ | OnLeave _ => a
  end.

End App.

(** ** Room links *)

(** The characters URLs never escape (RFC 3986 unreserved): the room
    names the server hands out are of this alphabet. *)
Definition unreserved (a : ascii) : bool :=
  let n := nat_of_ascii a in
  (Nat.leb 48 n && Nat.leb n 57) || (Nat.leb 65 n && Nat.leb n 90) ||
  (Nat.leb 97 n && Nat.leb n 122) ||
  Ascii.eqb a "-" || Ascii.eqb a "." || Ascii.eqb a "_" || Ascii.eqb a "~".

Fixpoint str_all (p : ascii -> bool) (s : string) : bool :=
  match s with
  | EmptyString => true
  | String a r => p a && str_all p r
  end.

Lemma unreserved_neq a c : unreserved a = true -> unreserved c = false -> Ascii.eqb a c = false.
Proof. intros Ha Hc. destruct (Ascii.eqb_spec a c) as [->|]; [congruence | done]. Qed.

Lemma no_char_unreserved c s :
  unreserved c = false -> str_all unreserved s = true -> no_char c s = true.
Proof.
  intros Hc. induction s as [|a r IH]; simpl; [done|]. intros H. sfu_bool.
  by rewrite (unreserved_neq a c), IH.
Qed.

Lemma pct_decode_unreserved s : str_all unreserved s = true -> pct_decode s = s.
Proof.
  induction s as [|a r IH]; simpl; [done|]. intros H. sfu_bool.
  rewrite (unreserved_neq a "+"), (unreserved_neq a "%") by done. by rewrite IH.
Qed.

Lemma split_eq_unreserved s : str_all unreserved s = true -> split_eq s = (s, EmptyString).
Proof.
  induction s as [|a r IH]; simpl; [done|]. intros H. sfu_bool.
  rewrite (unreserved_neq a "=") by done. by rewrite IH.
Qed.

#[export] Hint Rewrite pct_decode_unreserved split_eq_unreserved using done : sfu_rw.

(** C20: the link [init] writes after creating a room reads back as
    that room: opening it (a reload, or another participant) joins the
    same room, for every name of the server's alphabet. *)
Theorem room_link_roundtrip (name : string) :
  str_all unreserved name = true -> room_param (room_hash name) = Some name.
Proof.
  intros H. unfold room_param, room_hash. simpl.
  rewrite !js_split_no_char by (apply no_char_unreserved; done). simpl.
  unfold search_params, sp_get. simpl.
  rewrite !js_split_no_char by (apply no_char_unreserved; done). simpl.
  by rewrite pct_decode_unreserved.
Qed.

(** ** Rendering *)

Lemma render_None l : App.render l = None <-> exists e, e ∈ l /\ entry_info e = None.
Proof.
  unfold App.render. rewrite mapM_None, Exists_exists.
  split; intros [e [He H]]; exists e; split; try done; by destruct (entry_info e).
Qed.

Lemma mount_lookup n vs i :
  App.mount n vs !! i =
  if decide (i < Nat.max n (length vs))
  then Some (if decide (i < n) then Some (default None (mjoin (vs !! i))) else None)
  else None.
Proof.
  unfold App.mount. rewrite list_lookup_fmap.
  destruct (decide (i < Nat.max n (length vs))).
  - by rewrite lookup_seq_lt.
  - rewrite lookup_seq_ge; [done | lia].
Qed.

Lemma length_mount n vs : length (App.mount n vs) = Nat.max n (length vs).
Proof. unfold App.mount. by rewrite length_fmap, length_seq. Qed.

Lemma video_effect_lookup l vs vs' i :
  App.video_effect l vs = Some vs' -> vs' !! i = vs !! i ≫= App.video_step l i.
Proof.
  unfold App.video_effect. intros H%mapM_Some_1.
  rewrite Forall2_lookup in H. specialize (H i). rewrite list_lookup_imap in H.
  destruct (vs !! i); simpl in *; inversion H; subst; done.
Qed.

Lemma video_effect_is_Some l vs :
  (forall i e, l !! i = Some e -> vs !! i <> Some None) -> is_Some (App.video_effect l vs).
Proof.
  intros H. unfold App.video_effect. apply mapM_is_Some_2, Forall_lookup_2.
  intros i x Hx. apply list_lookup_imap_Some in Hx as [v [Hv ->]]. simpl.
  unfold App.video_step. destruct (l !! i) as [e|] eqn:Hl; [|done].
  destruct v; [done|]. by destruct (H i e Hl).
Qed.

Lemma video_effect_mount l vs : is_Some (App.video_effect l (App.mount (length l) vs)).
Proof.
  apply video_effect_is_Some. intros i e Hl. rewrite mount_lookup.
  assert (i < length l) by (by eapply lookup_lt_Some).
  rewrite !decide_True by lia. done.
Qed.

Lemma commit_Some a a' :
  App.commit a = Some a' <->
  is_Some (App.render (streams a)) /\
  a' = mkApp (session a) (hash a) (phase a) (streams a)
             (default [] (App.video_effect (streams a) (App.mount (length (streams a)) (videos a)))).
Proof.
  unfold App.commit. destruct (video_effect_mount (streams a) (videos a)) as [vs Hvs].
  rewrite Hvs. destruct (App.render (streams a)); simpl; split.
  - intros [= <-]. split; [by eexists | done].
  - by intros [_ ->].
  - done.
  - by intros [[? ?] _].
Qed.

(** C23: committing a change of [streams] throws a [TypeError]
    exactly when an entry has an [undefined] [MediaInfo] (the label
    reads [info.mediaId]); otherwise it succeeds. *)
Theorem commit_error (a : App) :
  App.commit a = None <-> exists e, e ∈ streams a /\ entry_info e = None.
Proof.
  rewrite <- render_None. destruct (App.commit a) as [a'|] eqn:Hc.
  - apply commit_Some in Hc as [[x Hx] _]. rewrite Hx. done.
  - split; [|done]. intros _. destruct (App.render (streams a)) eqn:Hr; [|done].
    exfalso. assert (Hs : App.commit a = Some (mkApp (session a) (hash a) (phase a) (streams a)
      (default [] (App.video_effect (streams a) (App.mount (length (streams a)) (videos a)))))).
    { apply commit_Some. split; [by eexists | done]. }
    congruence.
Qed.

(** C22: after a successful commit, video element [i] shows the
    stream of row [i] for every row, the array has one slot per row or
    per element it had before, and every slot past the rows holds a
    [null] ref: no element shows a stream that is no longer listed. *)
Theorem commit_videos (a a' : App) :
  App.commit a = Some a' ->
  streams a' = streams a /\
  length (videos a') = Nat.max (length (streams a)) (length (videos a)) /\
  (forall i e, streams a !! i = Some e -> videos a' !! i = Some (Some (Some (entry_stream e)))) /\
  (forall i, length (streams a) <= i -> videos a' !! i = None \/ videos a' !! i = Some None).
Proof.
  intros [_ ->]%commit_Some. simpl.
  destruct (video_effect_mount (streams a) (videos a)) as [vs Hvs]. rewrite Hvs. simpl.
  split_and!; [done | | |].
  - unfold App.video_effect in Hvs. apply mapM_Some_1, Forall2_length in Hvs.
    by rewrite <- Hvs, length_imap, length_mount.
  - intros i e He. rewrite (video_effect_lookup _ _ _ i Hvs), mount_lookup.
    assert (i < length (streams a)) by (by eapply lookup_lt_Some).
    rewrite !decide_True by lia. simpl. unfold App.video_step. by rewrite He.
  - intros i Hi. rewrite (video_effect_lookup _ _ _ i Hvs), mount_lookup.
    destruct (decide (i < Nat.max _ _)); [right | by left].
    rewrite decide_False by lia. simpl. unfold App.video_step. by rewrite lookup_ge_None_2.
Qed.

(** ** The component with the SDK and the server *)

Lemma subscribe_idle_sent infos c :
  PromiseQueue.running (subscribeQueue c) = None ->
  sent (ClientSDK.subscribe infos c) = sent c ++ [subscribe_rpc (peerId c) infos].
Proof. intros H. unfold ClientSDK.subscribe, PromiseQueue.push. by rewrite H. Qed.

(** C9: [onPublish] ignores the peer's own publications, but [init]
    subscribes to every track [getTracks] lists, its own included: with
    an idle queue the request asks the server for the peer's own
    track. *)
Theorem app_subscribes_own_track (a : App) (infos : list MediaInfo) (info : MediaInfo) :
  info ∈ infos -> publisherId info = App.peerId_of a ->
  PromiseQueue.running (subscribeQueue (client (session a))) = None ->
  App.onPublish info a = a /\
  sent (client (session (App.listed infos a))) =
    sent (client (session a)) ++ [subscribe_rpc (App.peerId_of a) infos] /\
  mkRequestSubscribe info (ClientSDK.subscriber_type info) ∈ ClientSDK.subscribe_requests infos.
Proof.
  intros Hin Hown Hidle. split_and!.
  - unfold App.onPublish. by rewrite Hown, String.eqb_refl.
  - by apply subscribe_idle_sent.
  - apply list_elem_of_fmap. by exists info.
Qed.

(** ** Witnesses *)

Definition example_info : MediaInfo := mkMediaInfo "m1" "p1" Video true.

Definition example_app : App :=
  App.joined (PC.createOffer PC.create) "p1" (App.init (App.start (room_hash "3f2a-9c1e"))).

Definition example_rows : App :=
  App.onTrack "s2" (Some example_info) (App.onTrack "s1" (Some example_info) example_app).

Lemma room_link_roundtrip_witness :
  str_all unreserved "3f2a-9c1e" = true /\ room_param (room_hash "3f2a-9c1e") = Some "3f2a-9c1e".
Proof. split; [reflexivity | apply room_link_roundtrip; reflexivity]. Defined.

Lemma commit_videos_witness :
  exists a', App.commit example_rows = Some a' /\
  streams a' = streams example_rows /\
  length (videos a') = Nat.max (length (streams example_rows)) (length (videos example_rows)) /\
  (forall i e, streams example_rows !! i = Some e ->
               videos a' !! i = Some (Some (Some (entry_stream e)))) /\
  (forall i, length (streams example_rows) <= i -> videos a' !! i = None \/ videos a' !! i = Some None).
Proof.
  eexists. split; [vm_compute; reflexivity|]. apply commit_videos. vm_compute. reflexivity.
Defined.

Lemma app_subscribes_own_track_witness :
  App.onPublish example_info example_app = example_app /\
  sent (client (session (App.listed [example_info] example_app))) =
    sent (client (session example_app)) ++ [subscribe_rpc (App.peerId_of example_app) [example_info]] /\
  mkRequestSubscribe example_info (ClientSDK.subscriber_type example_info)
    ∈ ClientSDK.subscribe_requests [example_info].
Proof.
  apply app_subscribes_own_track; [by left | reflexivity | reflexivity].
Defined.

